(** * h5p-audio-recorder: the capture controller of [src/components/Recorder.js]

    A shallow embedding of the [Recorder] class together with the part of
    the host it talks to (ECMAScript promises and their microtask queue,
    the encoder worker's message channel, the event dispatcher it inherits
    from, the media-capture platform).  State is threaded explicitly: every
    method is a function on a [World], and the externally visible actions
    are appended, in program order, to the world's [log]. *)

From Stdlib Require Import String ZArith Lia Bool.
From stdpp Require Import base list.

Local Open Scope string_scope.
Local Open Scope list_scope.
#[local] Set Warnings "-register-all".

(** ** JavaScript values *)

Module JS.

(** The values the recorder handles.  An object carries its own properties
    and its prototype; [VStream], [VBlob] and [VObjectURL] stand for the
    host objects [MediaStream], [Blob] and the string returned by
    [URL.createObjectURL]. *)
Inductive JSVal : Type :=
| VUndefined
| VNull
| VBool (b : bool)
| VString (s : string)
| VFunction (name : string)
| VObject (own : list (string * JSVal)) (proto : JSVal)
| VStream (id : nat)
| VBlob (id : nat)
| VObjectURL (id : nat).

(** ToBoolean: [undefined], [null], [false] and the empty string are falsy,
    everything else is truthy. *)
Definition to_boolean (v : JSVal) : bool :=
  match v with
  | VUndefined | VNull => false
  | VBool b => b
  | VString s => negb (String.eqb s "")
  | _ => true
  end.

(** [v === undefined] *)
Definition is_undefined (v : JSVal) : bool :=
  match v with VUndefined => true | _ => false end.

Definition is_boolean (v : JSVal) : bool :=
  match v with VBool _ => true | _ => false end.

Definition is_string (v : JSVal) : bool :=
  match v with VString _ => true | _ => false end.

Fixpoint assoc (k : string) (l : list (string * JSVal)) : option JSVal :=
  match l with
  | [] => None
  | (k', v) :: l' => if String.eqb k k' then Some v else assoc k l'
  end.

(** [o[k]]: own properties first, then the prototype chain; a property that
    is found nowhere reads as [undefined]. *)
Fixpoint get_prop (o : JSVal) (k : string) : JSVal :=
  match o with
  | VObject own proto =>
      match assoc k own with
      | Some v => v
      | None => get_prop proto k
      end
  | _ => VUndefined
  end.

(** [Object.prototype], which every object literal inherits from.  Its
    [__proto__] accessor yields the receiver's prototype; it is represented
    by an object, of which only the truthiness matters here. *)
Definition Object_prototype : JSVal :=
  VObject
    [ ("constructor", VFunction "Object");
      ("hasOwnProperty", VFunction "hasOwnProperty");
      ("isPrototypeOf", VFunction "isPrototypeOf");
      ("propertyIsEnumerable", VFunction "propertyIsEnumerable");
      ("toLocaleString", VFunction "toLocaleString");
      ("toString", VFunction "toString");
      ("valueOf", VFunction "valueOf");
      ("__defineGetter__", VFunction "__defineGetter__");
      ("__defineSetter__", VFunction "__defineSetter__");
      ("__lookupGetter__", VFunction "__lookupGetter__");
      ("__lookupSetter__", VFunction "__lookupSetter__");
      ("__proto__", VObject [] VNull) ]
    VNull.

(** An object literal [{k1: v1, ...}]. *)
Definition literal (own : list (string * JSVal)) : JSVal :=
  VObject own Object_prototype.

(** What this program throws or rejects with: an [Error]-like object of the
    platform (a [DOMException] of [getUserMedia], a [TypeError]), whose
    [name] may be absent, or the record [{code, error}] built by [grabMic]. *)
Inductive JSError : Type :=
| ErrorObj (name : option string)
| GrantFailure (code : JSVal) (error : JSError).

Definition TypeError : JSError := ErrorObj (Some "TypeError").

(** [e.name] *)
Definition error_name (e : JSError) : JSVal :=
  match e with
  | ErrorObj (Some n) => VString n
  | ErrorObj None => VUndefined
  | GrantFailure _ _ => VUndefined
  end.

(** The result of running a piece of code: a value, or an exception. *)
Inductive Completion (A : Type) : Type :=
| Normal (v : A)
| Throw (e : JSError).
Arguments Normal {A} v.
Arguments Throw {A} e.

End JS.
Export JS.

(** ** Data model of the recorder *)

(** [RecorderState] *)
Inductive RecorderState : Type := inactive | recording.

(** The string each state is (the enum's values are the signal names). *)
Definition state_name (s : RecorderState) : string :=
  match s with
  | inactive => "inactive"
  | recording => "recording"
  end.

(** Samples are opaque to the controller; a [Float32Array] is carried as the
    list of its elements' bit patterns. *)
Definition Float32Array : Type := list Z.

(** [this.config] *)
Definition config_bufferLength : Z := 4096.
Definition config_numChannels : Z := 1.

(** What [this.worker.postMessage] is called with. *)
Inductive EncoderMessage : Type :=
| MsgInit (sampleRate : Z) (numChannels : Z)
| MsgRecord (buffer : list Float32Array)
| MsgClear
| MsgExportWav.

Abbreviation PromiseId := nat.

(** The closures of the source, one constructor per arrow function, with the
    variables each one captures. *)
Inductive FulfilHandler : Type :=
| K_gum_then (resolve : PromiseId)   (* grabMic: (stream) => { ...; resolve(); } *)
| K_start_then.                      (* start: () => { this._setState(recording); } *)

Inductive RejectHandler : Type :=
| K_gum_catch (reject : PromiseId)   (* grabMic: (e) => { reject({code, error}); } *)
| K_start_catch.                     (* start: (e) => { this.trigger('blocked'); } *)

Inductive Listener : Type :=
| L_wav_resolve (resolve : PromiseId). (* getWavURL: (e) => { resolve(URL.createObjectURL(e.data)); } *)

(** ** Promises *)

Inductive Outcome : Type :=
| Fulfil (v : JSVal)
| Reject (e : JSError).

(** A reaction is what [then]/[catch] registers: the handlers, and the
    promise that the call returned. *)
Record Reaction : Type := {
  on_fulfilled : option FulfilHandler;
  on_rejected : option RejectHandler;
  derived : PromiseId
}.

Inductive Cell : Type :=
| Pending (reactions : list Reaction)
| Settled (o : Outcome).

Definition Job : Type := (Reaction * Outcome)%type.

(** ** The world *)

(** Externally visible actions, in the order the program performs them. *)
Inductive Effect : Type :=
| Emit (name : string) (data : JSVal)      (* this.trigger(name, data) *)
| Post (m : EncoderMessage)                (* this.worker.postMessage(m) *)
| Once (name : string) (l : Listener)      (* this.once(name, l) *)
| GetUserMedia (g : PromiseId).            (* navigator.mediaDevices.getUserMedia({audio: true}) *)

(** The features of the host the recorder probes and uses. *)
Record Platform : Type := {
  window_AudioContext : JSVal;
  navigator_mediaDevices : JSVal;
  hardware_sampleRate : Z
}.

Record AudioContext : Type := { sampleRate : Z }.

Record World : Type := {
  platform : Platform;
  (* fields of the Recorder instance *)
  audioContext : option AudioContext;  (* with its scriptProcessorNode *)
  state : RecorderState;
  userMedia : option PromiseId;
  stream : JSVal;
  wired : bool;                        (* sourceNode created and connected *)
  (* the host *)
  heap : list Cell;                    (* promises, by identity *)
  jobs : list Job;                     (* the microtask queue *)
  listeners : list (string * Listener);(* one-shot listeners of the dispatcher *)
  object_urls : list nat;              (* blobs that have an object URL *)
  log : list Effect
}.

Definition set_audioContext (x : option AudioContext) (w : World) : World :=
  {| platform := platform w; audioContext := x; state := state w;
     userMedia := userMedia w; stream := stream w; wired := wired w;
     heap := heap w; jobs := jobs w; listeners := listeners w;
     object_urls := object_urls w; log := log w |}.

Definition set_state (x : RecorderState) (w : World) : World :=
  {| platform := platform w; audioContext := audioContext w; state := x;
     userMedia := userMedia w; stream := stream w; wired := wired w;
     heap := heap w; jobs := jobs w; listeners := listeners w;
     object_urls := object_urls w; log := log w |}.

Definition set_userMedia (x : option PromiseId) (w : World) : World :=
  {| platform := platform w; audioContext := audioContext w; state := state w;
     userMedia := x; stream := stream w; wired := wired w;
     heap := heap w; jobs := jobs w; listeners := listeners w;
     object_urls := object_urls w; log := log w |}.

Definition set_stream (x : JSVal) (w : World) : World :=
  {| platform := platform w; audioContext := audioContext w; state := state w;
     userMedia := userMedia w; stream := x; wired := wired w;
     heap := heap w; jobs := jobs w; listeners := listeners w;
     object_urls := object_urls w; log := log w |}.

Definition set_wired (x : bool) (w : World) : World :=
  {| platform := platform w; audioContext := audioContext w; state := state w;
     userMedia := userMedia w; stream := stream w; wired := x;
     heap := heap w; jobs := jobs w; listeners := listeners w;
     object_urls := object_urls w; log := log w |}.

Definition set_heap (x : list Cell) (w : World) : World :=
  {| platform := platform w; audioContext := audioContext w; state := state w;
     userMedia := userMedia w; stream := stream w; wired := wired w;
     heap := x; jobs := jobs w; listeners := listeners w;
     object_urls := object_urls w; log := log w |}.

Definition set_jobs (x : list Job) (w : World) : World :=
  {| platform := platform w; audioContext := audioContext w; state := state w;
     userMedia := userMedia w; stream := stream w; wired := wired w;
     heap := heap w; jobs := x; listeners := listeners w;
     object_urls := object_urls w; log := log w |}.

Definition set_listeners (x : list (string * Listener)) (w : World) : World :=
  {| platform := platform w; audioContext := audioContext w; state := state w;
     userMedia := userMedia w; stream := stream w; wired := wired w;
     heap := heap w; jobs := jobs w; listeners := x;
     object_urls := object_urls w; log := log w |}.

Definition set_object_urls (x : list nat) (w : World) : World :=
  {| platform := platform w; audioContext := audioContext w; state := state w;
     userMedia := userMedia w; stream := stream w; wired := wired w;
     heap := heap w; jobs := jobs w; listeners := listeners w;
     object_urls := x; log := log w |}.

Definition set_log (x : list Effect) (w : World) : World :=
  {| platform := platform w; audioContext := audioContext w; state := state w;
     userMedia := userMedia w; stream := stream w; wired := wired w;
     heap := heap w; jobs := jobs w; listeners := listeners w;
     object_urls := object_urls w; log := x |}.

(** ** A state-and-exception monad for method bodies *)

Definition M (A : Type) : Type := World -> World * Completion A.

Definition ret {A} (a : A) : M A := fun w => (w, Normal a).

Definition bind {A B} (m : M A) (k : A -> M B) : M B :=
  fun w =>
    match m w with
    | (w1, Normal a) => k a w1
    | (w1, Throw e) => (w1, Throw e)
    end.

Definition throw {A} (e : JSError) : M A := fun w => (w, Throw e).

Definition try_catch {A} (m : M A) (h : JSError -> M A) : M A :=
  fun w =>
    match m w with
    | (w1, Normal a) => (w1, Normal a)
    | (w1, Throw e) => h e w1
    end.

Definition gets {A} (f : World -> A) : M A := fun w => (w, Normal (f w)).

Definition modify (f : World -> World) : M unit := fun w => (f w, Normal tt).

Notation "x <- c ;; k" := (bind c (fun x => k))
  (at level 100, c at next level, k at level 200, right associativity).
Notation "c ;; k" := (bind c (fun _ => k))
  (at level 100, k at level 200, right associativity).

Definition effect (e : Effect) : M unit :=
  modify (fun w => set_log (log w ++ [e]) w).

(** ** Promise operations *)

(** A fresh pending promise. *)
Definition alloc : M PromiseId :=
  fun w => (set_heap (heap w ++ [Pending []]) w, Normal (length (heap w))).

(** Settling a pending promise queues one job per registered reaction, in
    registration order; settling a settled promise does nothing. *)
Definition settle (p : PromiseId) (o : Outcome) : M unit :=
  fun w =>
    match heap w !! p with
    | Some (Pending rs) =>
        (set_jobs (jobs w ++ List.map (fun r => (r, o)) rs)
           (set_heap (<[p := Settled o]> (heap w)) w), Normal tt)
    | _ => (w, Normal tt)
    end.

(** The [resolve] and [reject] functions of promise [p]. *)
Definition resolve (p : PromiseId) (v : JSVal) : M unit := settle p (Fulfil v).
Definition reject (p : PromiseId) (e : JSError) : M unit := settle p (Reject e).

(** Registering a reaction: kept with a pending promise, queued at once as
    a job for a settled one. *)
Definition subscribe (p : PromiseId) (r : Reaction) : M unit :=
  fun w =>
    match heap w !! p with
    | Some (Pending rs) =>
        (set_heap (<[p := Pending (rs ++ [r])]> (heap w)) w, Normal tt)
    | Some (Settled o) => (set_jobs (jobs w ++ [(r, o)]) w, Normal tt)
    | None => (w, Normal tt)
    end.

(** [p.then(f)] and [p.catch(g)]: each returns a new promise. *)
Definition promise_then (p : PromiseId) (f : FulfilHandler) : M PromiseId :=
  d <- alloc ;;
  subscribe p {| on_fulfilled := Some f; on_rejected := None; derived := d |} ;;
  ret d.

Definition promise_catch (p : PromiseId) (g : RejectHandler) : M PromiseId :=
  d <- alloc ;;
  subscribe p {| on_fulfilled := None; on_rejected := Some g; derived := d |} ;;
  ret d.

(** [new Promise(executor)]: the executor runs at once; an exception it
    throws rejects the promise. *)
Definition new_Promise (executor : PromiseId -> M unit) : M PromiseId :=
  p <- alloc ;;
  try_catch (executor p) (fun e => reject p e) ;;
  ret p.

(** ** The host interfaces the recorder calls *)

(** [this.worker.postMessage(m)] *)
Definition postMessage (m : EncoderMessage) : M unit := effect (Post m).

(** [URL.createObjectURL(data)]: a new URL for a blob, a [TypeError] for
    anything else. *)
Definition createObjectURL (data : JSVal) : M JSVal :=
  match data with
  | VBlob b =>
      urls <- gets object_urls ;;
      modify (set_object_urls (urls ++ [b])) ;;
      ret (VObjectURL (length urls))
  | _ => throw TypeError
  end.

(** [navigator.mediaDevices.getUserMedia({audio: true})]: the permission
    request.  It returns a promise that the platform settles later. *)
Definition getUserMedia : M PromiseId :=
  p <- gets platform ;;
  match navigator_mediaDevices p with
  | VUndefined | VNull => throw TypeError
  | md =>
      match get_prop md "getUserMedia" with
      | VFunction _ =>
          g <- alloc ;;
          effect (GetUserMedia g) ;;
          ret g
      | _ => throw TypeError
      end
  end.

(** [new AudioContext()] *)
Definition new_AudioContext : M AudioContext :=
  p <- gets platform ;;
  match window_AudioContext p with
  | VFunction _ => ret {| sampleRate := hardware_sampleRate p |}
  | _ => throw TypeError
  end.

(** ** The event dispatcher *)

(** What a listener does when it is called with an event whose [data] is
    [data]. *)
Definition invoke (l : Listener) (data : JSVal) : M unit :=
  match l with
  | L_wav_resolve p =>
      url <- createObjectURL data ;;
      resolve p url
  end.

Fixpoint fire (due : list Listener) (data : JSVal) : M unit :=
  match due with
  | [] => ret tt
  | l :: rest => invoke l data ;; fire rest data
  end.

Definition listens (name : string) (nl : string * Listener) : bool :=
  String.eqb (fst nl) name.

(** Modelled from the spec: the dispatcher [H5P.EventDispatcher], which the
    class extends and which is not part of the sources.  [once] registers a
    one-shot listener; [trigger] delivers the signal to the observers and
    runs the listeners registered for that name, in registration order, each
    of them for the last time. *)
Definition once (name : string) (l : Listener) : M unit :=
  effect (Once name l) ;;
  modify (fun w => set_listeners (listeners w ++ [(name, l)]) w).

(** Modelled from the spec: [trigger] of [H5P.EventDispatcher], see [once]. *)
Definition trigger (name : string) (data : JSVal) : M unit :=
  effect (Emit name data) ;;
  ls <- gets listeners ;;
  modify (set_listeners (List.filter (fun nl => negb (listens name nl)) ls)) ;;
  fire (List.map snd (List.filter (listens name) ls)) data.

(** ** The Recorder class *)

Module Recorder.

(** [errorMessageToCodeMap], an object literal. *)
Definition errorMessageToCodeMap : JSVal :=
  literal
    [ ("PermissionDeniedError", VString "permission-denied");
      ("NotAllowedError", VString "permission-denied") ].

(** [_errorToCode(e)] *)
Definition _errorToCode (e : JSError) : JSVal :=
  match error_name e with
  | VString n =>
      if to_boolean (VString n) && to_boolean (get_prop errorMessageToCodeMap n)
      then get_prop errorMessageToCodeMap n
      else VString "unknown"
  | _ => VString "unknown"
  end.

(** [supported()]: [a && b] evaluates to [a] when [a] is falsy and to [b]
    otherwise, and [b] is only evaluated in the second case. *)
Definition supported (p : Platform) : JSVal :=
  let a := VBool (negb (is_undefined (window_AudioContext p))) in
  if to_boolean a then
    let b := navigator_mediaDevices p in
    if to_boolean b then get_prop b "getUserMedia" else b
  else a.

(** [_setState(state)] *)
Definition _setState (s : RecorderState) : M unit :=
  modify (set_state s) ;;
  s' <- gets state ;;
  trigger (state_name s') VUndefined.

(** [stop()] *)
Definition stop : M unit := _setState inactive.

(** [reset()] *)
Definition reset : M unit :=
  _setState inactive ;;
  postMessage MsgClear.

(** [init()] *)
Definition init : M unit :=
  p <- gets platform ;;
  if negb (to_boolean (supported p)) then ret tt
  else
    ac <- new_AudioContext ;;
    modify (set_audioContext (Some ac)).

(** The handler installed as [scriptProcessorNode.onaudioprocess], called
    with an event whose input buffer has the channels [channel0 :: others]. *)
Definition onaudioprocess (channel0 : Float32Array) (others : list Float32Array)
  : M unit :=
  s <- gets state ;;
  match s with
  | recording => postMessage (MsgRecord [channel0])
  | inactive => ret tt
  end.

(** The handler installed as [worker.onmessage], called with a message
    whose data is [{command, blob}]. *)
Definition onmessage (command : string) (blob : JSVal) : M unit :=
  trigger command blob.

(** [grabMic()] *)
Definition grabMic : M PromiseId :=
  um <- gets userMedia ;;
  match um with
  | None =>
      p <- new_Promise (fun p =>
             g <- getUserMedia ;;
             g1 <- promise_then g (K_gum_then p) ;;
             promise_catch g1 (K_gum_catch p) ;;
             ret tt) ;;
      modify (set_userMedia (Some p)) ;;
      ret p
  | Some p => ret p
  end.

(** [start()] *)
Definition start : M unit :=
  p <- grabMic ;;
  s1 <- promise_then p K_start_then ;;
  promise_catch s1 K_start_catch ;;
  ret tt.

(** [getWavURL()] *)
Definition getWavURL : M PromiseId :=
  stop ;;
  promise <- new_Promise (fun p => once "wav-delivered" (L_wav_resolve p)) ;;
  postMessage MsgExportWav ;;
  ret promise.

(** The bodies of the closures. *)
Definition call_fulfilled (k : FulfilHandler) (v : JSVal) : M unit :=
  match k with
  | K_gum_then p =>
      modify (set_stream v) ;;
      ctx <- gets audioContext ;;
      match ctx with
      | None => throw TypeError   (* this.audioContext is undefined *)
      | Some ac =>
          modify (set_wired true) ;;
          postMessage (MsgInit (sampleRate ac) config_numChannels) ;;
          resolve p VUndefined
      end
  | K_start_then => _setState recording
  end.

Definition call_rejected (k : RejectHandler) (e : JSError) : M unit :=
  match k with
  | K_gum_catch p => reject p (GrantFailure (_errorToCode e) e)
  | K_start_catch => trigger "blocked" VUndefined
  end.

(** The constructor: the fields it sets, then [this.init()].  What it asks
    of the host before that (the worker and the blob URL of its script) is
    not modelled: a [None] here is a failure of [init()] only. *)
Definition blank (p : Platform) : World :=
  {| platform := p; audioContext := None; state := inactive;
     userMedia := None; stream := VUndefined; wired := false;
     heap := []; jobs := []; listeners := []; object_urls := []; log := [] |}.

Definition constructor (p : Platform) : option World :=
  match init (blank p) with
  | (w, Normal _) => Some w
  | (_, Throw _) => None
  end.

End Recorder.
Export Recorder.

(** ** The event loop *)

(** One promise job: call the handler that matches the outcome and settle
    the derived promise with what it returns or throws (every handler of
    this program returns [undefined]); without a handler the outcome passes
    through. *)
Definition run_job (j : Job) : M unit :=
  let '(r, o) := j in
  match o with
  | Fulfil v =>
      match on_fulfilled r with
      | Some k =>
          try_catch (call_fulfilled k v ;; resolve (derived r) VUndefined)
                    (fun e => reject (derived r) e)
      | None => resolve (derived r) v
      end
  | Reject e =>
      match on_rejected r with
      | Some k =>
          try_catch (call_rejected k e ;; resolve (derived r) VUndefined)
                    (fun e' => reject (derived r) e')
      | None => reject (derived r) e
      end
  end.

(** What can happen to a recorder: its methods are called, the platform
    settles the permission request or delivers a frame, a message from the
    worker arrives, or the next microtask runs.  The worker itself
    ([RecorderWorker]) is not modelled: the messages it is sent are in the
    log, and it may reply with any command and any data at any time. *)
Inductive Event : Type :=
| Call_start
| Call_stop
| Call_reset
| Call_getWavURL
| Call_grabMic
| Gum_fulfil (g : PromiseId) (stream : nat)
| Gum_reject (g : PromiseId) (name : option string)
| AudioProcess (channel0 : Float32Array) (others : list Float32Array)
| WorkerMessage (command : string) (blob : JSVal)
| Microtask.

Definition is_pending (c : option Cell) : bool :=
  match c with Some (Pending _) => true | _ => false end.

Definition is_gum (g : PromiseId) (e : Effect) : bool :=
  match e with GetUserMedia g' => Nat.eqb g g' | _ => false end.

Definition idle (w : World) : bool :=
  match jobs w with [] => true | _ => false end.

(** A platform task starts only when the microtask queue is empty; the
    platform settles only a request that was made and is still pending; a
    frame needs the script processor node.  [None]: the event cannot happen
    in this world. *)
Definition step (w : World) (ev : Event) : option World :=
  match ev with
  | Call_start => Some (fst (start w))
  | Call_stop => Some (fst (stop w))
  | Call_reset => Some (fst (reset w))
  | Call_getWavURL => Some (fst (getWavURL w))
  | Call_grabMic => Some (fst (grabMic w))
  | Gum_fulfil g s =>
      if idle w && existsb (is_gum g) (log w) && is_pending (heap w !! g)
      then Some (fst (resolve g (VStream s) w)) else None
  | Gum_reject g n =>
      if idle w && existsb (is_gum g) (log w) && is_pending (heap w !! g)
      then Some (fst (reject g (ErrorObj n) w)) else None
  | AudioProcess c0 cs =>
      match audioContext w with
      | Some _ => if idle w then Some (fst (onaudioprocess c0 cs w)) else None
      | None => None
      end
  | WorkerMessage c b =>
      if idle w then Some (fst (onmessage c b w)) else None
  | Microtask =>
      match jobs w with
      | j :: rest => Some (fst (run_job j (set_jobs rest w)))
      | [] => None
      end
  end.

Fixpoint run (w : World) (evs : list Event) : option World :=
  match evs with
  | [] => Some w
  | ev :: rest =>
      match step w ev with
      | Some w' => run w' rest
      | None => None
      end
  end.

(** The worlds a recorder can be in: from its construction on some
    platform, after any sequence of events. *)
Definition reachable (w : World) : Prop :=
  exists p w0 evs, constructor p = Some w0 /\ run w0 evs = Some w.

(** ** Reading the log *)

Definition is_init (e : Effect) : bool :=
  match e with Post (MsgInit _ _) => true | _ => false end.

Definition is_record (e : Effect) : bool :=
  match e with Post (MsgRecord _) => true | _ => false end.

Definition is_request (e : Effect) : bool :=
  match e with GetUserMedia _ => true | _ => false end.

(** How many permission requests were issued. *)
Definition gum_calls (lg : list Effect) : nat :=
  length (List.filter is_request lg).

(** How many frames were forwarded to the encoder. *)
Definition records (lg : list Effect) : nat :=
  length (List.filter is_record lg).

Definition has_init (lg : list Effect) : bool := existsb is_init lg.

(** Reading the log from its oldest entry: an [init] message comes before
    any [record] message. *)
Fixpoint init_first (lg : list Effect) : bool :=
  match lg with
  | [] => true
  | e :: rest => if is_init e then true else negb (is_record e) && init_first rest
  end.


(** The messages sent to the encoder worker, oldest first. *)
Fixpoint posted (lg : list Effect) : list EncoderMessage :=
  match lg with
  | [] => []
  | Post m :: rest => m :: posted rest
  | _ :: rest => posted rest
  end.

(** The memoized grant, seen from outside. *)
Definition grant_fulfilled (w : World) : Prop :=
  exists p v, userMedia w = Some p /\ heap w !! p = Some (Settled (Fulfil v)).


(** ** Hoare triples for method bodies *)

(** [triple P m Q E]: from a world in [P], [m] ends in [Q] when it returns
    and in [E] when it throws. *)
Definition triple {A : Type} (P : World -> Prop) (m : M A)
    (Q : A -> World -> Prop) (E : World -> Prop) : Prop :=
  forall w, P w ->
    match m w with
    | (w', Normal a) => Q a w'
    | (w', Throw _) => E w'
    end.

(** ** The invariant of reachable worlds *)

Definition target (l : Listener) : PromiseId :=
  match l with L_wav_resolve p => p end.

(** [x] names an allocated promise other than the grant [P]. *)
Definition ok_id (P : option PromiseId) (h : list Cell) (x : PromiseId) : Prop :=
  x < length h /\ P <> Some x.

Definition granted (P : option PromiseId) (h : list Cell) : Prop :=
  exists p v, P = Some p /\ h !! p = Some (Settled (Fulfil v)).

Definition waits_start (r : Reaction) : Prop :=
  on_fulfilled r = Some K_start_then.

(** [P] is the promise that [grabMic] memoizes (it differs from the field
    [userMedia] only inside [grabMic], between the creation of the promise
    and the assignment).  Nothing but the success handler of [grabMic]
    fulfils [P]; the continuation of [start] waits on [P] only; and the
    state is [recording] only once [P] is fulfilled, which happens after
    the [init] message; and the permission request is issued at most once,
    and not before [P] exists. *)
Record InvC (P : option PromiseId) (s : RecorderState) (h : list Cell)
    (j : list Job) (l : list (string * Listener)) (lg : list Effect) : Prop := {
  inv_P : forall p, P = Some p -> p < length h;
  inv_heap : forall q rs r, h !! q = Some (Pending rs) -> In r rs ->
      ok_id P h (derived r) /\ (waits_start r -> P = Some q);
  inv_jobs : forall r o, In (r, o) j ->
      ok_id P h (derived r) /\
      (waits_start r -> forall v, o = Fulfil v -> granted P h);
  inv_lis : forall name k, In (name, k) l ->
      ok_id P h (target k) /\ name = "wav-delivered";
  inv_gum : forall g, In (GetUserMedia g) lg -> ok_id P h g;
  inv_state : s = recording -> granted P h;
  inv_init : granted P h -> has_init lg = true;
  inv_rec : init_first lg = true;
  inv_once : gum_calls lg <= 1 /\ (P = None -> gum_calls lg = 0)
}.

Definition Inv (um P : option PromiseId) (w : World) : Prop :=
  userMedia w = um /\
  InvC P (state w) (heap w) (jobs w) (listeners w) (log w).

Definition Good (w : World) : Prop := Inv (userMedia w) (userMedia w) w.

(** Settled promises stay as they are. *)
Definition stable (h h' : list Cell) : Prop :=
  forall p o, h !! p = Some (Settled o) -> h' !! p = Some (Settled o).

(** The invariant while a method runs, with what the method has to keep
    track of: a lower bound [n] on the number of allocated promises, the
    number [c] of permission requests issued, and a heap [h0] whose settled
    promises are still settled the same way. *)
Definition J (um P : option PromiseId) (n c : nat) (h0 : list Cell)
    (w : World) : Prop :=
  Inv um P w /\ n <= length (heap w) /\
  gum_calls (log w) = c /\ stable h0 (heap w).

(** What an event leaves as it was: the memoized promise, the promises that
    are settled, and, once the promise is memoized, the number of
    permission requests. *)
Definition unchanged (w w' : World) : Prop :=
  (forall p, userMedia w = Some p -> userMedia w' = Some p) /\
  stable (heap w) (heap w') /\
  (userMedia w <> None -> gum_calls (log w') = gum_calls (log w)).

(** ** Worked executions *)

(** A browser with every feature the recorder needs. *)
Definition browser : Platform :=
  {| window_AudioContext := VFunction "AudioContext";
     navigator_mediaDevices :=
       VObject [("getUserMedia", VFunction "getUserMedia")] Object_prototype;
     hardware_sampleRate := 48000 |}.

(** The recorder built on platform [p], after the events [evs]. *)
Definition after (p : Platform) (evs : list Event) : World :=
  match constructor p with
  | Some w0 => match run w0 evs with Some w => w | None => w0 end
  | None => blank p
  end.

(** The recorder after [start()] and the user's consent: recording. *)
Definition granted_recorder : World :=
  after browser [Call_start; Gum_fulfil 1 7;
                 Microtask; Microtask; Microtask; Microtask].


(** [start()], then [getWavURL()] at once, then the user's consent. *)
Definition exporting_recorder : World :=
  after browser [Call_start; Call_getWavURL; Gum_fulfil 1 7;
                 Microtask; Microtask; Microtask; Microtask].

(** The two reactions that [start] registers, when [n] promises exist. *)
Definition start_then (n : nat) : Reaction :=
  {| on_fulfilled := Some K_start_then; on_rejected := None; derived := n |}.

Definition start_catch (n : nat) : Reaction :=
  {| on_fulfilled := None; on_rejected := Some K_start_catch; derived := S n |}.

(** Every registered listener waits for the export reply. *)
Definition wav_only (ls : list (string * Listener)) : Prop :=
  forall name k, In (name, k) ls -> name = "wav-delivered".

(** Whether the events [evs] can happen, in this order, to the recorder
    built on [p]. *)
Definition possible (p : Platform) (evs : list Event) : bool :=
  match constructor p with
  | Some w0 => match run w0 evs with Some _ => true | None => false end
  | None => false
  end.

(** [m] leaves the observation [f] of the world as it was. *)
Definition keeps {A X : Type} (f : World -> X) (m : M A) : Prop :=
  forall w, f (fst (m w)) = f w.

(** ** Two statements of the specification, as they are written *)



(** After [getWavURL()], while its result is pending, the state is
    [inactive]. *)
Definition inactive_while_export_pending : Prop :=
  forall w w1 q,
    reachable w -> getWavURL w = (w1, Normal q) ->
    forall evs w2,
      run w1 evs = Some w2 -> is_pending (heap w2 !! q) = true ->
      state w2 = inactive.

(** A browser without [navigator.mediaDevices]. *)
Definition old_browser : Platform :=
  {| window_AudioContext := VFunction "AudioContext";
     navigator_mediaDevices := VUndefined;
     hardware_sampleRate := 44100 |}.

(** ** What each event adds to the log *)

(** [f] observes nothing of the promise heap, the microtask queue or the
    object URLs. *)
Definition host_blind {X : Type} (f : World -> X) : Prop :=
  (forall h w, f (set_heap h w) = f w) /\
  (forall j w, f (set_jobs j w) = f w) /\
  (forall u w, f (set_object_urls u w) = f w).

(** [f] observes only what no method assigns after construction, or what
    the success handler of [grabMic] assigns. *)
Definition recorder_blind {X : Type} (f : World -> X) : Prop :=
  host_blind f /\
  (forall l w, f (set_listeners l w) = f w) /\
  (forall l w, f (set_log l w) = f w) /\
  (forall s w, f (set_state s w) = f w) /\
  (forall u w, f (set_userMedia u w) = f w) /\
  (forall s w, f (set_stream s w) = f w).

(** Whether [navigator.mediaDevices.getUserMedia] can be called. *)
Definition has_gum (p : Platform) : bool :=
  match navigator_mediaDevices p with
  | VUndefined | VNull => false
  | md => match get_prop md "getUserMedia" with
          | VFunction _ => true
          | _ => false
          end
  end.

(** The permission request that [grabMic] makes in world [w], if any. *)
Definition requested (w : World) : list Effect :=
  match userMedia w with
  | Some _ => []
  | None =>
      if has_gum (platform w) then [GetUserMedia (S (length (heap w)))] else []
  end.

(** What running the job [j] adds to the log. *)
Definition job_emits (w : World) (j : Job) : list Effect :=
  match j with
  | (r, Fulfil _) =>
      match on_fulfilled r with
      | Some (K_gum_then _) =>
          match audioContext w with
          | Some ac => [Post (MsgInit (sampleRate ac) config_numChannels)]
          | None => []
          end
      | Some K_start_then => [Emit "recording" VUndefined]
      | None => []
      end
  | (r, Reject _) =>
      match on_rejected r with
      | Some K_start_catch => [Emit "blocked" VUndefined]
      | _ => []
      end
  end.

(** What the event [ev] adds to the log of world [w]. *)
Definition emitted (w : World) (ev : Event) : list Effect :=
  match ev with
  | Call_start | Call_grabMic => requested w
  | Call_stop => [Emit "inactive" VUndefined]
  | Call_reset => [Emit "inactive" VUndefined; Post MsgClear]
  | Call_getWavURL =>
      [Emit "inactive" VUndefined;
       Once "wav-delivered" (L_wav_resolve (length (heap w)));
       Post MsgExportWav]
  | Gum_fulfil _ _ | Gum_reject _ _ => []
  | AudioProcess c0 _ =>
      match state w with
      | recording => [Post (MsgRecord [c0])]
      | inactive => []
      end
  | WorkerMessage c b => [Emit c b]
  | Microtask =>
      match jobs w with
      | j :: _ => job_emits w j
      | [] => []
      end
  end.

(** The capture pipeline as the success handler of [grabMic] leaves it:
    the source node created and connected, when the event sends [init]. *)
Definition wire (w : World) (ev : Event) : World :=
  if existsb is_init (emitted w ev) then set_wired true w else w.

(** Every [init] message in the log was sent with the sample rate of the
    recorder's audio context and one channel, and the pipeline is wired. *)
Definition inits_ok (w : World) : Prop :=
  forall sr nc, In (Post (MsgInit sr nc)) (log w) ->
    wired w = true /\ nc = config_numChannels /\
    audioContext w = Some {| sampleRate := sr |}.

(** The audio context is the one [init()] made, or none when the platform
    is not supported. *)
Definition audio_ok (w : World) : Prop :=
  audioContext w =
    if to_boolean (supported (platform w))
    then Some {| sampleRate := hardware_sampleRate (platform w) |}
    else None.

(** ** The state after an event *)

(** The state after the event [ev]: the three methods that stop set it to
    [inactive], the continuation of [start] on a fulfilled grant sets it
    to [recording], and nothing else assigns it. *)
Definition next_state (w : World) (ev : Event) : RecorderState :=
  match ev with
  | Call_stop | Call_reset | Call_getWavURL => inactive
  | Microtask =>
      match jobs w with
      | (r, Fulfil _) :: _ =>
          match on_fulfilled r with
          | Some K_start_then => recording
          | _ => state w
          end
      | _ => state w
      end
  | _ => state w
  end.

(** ** Counting calls and encoder commands *)

Definition is_call_reset (ev : Event) : bool :=
  match ev with Call_reset => true | _ => false end.

Definition is_call_getWavURL (ev : Event) : bool :=
  match ev with Call_getWavURL => true | _ => false end.

Definition is_clear (m : EncoderMessage) : bool :=
  match m with MsgClear => true | _ => false end.

Definition is_export (m : EncoderMessage) : bool :=
  match m with MsgExportWav => true | _ => false end.

(** How many of the events [evs], or of the messages sent, satisfy [f]. *)
Definition number {X : Type} (f : X -> bool) (l : list X) : nat :=
  length (List.filter f l).

(** The frames [fs], each with its first channel and the others, delivered
    one after the other. *)
Definition frame_events (fs : list (Float32Array * list Float32Array)) : list Event :=
  List.map (fun f => AudioProcess (fst f) (snd f)) fs.

(** The [record] messages for the frames [fs]. *)
Definition record_messages (fs : list (Float32Array * list Float32Array)) : list Effect :=
  List.map (fun f => Post (MsgRecord [fst f])) fs.

(** The fields of the recorder itself, without the host's promises, the
    listeners and the log. *)
Definition recorder_fields (w : World) :=
  (platform w, audioContext w, state w, userMedia w, stream w, wired w).

(** [f] observes nothing that delivering a signal changes. *)
Definition signal_blind {X : Type} (f : World -> X) : Prop :=
  host_blind f /\
  (forall l w, f (set_listeners l w) = f w) /\
  (forall l w, f (set_log l w) = f w).

(** A browser without [window.AudioContext] but with [getUserMedia]. *)
Definition mute_browser : Platform :=
  {| window_AudioContext := VUndefined;
     navigator_mediaDevices :=
       VObject [("getUserMedia", VFunction "getUserMedia")] Object_prototype;
     hardware_sampleRate := 44100 |}.

(** ** The first [start()] *)

(** The reactions that [grabMic] registers on the permission request, when
    the memoized promise is [p]: the success handler, and the failure
    handler on the promise that [then] returns. *)
Definition gum_then (p : PromiseId) : Reaction :=
  {| on_fulfilled := Some (K_gum_then p); on_rejected := None; derived := S (S p) |}.

Definition gum_catch (p : PromiseId) : Reaction :=
  {| on_fulfilled := None; on_rejected := Some (K_gum_catch p);
     derived := S (S (S p)) |}.

(** The promises that the first [start()] makes, in the order of their
    creation: the memoized grant with the continuation of [start], the
    permission request, the two promises of [grabMic]'s chain and the two
    of [start]'s chain. *)
Definition first_start_cells (p : PromiseId) : list Cell :=
  [ Pending [start_then (4 + p)]; Pending [gum_then p]; Pending [gum_catch p];
    Pending []; Pending [start_catch (4 + p)]; Pending [] ].

(** ** Counting the success handlers of [grabMic] *)

(** The reactions that call the success handler of [grabMic], which sends
    [init]: each of them is registered for one permission request and runs
    at most once. *)
Definition is_gum_then (r : Reaction) : bool :=
  match on_fulfilled r with Some (K_gum_then _) => true | _ => false end.

Definition cell_tokens (c : Cell) : nat :=
  match c with Pending rs => number is_gum_then rs | Settled _ => 0 end.

Definition heap_tokens (h : list Cell) : nat := list_sum (List.map cell_tokens h).

Definition job_tokens (js : list Job) : nat :=
  number (fun j => is_gum_then (fst j)) js.

(** The [init] messages sent, and those that may still be sent. *)
Definition tokens (w : World) : nat :=
  number is_init (log w) + heap_tokens (heap w) + job_tokens (jobs w).

(** [m] adds at most [c] to the tokens that are not paid for by a
    permission request. *)
Definition spends {A : Type} (m : M A) (c : nat) : Prop :=
  forall w,
    tokens (fst (m w)) + gum_calls (log w) <=
    tokens w + c + gum_calls (log (fst (m w))).

(** The promises that the first [grabMic()] makes: the memoized grant, the
    permission request and the two promises of the chain. *)
Definition grabMic_cells (p : PromiseId) : list Cell :=
  [ Pending []; Pending [gum_then p]; Pending [gum_catch p]; Pending [] ].


(** ** The work that is left for the microtask queue *)

Definition cell_reactions (c : Cell) : nat :=
  match c with Pending rs => length rs | Settled _ => 0 end.

(** The reactions registered with pending promises. *)
Definition heap_reactions (h : list Cell) : nat :=
  list_sum (List.map cell_reactions h).

(** The jobs that are queued, and those that may still be queued. *)
Definition backlog (w : World) : nat :=
  heap_reactions (heap w) + length (jobs w).

(** A browser whose [window.AudioContext] is [null]: it is not
    [undefined], so that [supported()] is truthy, and it cannot be
    constructed. *)
Definition null_audio_browser : Platform :=
  {| window_AudioContext := VNull;
     navigator_mediaDevices :=
       VObject [("getUserMedia", VFunction "getUserMedia")] Object_prototype;
     hardware_sampleRate := 48000 |}.

(** * Proofs *)

(** ** Rules for triples *)

Section Hoare.

Context {A : Type}.

Lemma triple_throw (e : JSError) (Q : A -> World -> Prop) (E : World -> Prop) :
  triple E (throw e) Q E.
Proof. intros w H. exact H. Qed.

Lemma triple_conseq (P P' : World -> Prop) (m : M A)
    (Q Q' : A -> World -> Prop) (E E' : World -> Prop) :
  triple P' m Q' E' ->
  (forall w, P w -> P' w) ->
  (forall a w, Q' a w -> Q a w) ->
  (forall w, E' w -> E w) ->
  triple P m Q E.
Proof.
  intros Hm HP HQ HE w Hw. specialize (Hm w (HP w Hw)).
  destruct (m w) as [w' [a|e]]; auto.
Qed.

Lemma triple_try_catch (P : World -> Prop) (m : M A) (h : JSError -> M A)
    (Q : A -> World -> Prop) (E' E : World -> Prop) :
  triple P m Q E' ->
  (forall e, triple E' (h e) Q E) ->
  triple P (try_catch m h) Q E.
Proof.
  intros Hm Hh w Hw. unfold try_catch. specialize (Hm w Hw).
  destruct (m w) as [w' [a|e]]; [exact Hm | exact (Hh e w' Hm)].
Qed.

End Hoare.

Lemma triple_bind {A B} (P : World -> Prop) (m : M A) (k : A -> M B)
    (Q' : A -> World -> Prop) (Q : B -> World -> Prop) (E : World -> Prop) :
  triple P m Q' E ->
  (forall a, triple (Q' a) (k a) Q E) ->
  triple P (bind m k) Q E.
Proof.
  intros Hm Hk w Hw. unfold bind. specialize (Hm w Hw).
  destruct (m w) as [w' [a|e]]; [exact (Hk a w' Hm) | exact Hm].
Qed.

(** What a triple says about the world a method leaves, whichever way it
    ends. *)
Lemma triple_fst {A} (P : World -> Prop) (m : M A) (Q : World -> Prop) w :
  triple P m (fun _ => Q) Q -> P w -> Q (fst (m w)).
Proof.
  intros Hm Hw. specialize (Hm w Hw). destruct (m w) as [w' [a|e]]; exact Hm.
Qed.

(** ** How the invariant follows the components of the world *)

Lemma has_init_app lg e : has_init (lg ++ [e]) = has_init lg || is_init e.
Proof. unfold has_init. rewrite existsb_app. simpl. now rewrite orb_false_r. Qed.

Lemma init_first_app lg e :
  init_first (lg ++ [e]) = init_first lg && (has_init lg || negb (is_record e)).
Proof.
  induction lg as [|x lg IH]; simpl.
  - destruct e as [| [] | |]; reflexivity.
  - destruct (is_init x); simpl; [reflexivity|].
    rewrite IH. now rewrite andb_assoc.
Qed.

Lemma ok_id_mono P h h' x : ok_id P h x -> length h <= length h' -> ok_id P h' x.
Proof. intros [H1 H2] Hl. split; [lia | exact H2]. Qed.

Lemma granted_stable P h h' : stable h h' -> granted P h -> granted P h'.
Proof. intros Hs (p & v & HP & Hp). exists p, v. split; [exact HP | now apply Hs]. Qed.

Lemma stable_refl h : stable h h.
Proof. intros p o H. exact H. Qed.

Lemma stable_trans h1 h2 h3 : stable h1 h2 -> stable h2 h3 -> stable h1 h3.
Proof. intros H12 H23 p o H. apply H23, H12, H. Qed.

Lemma stable_alloc h c : stable h (h ++ [c]).
Proof. intros p o H. rewrite lookup_app_l; [exact H | eapply lookup_lt_Some, H]. Qed.

Lemma stable_insert_pending h p rs c :
  h !! p = Some (Pending rs) -> stable h (<[p := c]> h).
Proof.
  intros Hp q o Hq. rewrite list_lookup_insert_ne; [exact Hq|].
  intros ->. congruence.
Qed.

Lemma gum_calls_app lg e :
  gum_calls (lg ++ [e]) = gum_calls lg + (if is_request e then 1 else 0).
Proof.
  unfold gum_calls. rewrite List.filter_app, length_app. simpl.
  destruct (is_request e); reflexivity.
Qed.

Lemma InvC_log P s h j l lg e :
  InvC P s h j l lg ->
  (is_record e = true -> has_init lg = true) ->
  (forall g, e = GetUserMedia g ->
     ok_id P h g /\ gum_calls lg = 0 /\ P <> None) ->
  InvC P s h j l (lg ++ [e]).
Proof.
  intros [] Hr Hg. constructor; auto.
  - intros g Hin. apply in_app_or in Hin as [Hin | [-> | []]]; auto.
    now apply Hg.
  - intros G. rewrite has_init_app, (inv_init0 G). reflexivity.
  - rewrite init_first_app, inv_rec0. simpl.
    destruct (is_record e); [rewrite Hr by reflexivity|]; simpl; auto using orb_true_r.
  - rewrite gum_calls_app. destruct e as [| | |g]; simpl; rewrite ?Nat.add_0_r; auto.
    destruct (Hg g eq_refl) as (_ & -> & HP). split; [lia | intros; contradiction].
Qed.

Lemma InvC_state P s s' h j l lg :
  InvC P s h j l lg -> (s' = recording -> granted P h) -> InvC P s' h j l lg.
Proof. intros [] Hs. constructor; auto. Qed.

Lemma InvC_listeners P s h j l l' lg :
  InvC P s h j l lg ->
  (forall name k, In (name, k) l' ->
     In (name, k) l \/ (ok_id P h (target k) /\ name = "wav-delivered")) ->
  InvC P s h j l' lg.
Proof.
  intros [] Hl. constructor; auto.
  intros name k Hin. destruct (Hl _ _ Hin) as [H|H]; auto.
Qed.

Lemma InvC_jobs_sub P s h j j' l lg :
  InvC P s h j l lg -> (forall x, In x j' -> In x j) -> InvC P s h j' l lg.
Proof. intros [] Hj. constructor; auto. Qed.

Lemma lookup_snoc_pending (h : list Cell) q rs :
  (h ++ [Pending []]) !! q = Some (Pending rs) ->
  h !! q = Some (Pending rs) \/ rs = [].
Proof.
  intros H. destruct (decide (q < length h)) as [Hlt|Hge].
  - rewrite lookup_app_l in H by exact Hlt. now left.
  - rewrite lookup_app_r in H by lia.
    destruct (q - length h) as [|n]; simpl in H; [right; congruence | discriminate].
Qed.

Lemma granted_alloc_inv P (h : list Cell) c :
  (forall p, P = Some p -> p < length h) ->
  granted P (h ++ [c]) -> granted P h.
Proof.
  intros HP (p & v & -> & Hp). exists p, v. split; [reflexivity|].
  rewrite lookup_app_l in Hp; [exact Hp | now apply HP].
Qed.

Lemma InvC_alloc P s h j l lg :
  InvC P s h j l lg -> InvC P s (h ++ [Pending []]) j l lg.
Proof.
  intros [].
  assert (Hlen : length h <= length (h ++ [Pending []])) by (rewrite length_app; lia).
  assert (Hst : stable h (h ++ [Pending []])) by apply stable_alloc.
  constructor.
  - intros p HP. specialize (inv_P0 p HP). lia.
  - intros q rs r Hq Hin. apply lookup_snoc_pending in Hq as [Hq | ->]; [|destruct Hin].
    destruct (inv_heap0 q rs r Hq Hin) as [H1 H2]. eauto using ok_id_mono.
  - intros r o Hin. destruct (inv_jobs0 r o Hin) as [H1 H2].
    split; [eauto using ok_id_mono|]. intros Hw v Hv. eauto using granted_stable.
  - intros name k Hin. destruct (inv_lis0 name k Hin). eauto using ok_id_mono.
  - intros g Hin. eauto using ok_id_mono.
  - intros Hs. eauto using granted_stable.
  - intros G. apply inv_init0. eapply granted_alloc_inv; eauto.
  - exact inv_rec0.
  - exact inv_once0.
Qed.

Lemma ok_id_fresh (h : list Cell) c x :
  ok_id None h x -> ok_id (Some (length h)) (h ++ [c]) x.
Proof.
  intros [Hlt _]. split; [rewrite length_app; lia|].
  intros [= E]. lia.
Qed.

Lemma not_granted_None h : ~ granted None h.
Proof. intros (p & v & HP & _). discriminate. Qed.

Lemma InvC_alloc_grant s h j l lg :
  InvC None s h j l lg ->
  InvC (Some (length h)) s (h ++ [Pending []]) j l lg.
Proof.
  intros [].
  constructor.
  - intros p [= <-]. rewrite length_app. simpl. lia.
  - intros q rs r Hq Hin. apply lookup_snoc_pending in Hq as [Hq | ->]; [|destruct Hin].
    destruct (inv_heap0 q rs r Hq Hin) as [H1 H2]. split; [now apply ok_id_fresh|].
    intros Hw. specialize (H2 Hw). discriminate.
  - intros r o Hin. destruct (inv_jobs0 r o Hin) as [H1 H2].
    split; [now apply ok_id_fresh|]. intros Hw v Hv.
    destruct (not_granted_None h (H2 Hw v Hv)).
  - intros name k Hin. destruct (inv_lis0 name k Hin). split; [now apply ok_id_fresh | assumption].
  - intros g Hin. now apply ok_id_fresh, inv_gum0.
  - intros Hs. destruct (not_granted_None h (inv_state0 Hs)).
  - intros (p & v & [= <-] & Hp).
    rewrite lookup_app_r in Hp by lia. rewrite Nat.sub_diag in Hp. discriminate.
  - exact inv_rec0.
  - destruct inv_once0 as [H1 H2]. split; [exact H1 | discriminate].
Qed.

Lemma lookup_insert_pending (h : list Cell) p c q rs :
  <[p := c]> h !! q = Some (Pending rs) ->
  (q <> p /\ h !! q = Some (Pending rs)) \/ (q = p /\ c = Pending rs).
Proof.
  intros H. destruct (decide (q = p)) as [->|Hne].
  - right. split; [reflexivity|].
    assert (Hlt : p < length h).
    { apply lookup_lt_Some in H. now rewrite length_insert in H. }
    rewrite list_lookup_insert_eq in H by exact Hlt. congruence.
  - left. split; [exact Hne|]. rewrite list_lookup_insert_ne in H by congruence. exact H.
Qed.

Lemma granted_insert_inv P (h : list Cell) x c :
  granted P (<[x := c]> h) ->
  granted P h \/ (P = Some x /\ exists v, c = Settled (Fulfil v)).
Proof.
  intros (p & v & -> & Hp). destruct (decide (p = x)) as [->|Hne].
  - right. split; [reflexivity|]. exists v.
    assert (Hlt : x < length h).
    { apply lookup_lt_Some in Hp. now rewrite length_insert in Hp. }
    rewrite list_lookup_insert_eq in Hp by exact Hlt. congruence.
  - left. exists p, v. split; [reflexivity|].
    rewrite list_lookup_insert_ne in Hp by congruence. exact Hp.
Qed.

(** A reaction added to a pending promise. *)
Lemma InvC_subscribe_pending P s h j l lg p rs r :
  InvC P s h j l lg ->
  h !! p = Some (Pending rs) ->
  ok_id P h (derived r) ->
  (waits_start r -> P = Some p) ->
  InvC P s (<[p := Pending (rs ++ [r])]> h) j l lg.
Proof.
  intros [] Hp Hok Hw.
  set (h' := <[p := Pending (rs ++ [r])]> h).
  assert (Hlen : length h <= length h') by (unfold h'; rewrite length_insert; lia).
  assert (Hst : stable h h') by (eapply stable_insert_pending; eauto).
  constructor.
  - intros x HP. specialize (inv_P0 x HP). lia.
  - intros q rs' r' Hq Hin. apply lookup_insert_pending in Hq as [[Hne Hq] | [-> [= <-]]].
    + destruct (inv_heap0 q rs' r' Hq Hin). eauto using ok_id_mono.
    + apply in_app_or in Hin as [Hin | [<- | []]].
      * destruct (inv_heap0 p rs r' Hp Hin). eauto using ok_id_mono.
      * eauto using ok_id_mono.
  - intros r' o Hin. destruct (inv_jobs0 r' o Hin) as [H1 H2].
    split; [eauto using ok_id_mono|]. intros Hw' v Hv. eauto using granted_stable.
  - intros name k Hin. destruct (inv_lis0 name k Hin). eauto using ok_id_mono.
  - intros g Hin. eauto using ok_id_mono.
  - intros Hs. eauto using granted_stable.
  - intros G. apply granted_insert_inv in G as [G | [_ [v [=]]]]. auto.
  - exact inv_rec0.
  - exact inv_once0.
Qed.

(** A reaction to a settled promise becomes a job at once. *)
Lemma InvC_subscribe_settled P s h j l lg p o r :
  InvC P s h j l lg ->
  h !! p = Some (Settled o) ->
  ok_id P h (derived r) ->
  (waits_start r -> P = Some p) ->
  InvC P s h (j ++ [(r, o)]) l lg.
Proof.
  intros [] Hp Hok Hw. constructor; auto.
  intros r' o' Hin. apply in_app_or in Hin as [Hin | [[= <- <-] | []]]; auto.
  split; [exact Hok|]. intros Hw' v ->. exists p, v. auto.
Qed.

(** Settling a pending promise.  Fulfilling the grant needs the [init]
    message to have been sent. *)
Lemma InvC_settle P s h j l lg p rs o :
  InvC P s h j l lg ->
  h !! p = Some (Pending rs) ->
  (forall v, o = Fulfil v -> P = Some p -> has_init lg = true) ->
  InvC P s (<[p := Settled o]> h) (j ++ List.map (fun r => (r, o)) rs) l lg.
Proof.
  intros [] Hp Hi.
  set (h' := <[p := Settled o]> h).
  assert (Hlen : length h <= length h') by (unfold h'; rewrite length_insert; lia).
  assert (Hst : stable h h') by (eapply stable_insert_pending; eauto).
  assert (Hlt : p < length h) by (eapply lookup_lt_Some; eauto).
  constructor.
  - intros x HP. specialize (inv_P0 x HP). lia.
  - intros q rs' r' Hq Hin. apply lookup_insert_pending in Hq as [[Hne Hq] | [_ [=]]].
    destruct (inv_heap0 q rs' r' Hq Hin). eauto using ok_id_mono.
  - intros r' o' Hin. apply in_app_or in Hin as [Hin | Hin].
    + destruct (inv_jobs0 r' o' Hin) as [H1 H2].
      split; [eauto using ok_id_mono|]. intros Hw' v Hv. eauto using granted_stable.
    + apply in_map_iff in Hin as (r0 & [= <- <-] & Hin).
      destruct (inv_heap0 p rs r0 Hp Hin) as [H1 H2].
      split; [eauto using ok_id_mono|]. intros Hw' v ->.
      exists p, v. split; [auto|]. unfold h'. now rewrite list_lookup_insert_eq.
  - intros name k Hin. destruct (inv_lis0 name k Hin). eauto using ok_id_mono.
  - intros g Hin. eauto using ok_id_mono.
  - intros Hs. eauto using granted_stable.
  - intros G. apply granted_insert_inv in G as [G | [HP [v [= ->]]]]; eauto.
  - exact inv_rec0.
  - exact inv_once0.
Qed.

(** ** The primitive operations keep the invariant *)

Lemma J_intro um P n c h0 w :
  userMedia w = um ->
  InvC P (state w) (heap w) (jobs w) (listeners w) (log w) ->
  n <= length (heap w) ->
  gum_calls (log w) = c ->
  stable h0 (heap w) ->
  J um P n c h0 w.
Proof. intros H1 H2 H3 H4 H5. split; [split|]; auto. Qed.

Lemma J_weaken um P n m c h0 w : J um P n c h0 w -> m <= n -> J um P m c h0 w.
Proof. intros (H & Hn & Hc) Hm. split; [exact H | split; [lia | exact Hc]]. Qed.

Lemma triple_pure {A} (phi : Prop) (P : World -> Prop) (m : M A) Q E :
  (phi -> triple P m Q E) -> triple (fun w => P w /\ phi) m Q E.
Proof. intros H w [Hw Hphi]. exact (H Hphi w Hw). Qed.

Lemma triple_exists {A X} (P : X -> World -> Prop) (m : M A) Q E :
  (forall x, triple (P x) m Q E) -> triple (fun w => exists x, P x w) m Q E.
Proof. intros H w [x Hw]. exact (H x w Hw). Qed.

Lemma triple_weaken_pre {A} (P P' : World -> Prop) (m : M A) Q E :
  triple P' m Q E -> (forall w, P w -> P' w) -> triple P m Q E.
Proof. intros H HP. eapply triple_conseq; eauto. Qed.

Lemma triple_strengthen_post {A} (P : World -> Prop) (m : M A)
    (Q Q' : A -> World -> Prop) E :
  triple P m Q' E -> (forall a w, Q' a w -> Q a w) -> triple P m Q E.
Proof. intros H HQ. eapply triple_conseq; eauto. Qed.

Lemma triple_ret {A} (a : A) (P : World -> Prop) (Q : A -> World -> Prop) E :
  (forall w, P w -> Q a w) -> triple P (ret a) Q E.
Proof. intros H w Hw. exact (H w Hw). Qed.

Lemma triple_bind_gets {A B} (f : World -> A) (k : A -> M B)
    (P : World -> Prop) Q E :
  (forall a, triple (fun w => P w /\ f w = a) (k a) Q E) ->
  triple P (bind (gets f) k) Q E.
Proof. intros H w Hw. unfold bind, gets. apply (H (f w) w). auto. Qed.

Lemma triple_bind_modify {B} (f : World -> World) (k : unit -> M B)
    (P P' : World -> Prop) Q E :
  triple P' (k tt) Q E ->
  (forall w, P w -> P' (f w)) ->
  triple P (bind (modify f) k) Q E.
Proof. intros H HP w Hw. unfold bind, modify. apply (H (f w)). auto. Qed.

Section Primitives.

Variables (um P : option PromiseId) (n c : nat) (h0 : list Cell).
Variable E : World -> Prop.

Lemma alloc_J :
  triple (J um P n c h0) alloc
    (fun d w => J um P (S d) c h0 w /\ n <= d /\ P <> Some d) E.
Proof.
  intros w ([Hum HI] & Hn & Hc & Hs). simpl. split; [apply J_intro; simpl | split].
  - exact Hum.
  - now apply InvC_alloc.
  - rewrite length_app. simpl. lia.
  - exact Hc.
  - eapply stable_trans; [exact Hs | apply stable_alloc].
  - exact Hn.
  - intros HP. apply (inv_P _ _ _ _ _ _ HI) in HP. lia.
Qed.

Lemma subscribe_J p r :
  derived r < n -> P <> Some (derived r) ->
  (waits_start r -> P = Some p) ->
  triple (J um P n c h0) (subscribe p r) (fun _ => J um P n c h0) E.
Proof.
  intros Hd HP Hw w ([Hum HI] & Hn & Hc & Hs). unfold subscribe.
  assert (Hok : ok_id P (heap w) (derived r)) by (split; [lia | exact HP]).
  destruct (heap w !! p) as [[rs|o]|] eqn:Hp; simpl.
  - apply J_intro; simpl; auto.
    + eapply InvC_subscribe_pending; eauto.
    + rewrite length_insert. exact Hn.
    + eapply stable_trans; [exact Hs | eapply stable_insert_pending; eauto].
  - apply J_intro; simpl; auto.
    eapply InvC_subscribe_settled; eauto.
  - apply J_intro; auto.
Qed.

Lemma settle_J p o :
  triple (fun w => J um P n c h0 w /\
            (forall v, o = Fulfil v -> P = Some p -> has_init (log w) = true))
    (settle p o) (fun _ => J um P n c h0) E.
Proof.
  intros w [([Hum HI] & Hn & Hc & Hs) Hi]. unfold settle.
  destruct (heap w !! p) as [[rs|o']|] eqn:Hp; simpl.
  - apply J_intro; simpl; auto.
    + eapply InvC_settle; eauto.
    + rewrite length_insert. exact Hn.
    + eapply stable_trans; [exact Hs | eapply stable_insert_pending; eauto].
  - apply J_intro; auto.
  - apply J_intro; auto.
Qed.

Lemma reject_J p e :
  triple (J um P n c h0) (reject p e) (fun _ => J um P n c h0) E.
Proof.
  eapply triple_conseq; [apply settle_J | | auto | auto].
  intros w H. split; [exact H | discriminate].
Qed.

Lemma resolve_J p v :
  triple (fun w => J um P n c h0 w /\ (P = Some p -> has_init (log w) = true))
    (resolve p v) (fun _ => J um P n c h0) E.
Proof.
  eapply triple_conseq; [apply settle_J | | auto | auto].
  intros w [H Hi]. split; [exact H | auto].
Qed.

Lemma resolve_other_J p v :
  P <> Some p ->
  triple (J um P n c h0) (resolve p v) (fun _ => J um P n c h0) E.
Proof.
  intros HP. eapply triple_conseq; [apply resolve_J | | auto | auto].
  intros w H. split; [exact H | congruence].
Qed.

Lemma effect_J e :
  is_request e = false ->
  triple (fun w => J um P n c h0 w /\
            (is_record e = true -> has_init (log w) = true))
    (effect e)
    (fun _ w => J um P n c h0 w /\
            (is_init e = true -> has_init (log w) = true)) E.
Proof.
  intros He w [([Hum HI] & Hn & Hc & Hs) Hr]. simpl.
  split; [apply J_intro; simpl; auto|].
  - apply InvC_log; auto. intros g ->. discriminate.
  - rewrite gum_calls_app, He. lia.
  - intros Hi. rewrite has_init_app, Hi. apply orb_true_r.
Qed.

Lemma postMessage_J m :
  (forall b, m <> MsgRecord b) ->
  triple (J um P n c h0) (postMessage m) (fun _ => J um P n c h0) E.
Proof.
  intros Hm. eapply triple_conseq; [apply (effect_J (Post m)) | | | auto].
  - reflexivity.
  - intros w H. split; [exact H|]. destruct m; simpl; try discriminate.
    now destruct (Hm buffer).
  - intros ? w [H _]. exact H.
Qed.

Lemma set_state_J s :
  triple (fun w => J um P n c h0 w /\ (s = recording -> granted P (heap w)))
    (modify (set_state s)) (fun _ => J um P n c h0) E.
Proof.
  intros w [([Hum HI] & Hn & Hc & Hs) Hg]. simpl. apply J_intro; simpl; auto.
  eapply InvC_state; eauto.
Qed.

Lemma set_userMedia_J x :
  triple (J um P n c h0) (modify (set_userMedia x)) (fun _ => J x P n c h0) E.
Proof. intros w ([Hum HI] & Hn & Hc & Hs). simpl. apply J_intro; auto. Qed.

End Primitives.

(** The permission request itself: the first one, made for a grant that
    exists. *)
Lemma request_J um P n h0 g E :
  g < n -> P <> Some g -> P <> None ->
  triple (J um P n 0 h0) (effect (GetUserMedia g)) (fun _ => J um P n 1 h0) E.
Proof.
  intros Hg HP HN w ([Hum HI] & Hn & Hc & Hs). simpl. apply J_intro; simpl; auto.
  - apply InvC_log; auto; [discriminate|].
    intros g' [= <-]. repeat split; auto. lia.
  - rewrite gum_calls_app, Hc. reflexivity.
Qed.

Lemma alloc_grant_J um n c h0 E :
  triple (J um None n c h0) alloc
    (fun p w => J um (Some p) (S p) c h0 w /\ (n <= p /\ c = 0)) E.
Proof.
  intros w ([Hum HI] & Hn & Hc & Hs). simpl. split; [apply J_intro; simpl|].
  - exact Hum.
  - now apply InvC_alloc_grant.
  - rewrite length_app. simpl. lia.
  - exact Hc.
  - eapply stable_trans; [exact Hs | apply stable_alloc].
  - split; [exact Hn|]. rewrite <- Hc. now apply (inv_once _ _ _ _ _ _ HI).
Qed.

(** ** The methods keep the invariant *)

Section Methods.

Variables (um P : option PromiseId) (c : nat) (h0 : list Cell).

Lemma promise_then_J n p k E :
  (k = K_start_then -> P = Some p) ->
  triple (J um P n c h0) (promise_then p k) (fun _ => J um P n c h0) E.
Proof.
  intros Hk. unfold promise_then.
  eapply triple_bind; [apply alloc_J | intros d].
  apply triple_pure. intros [Hn Hd].
  eapply triple_bind.
  - apply (subscribe_J um P (S d)); simpl; [lia | exact Hd |].
    unfold waits_start. simpl. intros [= Hk']. now apply Hk.
  - intros ?. apply triple_ret.
    intros w H. eapply J_weaken; [exact H | lia].
Qed.

Lemma promise_catch_J n p k E :
  triple (J um P n c h0) (promise_catch p k) (fun _ => J um P n c h0) E.
Proof.
  unfold promise_catch.
  eapply triple_bind; [apply alloc_J | intros d].
  apply triple_pure. intros [Hn Hd].
  eapply triple_bind.
  - apply (subscribe_J um P (S d)); simpl; [lia | exact Hd | discriminate].
  - intros ?. apply triple_ret.
    intros w H. eapply J_weaken; [exact H | lia].
Qed.

Lemma createObjectURL_J n data :
  triple (J um P n c h0) (createObjectURL data)
    (fun _ => J um P n c h0) (J um P n c h0).
Proof.
  unfold createObjectURL. destruct data; try apply triple_throw.
  intros w H. exact H.
Qed.

Lemma invoke_J n k data :
  target k < n -> P <> Some (target k) ->
  triple (J um P n c h0) (invoke k data)
    (fun _ => J um P n c h0) (J um P n c h0).
Proof.
  intros Hk HP. destruct k as [p]. simpl in *.
  eapply triple_bind; [apply createObjectURL_J | intros url].
  now apply resolve_other_J.
Qed.

Lemma fire_J n due data :
  (forall k, In k due -> target k < n /\ P <> Some (target k)) ->
  triple (J um P n c h0) (fire due data)
    (fun _ => J um P n c h0) (J um P n c h0).
Proof.
  induction due as [|k due IH]; intros Hdue.
  - intros w H. exact H.
  - change (fire (k :: due) data) with (invoke k data ;; fire due data).
    eapply triple_bind.
    + apply invoke_J; apply Hdue; now left.
    + intros ?. apply IH. intros k' Hin. apply Hdue. now right.
Qed.

Lemma once_J n name k :
  target k < n -> P <> Some (target k) -> name = "wav-delivered" ->
  triple (J um P n c h0) (once name k)
    (fun _ => J um P n c h0) (J um P n c h0).
Proof.
  intros Hk HP Hname w ([Hum HI] & Hn & Hc & Hs). simpl.
  apply J_intro; simpl; auto.
  - apply InvC_log; [| discriminate | discriminate].
    eapply InvC_listeners; [exact HI|].
    intros name' k' Hin.
    apply in_app_or in Hin as [Hin | [[= <- <-] | []]]; [now left|].
    right. split; [split; [lia | exact HP] | exact Hname].
  - rewrite gum_calls_app. simpl. lia.
Qed.

Lemma trigger_J n name data :
  triple (J um P n c h0) (trigger name data)
    (fun _ => J um P n c h0) (J um P n c h0).
Proof.
  intros w ([Hum HI] & Hn & Hc & Hs).
  unfold trigger, bind, effect, gets, modify. simpl.
  match goal with |- context [fire ?d data ?x] => set (due := d); set (w1 := x) end.
  assert (H1 : J um P (length (heap w)) c h0 w1).
  { apply J_intro; simpl; auto.
    - apply InvC_log; [| discriminate | discriminate].
      eapply InvC_listeners; [exact HI|].
      intros name' k' Hin. apply filter_In in Hin as [Hin _]. now left.
    - rewrite gum_calls_app. simpl. lia. }
  assert (Hdue : forall k, In k due ->
            target k < length (heap w) /\ P <> Some (target k)).
  { intros k Hin. apply in_map_iff in Hin as ([name' k'] & <- & Hin).
    apply filter_In in Hin as [Hin _].
    destruct (inv_lis _ _ _ _ _ _ HI name' k' Hin) as [Hok _]. exact Hok. }
  pose proof (fire_J _ due data Hdue w1 H1) as Hf.
  destruct (fire due data w1) as [w2 [[]|e]]; eapply J_weaken; eauto.
Qed.

Lemma _setState_J n s :
  triple (fun w => J um P n c h0 w /\ (s = recording -> granted P (heap w)))
    (_setState s) (fun _ => J um P n c h0) (J um P n c h0).
Proof.
  unfold _setState.
  eapply triple_bind; [apply set_state_J | intros ?].
  apply triple_bind_gets. intros s'.
  eapply triple_weaken_pre; [apply trigger_J | tauto].
Qed.

Lemma stop_J n :
  triple (J um P n c h0) stop (fun _ => J um P n c h0) (J um P n c h0).
Proof.
  eapply triple_weaken_pre; [apply _setState_J|].
  intros w H. split; [exact H | discriminate].
Qed.

Lemma reset_J n :
  triple (J um P n c h0) reset (fun _ => J um P n c h0) (J um P n c h0).
Proof.
  unfold reset. eapply triple_bind; [apply stop_J | intros ?].
  apply postMessage_J. discriminate.
Qed.

Lemma onmessage_J n cmd b :
  triple (J um P n c h0) (onmessage cmd b)
    (fun _ => J um P n c h0) (J um P n c h0).
Proof. apply trigger_J. Qed.

Lemma onaudioprocess_J n c0 cs :
  triple (J um P n c h0) (onaudioprocess c0 cs)
    (fun _ => J um P n c h0) (J um P n c h0).
Proof.
  unfold onaudioprocess. apply triple_bind_gets. intros [|].
  - apply triple_ret. tauto.
  - eapply triple_conseq;
      [apply (effect_J um P n c h0 (J um P n c h0)) | | | auto].
    + reflexivity.
    + intros w [H Hs]. split; [exact H|]. intros _.
      destruct H as [[_ HI] _].
      apply (inv_init _ _ _ _ _ _ HI), (inv_state _ _ _ _ _ _ HI), Hs.
    + intros ? w [H _]. exact H.
Qed.

Lemma getWavURL_J n :
  triple (J um P n c h0) getWavURL (fun _ => J um P n c h0) (J um P n c h0).
Proof.
  unfold getWavURL. eapply triple_bind; [apply stop_J | intros ?].
  eapply triple_bind with (Q' := fun _ => J um P n c h0).
  - unfold new_Promise.
    eapply triple_bind; [apply alloc_J | intros p].
    apply triple_pure. intros [Hn Hp].
    eapply triple_bind with (Q' := fun _ => J um P n c h0).
    + eapply triple_try_catch with (E' := J um P n c h0).
      * eapply triple_conseq; [apply (once_J (S p)) | | |]; simpl; auto.
        -- intros ? w H. eapply J_weaken; [exact H | lia].
        -- intros w H. eapply J_weaken; [exact H | lia].
      * intros e. apply reject_J.
    + intros ?. apply triple_ret. auto.
  - intros ?. eapply triple_bind; [apply postMessage_J; discriminate | intros ?].
    apply triple_ret. auto.
Qed.

Lemma call_fulfilled_J n k v :
  triple (fun w => J um P n c h0 w /\ (k = K_start_then -> granted P (heap w)))
    (call_fulfilled k v) (fun _ => J um P n c h0) (J um P n c h0).
Proof.
  destruct k as [p|]; simpl.
  - eapply triple_bind_modify with (P' := J um P n c h0);
      [| intros w [H _]; exact H].
    apply triple_bind_gets. intros [ac|].
    + eapply triple_bind_modify with (P' := J um P n c h0);
        [| intros w [H _]; exact H].
      eapply triple_bind.
      * eapply triple_weaken_pre;
          [apply (effect_J um P n c h0 (J um P n c h0)); reflexivity|].
        intros w H. split; [exact H | discriminate].
      * intros ?. simpl. eapply triple_weaken_pre; [apply resolve_J|].
        intros w [H Hi]. split; [exact H | intros _; now apply Hi].
    + eapply triple_weaken_pre; [apply triple_throw | tauto].
  - eapply triple_weaken_pre; [apply _setState_J|].
    intros w [H G]. split; [exact H | intros _; now apply G].
Qed.

Lemma call_rejected_J n k e :
  triple (J um P n c h0) (call_rejected k e)
    (fun _ => J um P n c h0) (J um P n c h0).
Proof.
  destruct k as [p|]; simpl.
  - apply reject_J.
  - apply trigger_J.
Qed.

Lemma run_job_J n r o :
  P <> Some (derived r) ->
  triple (fun w => J um P n c h0 w /\
            (waits_start r -> forall v, o = Fulfil v -> granted P (heap w)))
    (run_job (r, o)) (fun _ => J um P n c h0) (J um P n c h0).
Proof.
  intros Hd. unfold run_job, waits_start. destruct o as [v|e].
  - destruct (on_fulfilled r) as [k|] eqn:Hk.
    + eapply triple_try_catch with (E' := J um P n c h0).
      * eapply triple_bind.
        -- eapply triple_weaken_pre; [apply call_fulfilled_J|].
           intros w [H G]. split; [exact H|]. intros ->. eapply G; reflexivity.
        -- intros ?. now apply resolve_other_J.
      * intros e. apply reject_J.
    + eapply triple_weaken_pre; [now apply resolve_other_J | tauto].
  - destruct (on_rejected r) as [k|] eqn:Hk.
    + eapply triple_try_catch with (E' := J um P n c h0).
      * eapply triple_bind; [| intros ?; now apply resolve_other_J].
        eapply triple_weaken_pre; [apply call_rejected_J | tauto].
      * intros e'. apply reject_J.
    + eapply triple_weaken_pre; [apply reject_J | tauto].
Qed.

End Methods.

(** ** The grant *)

Lemma getUserMedia_J um P n h0 :
  P <> None ->
  triple (J um P n 0 h0) getUserMedia (fun _ => J um P n 1 h0) (J um P n 0 h0).
Proof.
  intros HN.
  assert (Hcall : triple (J um P n 0 h0)
                    (g <- alloc ;; effect (GetUserMedia g) ;; ret g)
                    (fun _ => J um P n 1 h0) (J um P n 0 h0)).
  { eapply triple_bind; [apply alloc_J | intros g].
    apply triple_pure. intros [Hn Hg].
    eapply triple_bind.
    - apply (request_J um P (S g)); [lia | exact Hg | exact HN].
    - intros ?. apply triple_ret.
      intros w H. eapply J_weaken; [exact H | lia]. }
  unfold getUserMedia.
  apply triple_bind_gets. intros p.
  eapply triple_weaken_pre with (P' := J um P n 0 h0); [| tauto].
  destruct (navigator_mediaDevices p) eqn:Hmd;
    try apply triple_throw;
    destruct (get_prop _ "getUserMedia"); try apply triple_throw; exact Hcall.
Qed.

(** [grabMic] returns the memoized promise; it issues the request only when
    nothing was memoized, and then no request had been issued before. *)
Lemma grabMic_J um n c h0 E :
  triple (J um um n c h0) grabMic
    (fun p w => exists c', J (Some p) (Some p) n c' h0 w /\
                  ((um = None /\ c = 0) \/ (um = Some p /\ c' = c))) E.
Proof.
  unfold grabMic. apply triple_bind_gets. intros um'.
  eapply triple_weaken_pre with (P' := fun w => J um um n c h0 w /\ um = um').
  2:{ intros w [H Hu]. split; [exact H|]. destruct H as [[Hum _] _]. congruence. }
  apply triple_pure. intros <-. destruct um as [p|].
  - apply triple_ret. eauto.
  - eapply triple_bind with
      (Q' := fun p w => (exists c', J None (Some p) (S p) c' h0 w) /\ (n <= p /\ c = 0)).
    + unfold new_Promise.
      eapply triple_bind; [apply alloc_grant_J | intros p].
      apply triple_pure. intros [Hn ->].
      eapply triple_bind with (Q' := fun _ w => exists c', J None (Some p) (S p) c' h0 w).
      * eapply triple_try_catch with (E' := J None (Some p) (S p) 0 h0).
        -- eapply triple_bind; [apply getUserMedia_J; discriminate | intros g].
           eapply triple_bind; [apply promise_then_J; discriminate | intros g1].
           eapply triple_bind; [apply promise_catch_J | intros ?].
           apply triple_ret. intros w H. exists 1. exact H.
        -- intros e. eapply triple_strengthen_post; [apply reject_J|].
           intros ? w H. exists 0. exact H.
      * intros ?. apply triple_ret. auto.
    + intros p. apply triple_pure. intros [Hn ->].
      apply triple_exists. intros c'.
      eapply triple_bind; [apply set_userMedia_J | intros ?].
      apply triple_ret. intros w H. exists c'.
      split; [eapply J_weaken; [exact H | lia] | auto].
Qed.

Lemma start_J um n c h0 E :
  triple (J um um n c h0) start
    (fun _ w => exists p c', J (Some p) (Some p) n c' h0 w /\
                  ((um = None /\ c = 0) \/ (um = Some p /\ c' = c))) E.
Proof.
  unfold start. eapply triple_bind; [apply grabMic_J | intros p].
  apply triple_exists. intros c'. apply triple_pure. intros Hc.
  eapply triple_bind; [apply promise_then_J; reflexivity | intros s1].
  eapply triple_bind; [apply promise_catch_J | intros ?].
  apply triple_ret. eauto.
Qed.

(** ** Every reachable world satisfies the invariant *)

Lemma J_of_Good w :
  Good w -> J (userMedia w) (userMedia w) 0 (gum_calls (log w)) (heap w) w.
Proof.
  intros H. split; [exact H|]. split; [lia|]. split; [reflexivity | apply stable_refl].
Qed.

Lemma Good_of_J um n c h0 w : J um um n c h0 w -> Good w.
Proof. intros [[Hum HI] _]. unfold Good. rewrite Hum. split; [exact Hum | exact HI]. Qed.

Lemma unchanged_of_J w n w' :
  J (userMedia w) (userMedia w) n (gum_calls (log w)) (heap w) w' ->
  unchanged w w'.
Proof.
  intros ([Hum _] & _ & Hc & Hs). split; [|split].
  - intros p Hp. congruence.
  - exact Hs.
  - intros _. exact Hc.
Qed.

Lemma unchanged_refl w : unchanged w w.
Proof. split; [auto | split; [apply stable_refl | auto]]. Qed.

Lemma unchanged_trans w1 w2 w3 :
  unchanged w1 w2 -> unchanged w2 w3 -> unchanged w1 w3.
Proof.
  intros (A1 & B1 & C1) (A2 & B2 & C2). split; [|split].
  - auto.
  - eapply stable_trans; eauto.
  - intros H. rewrite C2, C1; auto.
    destruct (userMedia w1) as [p|] eqn:E; [|contradiction].
    rewrite (A1 p eq_refl). discriminate.
Qed.

Lemma Good_blank p : Good (blank p).
Proof.
  split; [reflexivity|]. simpl. constructor; simpl.
  - discriminate.
  - intros q rs r Hq. rewrite lookup_nil in Hq. discriminate.
  - intros r o [].
  - intros name k [].
  - intros g [].
  - discriminate.
  - intros G. destruct (not_granted_None _ G).
  - reflexivity.
  - split; [unfold gum_calls; simpl; lia | reflexivity].
Qed.

Lemma Good_constructor p w : constructor p = Some w -> Good w.
Proof.
  unfold constructor.
  cbv [init bind gets new_AudioContext ret throw modify]. cbn.
  destruct (negb (to_boolean (supported p))).
  - intros [= <-]. apply Good_blank.
  - cbn. destruct (window_AudioContext p); cbn; try discriminate.
    intros [= <-]. apply (Good_blank p).
Qed.

(** A method that keeps the invariant as it stands leaves a good world and
    the memoized grant unchanged. *)
Lemma kept {A} (m : M A) w :
  (forall um c h0,
     triple (J um um 0 c h0) m (fun _ => J um um 0 c h0) (J um um 0 c h0)) ->
  Good w -> Good (fst (m w)) /\ unchanged w (fst (m w)).
Proof.
  intros Hm Hw.
  assert (H : J (userMedia w) (userMedia w) 0 (gum_calls (log w)) (heap w) (fst (m w))).
  { apply (triple_fst (J (userMedia w) (userMedia w) 0 (gum_calls (log w)) (heap w)) m);
      [apply Hm | now apply J_of_Good]. }
  split; [eapply Good_of_J, H | eapply unchanged_of_J, H].
Qed.

Lemma grant_post w w' p c' :
  J (Some p) (Some p) 0 c' (heap w) w' ->
  (userMedia w = None /\ gum_calls (log w) = 0) \/
  (userMedia w = Some p /\ c' = gum_calls (log w)) ->
  Good w' /\ unchanged w w'.
Proof.
  intros H Hc. split; [eapply Good_of_J, H|].
  destruct H as ([Hum _] & _ & Hcnt & Hs). split; [|split].
  - intros q Hq. destruct Hc as [[Hn _] | [Hp _]]; congruence.
  - exact Hs.
  - intros Hne. destruct Hc as [[Hn _] | [_ ->]]; [contradiction | exact Hcnt].
Qed.

Lemma step_sound w ev w' :
  Good w -> step w ev = Some w' -> Good w' /\ unchanged w w'.
Proof.
  intros Hw. destruct ev; simpl.
  - intros [= <-].
    pose proof (start_J _ 0 _ _ (fun _ => False) w (J_of_Good w Hw)) as H.
    destruct (start w) as [w1 [[]|e]]; [|destruct H].
    destruct H as (p & c' & H & Hc). simpl. eapply grant_post; eauto.
  - intros [= <-]. apply kept; [intros; apply stop_J | exact Hw].
  - intros [= <-]. apply kept; [intros; apply reset_J | exact Hw].
  - intros [= <-]. apply kept; [intros; apply getWavURL_J | exact Hw].
  - intros [= <-].
    pose proof (grabMic_J _ 0 _ _ (fun _ => False) w (J_of_Good w Hw)) as H.
    destruct (grabMic w) as [w1 [p|e]]; [|destruct H].
    destruct H as (c' & H & Hc). simpl. eapply grant_post; eauto.
  - destruct (idle w && _ && _) eqn:Hc; [|discriminate]. intros [= <-].
    apply andb_prop in Hc as [Hc _]. apply andb_prop in Hc as [_ Hg].
    apply existsb_exists in Hg as (x & Hin & Hx).
    destruct x; try discriminate. simpl in Hx. apply Nat.eqb_eq in Hx as <-.
    assert (H : J (userMedia w) (userMedia w) 0 (gum_calls (log w)) (heap w)
                  (fst (resolve g (VStream stream0) w))).
    { apply (triple_fst (J (userMedia w) (userMedia w) 0 (gum_calls (log w)) (heap w))
               (resolve g (VStream stream0))); [|now apply J_of_Good].
      apply resolve_other_J. apply (inv_gum _ _ _ _ _ _ (proj2 Hw) g Hin). }
    split; [eapply Good_of_J, H | eapply unchanged_of_J, H].
  - destruct (idle w && _ && _) eqn:Hc; [|discriminate]. intros [= <-].
    apply kept; [intros; apply reject_J | exact Hw].
  - destruct (audioContext w); [|discriminate]. destruct (idle w); [|discriminate].
    intros [= <-]. apply kept; [intros; apply onaudioprocess_J | exact Hw].
  - destruct (idle w); [|discriminate].
    intros [= <-]. apply kept; [intros; apply onmessage_J | exact Hw].
  - destruct (jobs w) as [|[r o] rest] eqn:Hj; [discriminate|]. intros [= <-].
    destruct Hw as [Hum HI].
    destruct (inv_jobs _ _ _ _ _ _ HI r o) as [[_ Hd] Hg]; [rewrite Hj; now left|].
    assert (H : J (userMedia w) (userMedia w) 0 (gum_calls (log w)) (heap w)
                  (fst (run_job (r, o) (set_jobs rest w)))).
    { apply (triple_fst
               (fun w0 => J (userMedia w) (userMedia w) 0 (gum_calls (log w)) (heap w) w0 /\
                  (waits_start r -> forall v, o = Fulfil v ->
                     granted (userMedia w) (heap w0)))
               (run_job (r, o))).
      - now apply run_job_J.
      - split; [|exact Hg].
        apply J_intro; simpl; [reflexivity | | lia | reflexivity | apply stable_refl].
        eapply InvC_jobs_sub; [exact HI|]. intros x Hx. rewrite Hj. now right. }
    split; [eapply Good_of_J, H | eapply unchanged_of_J, H].
Qed.

Lemma run_sound evs : forall w w',
  Good w -> run w evs = Some w' -> Good w' /\ unchanged w w'.
Proof.
  induction evs as [|ev evs IH]; simpl; intros w w' Hw.
  - intros [= <-]. split; [exact Hw | apply unchanged_refl].
  - destruct (step w ev) as [w1|] eqn:Hs; [|discriminate].
    intros Hr. destruct (step_sound _ _ _ Hw Hs) as [Hw1 Hu1].
    destruct (IH _ _ Hw1 Hr) as [Hw' Hu']. split; [exact Hw'|].
    eapply unchanged_trans; eauto.
Qed.

Lemma reachable_Good w : reachable w -> Good w.
Proof.
  intros (p & w0 & evs & Hc & Hr).
  eapply run_sound; [eapply Good_constructor; eauto | exact Hr].
Qed.

Lemma run_app evs1 : forall evs2 w w1 w2,
  run w evs1 = Some w1 -> run w1 evs2 = Some w2 -> run w (evs1 ++ evs2) = Some w2.
Proof.
  induction evs1 as [|ev evs1 IH]; simpl; intros evs2 w w1 w2.
  - intros [= <-]. auto.
  - destruct (step w ev) as [w'|]; [|discriminate]. apply IH.
Qed.

Lemma reachable_run w evs w' : reachable w -> run w evs = Some w' -> reachable w'.
Proof.
  intros (p & w0 & evs0 & Hc & Hr) Hr'. exists p, w0, (evs0 ++ evs).
  split; [exact Hc | eapply run_app; eauto].
Qed.

(** ** What the methods compute *)

Lemma bind_normal {A B} (m : M A) (k : A -> M B) w w1 a :
  m w = (w1, Normal a) -> bind m k w = k a w1.
Proof. intros H. unfold bind. now rewrite H. Qed.

Lemma lookup_at_end (h l : list Cell) i : (h ++ l) !! (length h + i) = l !! i.
Proof. induction h as [|c h IH]; simpl; auto. Qed.

Lemma lookup_at_length (h l : list Cell) : (h ++ l) !! length h = l !! 0.
Proof. rewrite <- (Nat.add_0_r (length h)) at 1. apply lookup_at_end. Qed.

Lemma lookup_at_S_length (h l : list Cell) : (h ++ l) !! S (length h) = l !! 1.
Proof. rewrite <- (Nat.add_1_r (length h)). apply lookup_at_end. Qed.

Lemma insert_at_length (h l : list Cell) c :
  <[length h := c]> (h ++ l) = h ++ <[0 := c]> l.
Proof. rewrite <- (Nat.add_0_r (length h)) at 1. apply insert_app_r. Qed.

Lemma insert_at_S_length (h l : list Cell) c :
  <[S (length h) := c]> (h ++ l) = h ++ <[1 := c]> l.
Proof. rewrite <- (Nat.add_1_r (length h)). apply insert_app_r. Qed.

Lemma grabMic_memo w p : userMedia w = Some p -> grabMic w = (w, Normal p).
Proof. intros H. unfold grabMic, bind, gets. now rewrite H. Qed.

Lemma promise_then_settled w p o k :
  heap w !! p = Some (Settled o) ->
  promise_then p k w =
    (set_jobs (jobs w ++ [({| on_fulfilled := Some k; on_rejected := None;
                              derived := length (heap w) |}, o)])
       (set_heap (heap w ++ [Pending []]) w),
     Normal (length (heap w))).
Proof.
  intros Hp.
  assert (Hlt : p < length (heap w)) by (eapply lookup_lt_Some; eauto).
  cbv [promise_then bind alloc subscribe ret]. cbn [heap set_heap].
  rewrite lookup_app_l by exact Hlt. rewrite Hp. reflexivity.
Qed.

Lemma promise_catch_last w h rs k :
  heap w = h ++ [Pending rs] ->
  promise_catch (length h) k w =
    (set_heap (h ++ [Pending (rs ++ [{| on_fulfilled := None; on_rejected := Some k;
                                        derived := S (length h) |}]);
                     Pending []]) w,
     Normal (S (length h))).
Proof.
  intros Hh. cbv [promise_catch bind alloc subscribe ret]. cbn [heap set_heap].
  rewrite Hh, <- app_assoc. cbn [app]. rewrite lookup_at_length. cbn [lookup list_lookup].
  rewrite insert_at_length. cbn. rewrite length_app. cbn.
  rewrite Nat.add_1_r. reflexivity.
Qed.

Lemma start_settled w p o :
  userMedia w = Some p -> heap w !! p = Some (Settled o) ->
  start w =
    (set_jobs (jobs w ++ [(start_then (length (heap w)), o)])
       (set_heap (heap w ++ [Pending [start_catch (length (heap w))]; Pending []]) w),
     Normal tt).
Proof.
  intros Hum Hp. unfold start.
  rewrite (bind_normal _ _ _ _ _ (grabMic_memo w p Hum)).
  rewrite (bind_normal _ _ _ _ _ (promise_then_settled w p o K_start_then Hp)).
  erewrite bind_normal by (apply promise_catch_last with (rs := []); reflexivity).
  reflexivity.
Qed.

Lemma wav_only_filter ls name :
  wav_only ls -> String.eqb name "wav-delivered" = false ->
  List.filter (listens name) ls = [] /\
  List.filter (fun nl => negb (listens name nl)) ls = ls.
Proof.
  intros Hw Hn. induction ls as [|[n k] ls IH]; [auto|].
  assert (Hk : listens name (n, k) = false).
  { unfold listens. simpl. rewrite (Hw n k) by now left.
    now rewrite String.eqb_sym. }
  assert (Hls : wav_only ls) by (intros n' k' Hin; apply (Hw n' k'); now right).
  destruct (IH Hls) as [IH1 IH2].
  simpl. rewrite Hk. simpl. rewrite IH1, IH2. auto.
Qed.

(** A signal nobody inside the recorder listens to only reaches the
    observers. *)
Lemma trigger_plain w name data :
  wav_only (listeners w) -> String.eqb name "wav-delivered" = false ->
  trigger name data w = (set_log (log w ++ [Emit name data]) w, Normal tt).
Proof.
  intros Hw Hn. destruct (wav_only_filter _ _ Hw Hn) as [H1 H2].
  cbv [trigger bind effect gets modify]. cbn [listeners set_log].
  rewrite H1, H2. cbn. destruct w; reflexivity.
Qed.

Lemma Good_wav_only w : Good w -> wav_only (listeners w).
Proof.
  intros [_ HI] name k Hin. now destruct (inv_lis _ _ _ _ _ _ HI name k Hin).
Qed.

Lemma _setState_plain w s :
  wav_only (listeners w) ->
  _setState s w =
    (set_log (log w ++ [Emit (state_name s) VUndefined]) (set_state s w), Normal tt).
Proof.
  intros Hw. unfold _setState.
  cbv [bind modify gets]. cbn [state set_state].
  rewrite trigger_plain; [reflexivity | exact Hw | destruct s; reflexivity].
Qed.

Lemma settle_pending w p rs o :
  heap w !! p = Some (Pending rs) ->
  settle p o w =
    (set_jobs (jobs w ++ List.map (fun r => (r, o)) rs)
       (set_heap (<[p := Settled o]> (heap w)) w), Normal tt).
Proof. intros H. unfold settle. now rewrite H. Qed.

Lemma start_run_rejected w p e :
  wav_only (listeners w) ->
  userMedia w = Some p -> heap w !! p = Some (Settled (Reject e)) ->
  jobs w = [] ->
  run w [Call_start; Microtask; Microtask] =
    Some (set_log (log w ++ [Emit "blocked" VUndefined])
            (set_heap (heap w ++ [Settled (Reject e); Settled (Fulfil VUndefined)]) w)).
Proof.
  intros Hw Hum Hp Hj.
  cbn [run step]. rewrite (start_settled w p _ Hum Hp). cbn [fst jobs set_jobs set_heap].
  rewrite Hj. cbn [app].
  cbv [run_job start_then on_rejected on_fulfilled derived reject].
  erewrite settle_pending
    by (cbn [heap set_jobs set_heap]; rewrite lookup_at_length; reflexivity).
  cbn [fst jobs set_jobs set_heap heap app List.map].
  cbv [start_catch try_catch bind call_rejected resolve].
  rewrite trigger_plain by (exact Hw || reflexivity).
  rewrite insert_at_length. cbn [insert list_insert].
  erewrite settle_pending
    by (cbn [heap set_jobs set_heap set_log]; rewrite lookup_at_S_length; reflexivity).
  cbn [fst jobs set_jobs set_heap set_log heap log app List.map].
  rewrite insert_at_S_length. cbn [insert list_insert].
  destruct w. cbn in *. subst. reflexivity.
Qed.

Lemma start_run_fulfilled w p v :
  wav_only (listeners w) ->
  userMedia w = Some p -> heap w !! p = Some (Settled (Fulfil v)) ->
  jobs w = [] ->
  run w [Call_start; Microtask; Microtask] =
    Some (set_log (log w ++ [Emit "recording" VUndefined])
            (set_state recording
               (set_heap (heap w ++ [Settled (Fulfil VUndefined);
                                     Settled (Fulfil VUndefined)]) w))).
Proof.
  intros Hw Hum Hp Hj.
  cbn [run step]. rewrite (start_settled w p _ Hum Hp). cbn [fst jobs set_jobs set_heap].
  rewrite Hj. cbn [app].
  cbv [run_job start_then on_rejected on_fulfilled derived].
  cbv [try_catch bind call_fulfilled resolve].
  rewrite _setState_plain by exact Hw.
  erewrite settle_pending
    by (cbn [heap set_jobs set_heap set_log set_state];
        rewrite lookup_at_length; reflexivity).
  cbn [fst jobs set_jobs set_heap set_log set_state heap log app List.map state_name].
  rewrite insert_at_length. cbn [insert list_insert].
  cbv [start_catch].
  erewrite settle_pending
    by (cbn [heap set_jobs set_heap set_log set_state];
        rewrite lookup_at_S_length; reflexivity).
  cbn [fst jobs set_jobs set_heap set_log heap log app List.map].
  rewrite insert_at_S_length. cbn [insert list_insert].
  destruct w. cbn in *. subst. reflexivity.
Qed.

(** ** What leaves the recording state alone *)

Section Keeps.

Context {X : Type} (f : World -> X).

Lemma keeps_ret {A} (a : A) : keeps f (ret a).
Proof. intros w. reflexivity. Qed.

Lemma keeps_throw {A} e : keeps f (@throw A e).
Proof. intros w. reflexivity. Qed.

Lemma keeps_gets {A} (g : World -> A) : keeps f (gets g).
Proof. intros w. reflexivity. Qed.

Lemma keeps_bind {A B} (m : M A) (k : A -> M B) :
  keeps f m -> (forall a, keeps f (k a)) -> keeps f (bind m k).
Proof.
  intros Hm Hk w. unfold bind. specialize (Hm w).
  destruct (m w) as [w1 [a|e]]; simpl in *; [|exact Hm].
  rewrite Hk. exact Hm.
Qed.

Lemma keeps_try_catch {A} (m : M A) (h : JSError -> M A) :
  keeps f m -> (forall e, keeps f (h e)) -> keeps f (try_catch m h).
Proof.
  intros Hm Hh w. unfold try_catch. specialize (Hm w).
  destruct (m w) as [w1 [a|e]]; simpl in *; [exact Hm|].
  rewrite Hh. exact Hm.
Qed.

Lemma keeps_modify (g : World -> World) :
  (forall w, f (g w) = f w) -> keeps f (modify g).
Proof. intros H w. apply H. Qed.

End Keeps.

Create HintDb keeps.
#[local] Hint Resolve keeps_ret keeps_throw keeps_gets keeps_bind keeps_try_catch
  keeps_modify : keeps.

Lemma keeps_state_alloc : keeps state alloc.
Proof. intros w. reflexivity. Qed.

Lemma keeps_state_settle p o : keeps state (settle p o).
Proof. intros w. unfold settle. destruct (heap w !! p) as [[|]|]; reflexivity. Qed.

Lemma keeps_state_subscribe p r : keeps state (subscribe p r).
Proof. intros w. unfold subscribe. destruct (heap w !! p) as [[|]|]; reflexivity. Qed.

Lemma keeps_state_effect e : keeps state (effect e).
Proof. intros w. reflexivity. Qed.

#[local] Hint Resolve keeps_state_alloc keeps_state_settle keeps_state_subscribe
  keeps_state_effect : keeps.

Lemma keeps_state_promise_then p k : keeps state (promise_then p k).
Proof. unfold promise_then. auto with keeps. Qed.

Lemma keeps_state_promise_catch p k : keeps state (promise_catch p k).
Proof. unfold promise_catch. auto with keeps. Qed.

Lemma keeps_state_createObjectURL d : keeps state (createObjectURL d).
Proof.
  unfold createObjectURL. destruct d; auto with keeps.
Qed.

Lemma keeps_state_invoke k d : keeps state (invoke k d).
Proof.
  destruct k. unfold invoke, resolve.
  apply keeps_bind; [apply keeps_state_createObjectURL | auto with keeps].
Qed.

Lemma keeps_state_fire due d : keeps state (fire due d).
Proof.
  induction due as [|k due IH]; [intros w; reflexivity|].
  change (fire (k :: due) d) with (invoke k d ;; fire due d).
  apply keeps_bind; [apply keeps_state_invoke | auto].
Qed.

Lemma keeps_state_trigger name d : keeps state (trigger name d).
Proof.
  unfold trigger. apply keeps_bind; [auto with keeps | intros ?].
  apply keeps_bind; [auto with keeps | intros ls].
  apply keeps_bind; [apply keeps_modify; reflexivity | intros ?].
  apply keeps_state_fire.
Qed.

Lemma keeps_state_getUserMedia : keeps state getUserMedia.
Proof.
  unfold getUserMedia. apply keeps_bind; [auto with keeps | intros p].
  destruct (navigator_mediaDevices p); auto with keeps;
    destruct (get_prop _ _); auto with keeps.
Qed.

Lemma keeps_state_grabMic : keeps state grabMic.
Proof.
  unfold grabMic. apply keeps_bind; [auto with keeps | intros [p|]]; [auto with keeps|].
  apply keeps_bind; [| intros p].
  - unfold new_Promise. apply keeps_bind; [auto with keeps | intros p].
    apply keeps_bind; [| auto with keeps].
    apply keeps_try_catch; [| intros e; apply keeps_state_settle].
    apply keeps_bind; [apply keeps_state_getUserMedia | intros g].
    apply keeps_bind; [apply keeps_state_promise_then | intros g1].
    apply keeps_bind; [apply keeps_state_promise_catch | auto with keeps].
  - apply keeps_bind; [apply keeps_modify; reflexivity | auto with keeps].
Qed.

Lemma keeps_state_start : keeps state start.
Proof.
  unfold start. apply keeps_bind; [apply keeps_state_grabMic | intros p].
  apply keeps_bind; [apply keeps_state_promise_then | intros s1].
  apply keeps_bind; [apply keeps_state_promise_catch | auto with keeps].
Qed.

Lemma state__setState s w : state (fst (_setState s w)) = s.
Proof.
  unfold _setState. cbv [bind modify gets]. cbn [state set_state].
  now rewrite keeps_state_trigger.
Qed.

Lemma state_reset w : state (fst (reset w)) = inactive.
Proof.
  unfold reset, bind. pose proof (state__setState inactive w) as H.
  destruct (_setState inactive w) as [w1 [[]|e]]; simpl in *; exact H.
Qed.

Lemma state_getWavURL w : state (fst (getWavURL w)) = inactive.
Proof.
  unfold getWavURL, stop, bind. pose proof (state__setState inactive w) as H.
  destruct (_setState inactive w) as [w1 [[]|e]]; simpl in *; [|exact H].
  rewrite <- H.
  assert (K : keeps state
                (promise <- new_Promise (fun p => once "wav-delivered" (L_wav_resolve p));;
                 postMessage MsgExportWav;; ret promise)).
  { apply keeps_bind; [| intros q; unfold postMessage; auto with keeps].
    unfold new_Promise. apply keeps_bind; [auto with keeps | intros q].
    apply keeps_bind; [| auto with keeps].
    apply keeps_try_catch; [| intros e; apply keeps_state_settle].
    unfold once. apply keeps_bind; [auto with keeps | intros ?].
    apply keeps_modify. reflexivity. }
  apply K.
Qed.

Lemma keeps_state_onaudioprocess c0 cs : keeps state (onaudioprocess c0 cs).
Proof.
  unfold onaudioprocess, postMessage.
  apply keeps_bind; [auto with keeps | intros [|]]; auto with keeps.
Qed.

Lemma keeps_state_call_rejected k e : keeps state (call_rejected k e).
Proof. destruct k; simpl; [apply keeps_state_settle | apply keeps_state_trigger]. Qed.

Lemma keeps_state_gum_then p v : keeps state (call_fulfilled (K_gum_then p) v).
Proof.
  simpl. apply keeps_bind; [apply keeps_modify; reflexivity | intros ?].
  apply keeps_bind; [auto with keeps | intros [ac|]]; [|auto with keeps].
  apply keeps_bind; [apply keeps_modify; reflexivity | intros ?].
  unfold postMessage, resolve. auto with keeps.
Qed.

(** The state leaves [inactive] in one way only: a microtask runs the
    continuation that [start] registered, on a fulfilled grant. *)
Lemma inactive_until_continuation w ev w' :
  state w = inactive -> step w ev = Some w' -> state w' = recording ->
  ev = Microtask /\
  exists r v rest, jobs w = (r, Fulfil v) :: rest /\ on_fulfilled r = Some K_start_then.
Proof.
  intros Hs Hstep Hrec. destruct ev; simpl in Hstep.
  - injection Hstep as <-. rewrite keeps_state_start in Hrec. congruence.
  - injection Hstep as <-. unfold stop in Hrec. rewrite state__setState in Hrec. discriminate.
  - injection Hstep as <-. rewrite state_reset in Hrec. discriminate.
  - injection Hstep as <-. rewrite state_getWavURL in Hrec. discriminate.
  - injection Hstep as <-. rewrite keeps_state_grabMic in Hrec. congruence.
  - destruct (_ && _); [|discriminate]. injection Hstep as <-.
    unfold resolve in Hrec. rewrite keeps_state_settle in Hrec. congruence.
  - destruct (_ && _); [|discriminate]. injection Hstep as <-.
    unfold reject in Hrec. rewrite keeps_state_settle in Hrec. congruence.
  - destruct (audioContext w); [|discriminate]. destruct (idle w); [|discriminate].
    injection Hstep as <-. rewrite keeps_state_onaudioprocess in Hrec. congruence.
  - destruct (idle w); [|discriminate]. injection Hstep as <-.
    unfold onmessage in Hrec. rewrite keeps_state_trigger in Hrec. congruence.
  - split; [reflexivity|].
    destruct (jobs w) as [|[r o] rest] eqn:Hj; [discriminate|]. injection Hstep as <-.
    destruct o as [v|e].
    + destruct (on_fulfilled r) as [[p|]|] eqn:Hk.
      * exfalso. unfold run_job in Hrec.
        assert (K : keeps state
                  (try_catch (call_fulfilled (K_gum_then p) v;; resolve (derived r) VUndefined)
                     (fun e => reject (derived r) e))).
        { apply keeps_try_catch; [| intros e; apply keeps_state_settle].
          apply keeps_bind; [apply keeps_state_gum_then | intros ?; apply keeps_state_settle]. }
        rewrite K in Hrec. simpl in Hrec. congruence.
      * eauto.
      * exfalso. unfold run_job in Hrec.
        unfold resolve in Hrec. rewrite keeps_state_settle in Hrec. simpl in Hrec. congruence.
    + exfalso. unfold run_job in Hrec.
      destruct (on_rejected r) as [k|].
      * assert (K : keeps state
                  (try_catch (call_rejected k e;; resolve (derived r) VUndefined)
                     (fun e' => reject (derived r) e'))).
        { apply keeps_try_catch; [| intros e'; apply keeps_state_settle].
          apply keeps_bind; [apply keeps_state_call_rejected | intros ?; apply keeps_state_settle]. }
        rewrite K in Hrec. simpl in Hrec. congruence.
      * unfold reject in Hrec. rewrite keeps_state_settle in Hrec. simpl in Hrec. congruence.
Qed.

(** ** The export *)

Lemma lookup_at_length_nat (l1 l2 : list nat) : (l1 ++ l2) !! length l1 = l2 !! 0.
Proof. induction l1 as [|x l1 IH]; simpl; auto. Qed.


Lemma getWavURL_plain w :
  wav_only (listeners w) ->
  getWavURL w =
    (set_log (log w ++ [Emit "inactive" VUndefined;
                        Once "wav-delivered" (L_wav_resolve (length (heap w)));
                        Post MsgExportWav])
       (set_listeners (listeners w ++
                         [("wav-delivered", L_wav_resolve (length (heap w)))])
          (set_heap (heap w ++ [Pending []]) (set_state inactive w))),
     Normal (length (heap w))).
Proof.
  intros Hw. unfold getWavURL, stop.
  rewrite (bind_normal _ _ _ _ _ (_setState_plain w inactive Hw)).
  cbv [new_Promise bind alloc try_catch once effect modify postMessage ret].
  cbn. rewrite <- !app_assoc. reflexivity.
Qed.

Lemma invoke_blob w p b :
  invoke (L_wav_resolve p) (VBlob b) w =
    settle p (Fulfil (VObjectURL (length (object_urls w))))
      (set_object_urls (object_urls w ++ [b]) w).
Proof. reflexivity. Qed.

Lemma settle_normal p o w : snd (settle p o w) = Normal tt.
Proof. unfold settle. destruct (heap w !! p) as [[|]|]; reflexivity. Qed.

Lemma settle_stable p o w : stable (heap w) (heap (fst (settle p o w))).
Proof.
  unfold settle. destruct (heap w !! p) as [[rs|]|] eqn:Hp; simpl;
    [eapply stable_insert_pending; eauto | apply stable_refl | apply stable_refl].
Qed.

Lemma settle_urls p o w : object_urls (fst (settle p o w)) = object_urls w.
Proof. unfold settle. destruct (heap w !! p) as [[|]|]; reflexivity. Qed.

Lemma settle_other p o w q : q <> p -> heap (fst (settle p o w)) !! q = heap w !! q.
Proof.
  intros Hne. unfold settle. destruct (heap w !! p) as [[|]|]; simpl; auto.
  now rewrite list_lookup_insert_ne by congruence.
Qed.

Lemma settle_same p o w rs :
  heap w !! p = Some (Pending rs) ->
  heap (fst (settle p o w)) !! p = Some (Settled o).
Proof.
  intros Hp. unfold settle. rewrite Hp. simpl.
  apply list_lookup_insert_eq. eapply lookup_lt_Some; eauto.
Qed.

(** Running the listeners with a blob keeps what is settled and the object
    URLs that exist, and does not throw. *)
Lemma fire_blob_extends due b : forall w,
  let w' := fst (fire due (VBlob b) w) in
  stable (heap w) (heap w') /\
  (forall u x, object_urls w !! u = Some x -> object_urls w' !! u = Some x) /\
  snd (fire due (VBlob b) w) = Normal tt.
Proof.
  induction due as [|[p] due IH]; intros w.
  - cbn. split; [apply stable_refl | auto].
  - change (fire (L_wav_resolve p :: due) (VBlob b))
      with (invoke (L_wav_resolve p) (VBlob b) ;; fire due (VBlob b)).
    unfold bind. rewrite invoke_blob.
    set (w0 := set_object_urls (object_urls w ++ [b]) w).
    pose proof (settle_normal p (Fulfil (VObjectURL (length (object_urls w)))) w0) as Hn.
    pose proof (settle_stable p (Fulfil (VObjectURL (length (object_urls w)))) w0) as Hs.
    pose proof (settle_urls p (Fulfil (VObjectURL (length (object_urls w)))) w0) as Hu.
    destruct (settle p _ w0) as [w1 [[]|e]]; [|discriminate]. cbn [fst snd] in *.
    destruct (IH w1) as (IH1 & IH2 & IH3). split; [|split].
    + eapply stable_trans; [exact Hs | exact IH1].
    + intros u x Hx. apply IH2. rewrite Hu. unfold w0. cbn.
      rewrite lookup_app_l; [exact Hx | eapply lookup_lt_Some; eauto].
    + exact IH3.
Qed.

Lemma fire_blob_resolves due b : forall w q rs,
  In (L_wav_resolve q) due -> heap w !! q = Some (Pending rs) ->
  exists u,
    heap (fst (fire due (VBlob b) w)) !! q = Some (Settled (Fulfil (VObjectURL u))) /\
    object_urls (fst (fire due (VBlob b) w)) !! u = Some b.
Proof.
  induction due as [|[p] due IH]; intros w q rs Hin Hq; [destruct Hin|].
  change (fire (L_wav_resolve p :: due) (VBlob b))
    with (invoke (L_wav_resolve p) (VBlob b) ;; fire due (VBlob b)).
  unfold bind. rewrite invoke_blob.
  set (w0 := set_object_urls (object_urls w ++ [b]) w).
  set (o := Fulfil (VObjectURL (length (object_urls w)))).
  pose proof (settle_normal p o w0) as Hn.
  pose proof (settle_urls p o w0) as Hu.
  destruct (decide (p = q)) as [->|Hne].
  - pose proof (settle_same q o w0 rs Hq) as Hs.
    destruct (settle q o w0) as [w1 [[]|e]]; [|discriminate]. cbn [fst snd] in *.
    destruct (fire_blob_extends due b w1) as (F1 & F2 & _).
    exists (length (object_urls w)). split; [now apply F1|].
    apply F2. rewrite Hu. unfold w0. cbn. now rewrite lookup_at_length_nat.
  - pose proof (settle_other p o w0 q (not_eq_sym Hne)) as Hs.
    destruct (settle p o w0) as [w1 [[]|e]]; [|discriminate]. cbn [fst snd] in *.
    destruct Hin as [[= ->] | Hin]; [contradiction|].
    apply (IH w1 q rs Hin). rewrite Hs. exact Hq.
Qed.

(** When the worker's [wav-delivered] reply arrives, every promise whose
    listener is registered and which is still pending is resolved with an
    object URL of the delivered blob. *)
Lemma reply_resolves w q rs b :
  In ("wav-delivered", L_wav_resolve q) (listeners w) ->
  heap w !! q = Some (Pending rs) -> jobs w = [] ->
  exists w2 u,
    step w (WorkerMessage "wav-delivered" (VBlob b)) = Some w2 /\
    heap w2 !! q = Some (Settled (Fulfil (VObjectURL u))) /\
    object_urls w2 !! u = Some b.
Proof.
  intros Hin Hq Hj. cbn [step]. unfold idle. rewrite Hj.
  eexists. unfold onmessage, trigger.
  cbv [bind effect gets modify]. cbn [listeners set_log].
  match goal with |- context [fire ?d _ ?x] => set (due := d); set (w1 := x) end.
  destruct (fire_blob_resolves due b w1 q rs) as (u & H1 & H2).
  - unfold due. apply in_map_iff. exists ("wav-delivered", L_wav_resolve q).
    split; [reflexivity|]. apply filter_In. split; [exact Hin | reflexivity].
  - exact Hq.
  - exists u. split; [reflexivity|]. split; [exact H1 | exact H2].
Qed.

(** * The properties of the specification *)

Lemma has_init_In lg :
  has_init lg = true -> exists sr nc, In (Post (MsgInit sr nc)) lg.
Proof.
  intros H. apply existsb_exists in H as (e & Hin & He).
  destruct e as [| [sr nc| | |] | |]; try discriminate. eauto.
Qed.

Lemma init_first_split lg :
  init_first lg = true ->
  forall l1 b l2, lg = l1 ++ Post (MsgRecord b) :: l2 ->
  exists sr nc, In (Post (MsgInit sr nc)) l1.
Proof.
  intros H l1. revert lg H. induction l1 as [|x l1 IH]; intros lg H b l2 ->.
  - simpl in H. discriminate.
  - simpl in H. destruct (is_init x) eqn:Hx.
    + destruct x as [| [sr nc| | |] | |]; try discriminate.
      exists sr, nc. now left.
    + apply andb_prop in H as [_ H].
      destruct (IH _ H b l2 eq_refl) as (sr & nc & Hin).
      exists sr, nc. now right.
Qed.

Lemma posted_app l1 l2 : posted (l1 ++ l2) = posted l1 ++ posted l2.
Proof.
  induction l1 as [|[] l1 IH]; simpl; auto. now rewrite IH.
Qed.

Lemma set_state_same w : set_state (state w) w = w.
Proof. destruct w; reflexivity. Qed.

Lemma reachable_after p evs : possible p evs = true -> reachable (after p evs).
Proof.
  unfold possible, after. destruct (constructor p) as [w0|] eqn:Hc; [|discriminate].
  destruct (run w0 evs) as [w|] eqn:Hr; [|discriminate].
  intros _. exists p, w0, evs. auto.
Qed.

(** C1.  On every recorder, whatever was called and however often, also
    before the first result is known, [getUserMedia] has been called at most
    once; [grabMic] returns a promise, and every later call of [grabMic]
    returns that same promise and changes nothing. *)
Theorem grant_requested_once (w : World) :
  reachable w ->
  gum_calls (log w) <= 1 /\
  exists w1 p,
    grabMic w = (w1, Normal p) /\
    forall evs w2, run w1 evs = Some w2 ->
      gum_calls (log w2) <= 1 /\ grabMic w2 = (w2, Normal p).
Proof.
  intros Hr. pose proof (reachable_Good w Hr) as Hw. split.
  - apply (inv_once _ _ _ _ _ _ (proj2 Hw)).
  - pose proof (grabMic_J _ 0 _ _ (fun _ => False) w (J_of_Good w Hw)) as H.
    destruct (grabMic w) as [w1 [p|e]]; [|destruct H].
    destruct H as (c' & H & _). exists w1, p. split; [reflexivity|].
    intros evs w2 Hrun.
    assert (Hw1 : Good w1) by (eapply Good_of_J, H).
    assert (Hum : userMedia w1 = Some p) by (destruct H as [[Hum _] _]; exact Hum).
    destruct (run_sound _ _ _ Hw1 Hrun) as [Hw2 (Hkeep & _)]. split.
    + apply (inv_once _ _ _ _ _ _ (proj2 Hw2)).
    + apply grabMic_memo. now apply Hkeep.
Qed.

Lemma grant_requested_once_witness :
  gum_calls (log (after browser [Call_start; Call_grabMic; Call_start])) <= 1.
Proof.
  apply (grant_requested_once (after browser [Call_start; Call_grabMic; Call_start])).
  apply reachable_after. vm_compute. reflexivity.
Defined.

(** C2.  The handler of [audioprocess] sends one [record] message with the
    samples of channel 0 when the state is [recording], and does nothing at
    all when it is [inactive]; so a frame is forwarded if and only if the
    state is [recording] when it is delivered. *)
Theorem frame_forwarded_iff_recording (w : World) (c0 : Float32Array)
    (cs : list Float32Array) :
  let w' := fst (onaudioprocess c0 cs w) in
  snd (onaudioprocess c0 cs w) = Normal tt /\
  (state w = recording -> w' = set_log (log w ++ [Post (MsgRecord [c0])]) w) /\
  (state w = inactive -> w' = w) /\
  (posted (log w') = posted (log w) ++ [MsgRecord [c0]] <-> state w = recording) /\
  (posted (log w') = posted (log w) <-> state w = inactive) /\
  records (log w') =
    records (log w) + match state w with recording => 1 | inactive => 0 end.
Proof.
  cbv [onaudioprocess bind gets postMessage effect modify]. cbn.
  destruct (state w) eqn:Hs; cbn.
  - repeat split; try discriminate; auto.
    intros H. apply (f_equal (@length _)) in H. rewrite length_app in H. simpl in H. lia.
  - repeat split; try discriminate; auto.
    + now rewrite posted_app.
    + intros H. rewrite posted_app in H. simpl in H.
      apply (f_equal (@length _)) in H. rewrite length_app in H. simpl in H. lia.
    + unfold records. rewrite List.filter_app, length_app. reflexivity.
Qed.

(** C6.  On every recorder the state is [recording] only when the grant is
    fulfilled, the grant is fulfilled only after the [init] message was
    sent, and therefore every [record] message in the log has an [init]
    message before it. *)
Theorem init_precedes_record (w : World) :
  reachable w ->
  (state w = recording -> grant_fulfilled w) /\
  (grant_fulfilled w -> exists sr nc, In (Post (MsgInit sr nc)) (log w)) /\
  (forall l1 b l2, log w = l1 ++ Post (MsgRecord b) :: l2 ->
     exists sr nc, In (Post (MsgInit sr nc)) l1).
Proof.
  intros Hr. destruct (reachable_Good w Hr) as [_ HI]. split; [|split].
  - apply (inv_state _ _ _ _ _ _ HI).
  - intros G. apply has_init_In, (inv_init _ _ _ _ _ _ HI), G.
  - apply init_first_split, (inv_rec _ _ _ _ _ _ HI).
Qed.

Lemma init_precedes_record_witness :
  exists sr nc,
    In (Post (MsgInit sr nc))
       [GetUserMedia 1; Post (MsgInit 48000 1); Emit "recording" VUndefined].
Proof.
  refine (proj2 (proj2 (init_precedes_record
    (fst (onaudioprocess [3%Z; 4%Z] [] granted_recorder)) _))
    [GetUserMedia 1; Post (MsgInit 48000 1); Emit "recording" VUndefined]
    [[3%Z; 4%Z]] [] _).
  - apply (reachable_run granted_recorder [AudioProcess [3%Z; 4%Z] []]).
    + apply reachable_after. vm_compute. reflexivity.
    + vm_compute. reflexivity.
  - vm_compute. reflexivity.
Defined.

(** C7.  [stop()] returns on every recorder; it sets the state to
    [inactive] and emits one "inactive" signal, and changes nothing else,
    in particular it sends nothing to the encoder; called on an inactive
    recorder, or a second time, it only emits the signal again. *)
Theorem stop_idempotent (w : World) :
  reachable w ->
  let w1 := fst (stop w) in
  snd (stop w) = Normal tt /\
  state w1 = inactive /\
  w1 = set_log (log w ++ [Emit "inactive" VUndefined]) (set_state inactive w) /\
  (state w = inactive ->
     w1 = set_log (log w ++ [Emit "inactive" VUndefined]) w) /\
  posted (log w1) = posted (log w) /\
  stop w1 = (set_log (log w1 ++ [Emit "inactive" VUndefined]) w1, Normal tt).
Proof.
  intros Hr. pose proof (Good_wav_only w (reachable_Good w Hr)) as Hw.
  unfold stop. rewrite (_setState_plain w inactive Hw). cbn [fst snd state_name].
  repeat split.
  - intros Hs. rewrite <- Hs at 1. now rewrite set_state_same.
  - cbn. rewrite posted_app. cbn. apply app_nil_r.
  - rewrite _setState_plain by exact Hw. cbn. reflexivity.
Qed.

Lemma stop_idempotent_witness :
  state (fst (stop granted_recorder)) = inactive.
Proof.
  apply (stop_idempotent granted_recorder).
  apply reachable_after. vm_compute. reflexivity.
Defined.








(** C3, as amended.  On every recorder [getWavURL()] returns a new pending
    promise after it has, in this order, emitted "inactive" (the forced
    stop), registered the one-shot listener for "wav-delivered" and sent
    [export-wav]; the state is [inactive] when it returns, and from an
    inactive state only a microtask that runs a continuation of [start()]
    on the fulfilled grant makes it [recording]; and when the
    "wav-delivered" reply with a blob arrives while the listener is
    registered and the promise pending, the promise is resolved with an
    object URL of that blob. *)
Theorem getWavURL_sequence (w : World) :
  reachable w ->
  let q := length (heap w) in
  exists w1,
    getWavURL w = (w1, Normal q) /\
    log w1 = log w ++ [Emit "inactive" VUndefined;
                       Once "wav-delivered" (L_wav_resolve q);
                       Post MsgExportWav] /\
    state w1 = inactive /\
    heap w1 !! q = Some (Pending []) /\
    In ("wav-delivered", L_wav_resolve q) (listeners w1) /\
    (forall w2 ev w3,
       state w2 = inactive -> step w2 ev = Some w3 -> state w3 = recording ->
       ev = Microtask /\
       exists r v rest,
         jobs w2 = (r, Fulfil v) :: rest /\ on_fulfilled r = Some K_start_then) /\
    (forall w2 rs b,
       In ("wav-delivered", L_wav_resolve q) (listeners w2) ->
       heap w2 !! q = Some (Pending rs) -> jobs w2 = [] ->
       exists w3 u,
         step w2 (WorkerMessage "wav-delivered" (VBlob b)) = Some w3 /\
         heap w3 !! q = Some (Settled (Fulfil (VObjectURL u))) /\
         object_urls w3 !! u = Some b).
Proof.
  intros Hr. cbv zeta. pose proof (Good_wav_only w (reachable_Good w Hr)) as Hw.
  eexists. split; [apply (getWavURL_plain w Hw)|].
  cbn [log set_log state set_state set_listeners set_heap heap listeners].
  split; [reflexivity|]. split; [reflexivity|]. split; [|split; [|split]].
  - rewrite lookup_at_length. reflexivity.
  - apply in_or_app. right. now left.
  - apply inactive_until_continuation.
  - intros w2 rs b. apply reply_resolves.
Qed.

Lemma getWavURL_sequence_witness :
  exists w1,
    getWavURL (after browser [Call_start]) = (w1, Normal 6) /\
    log w1 = [GetUserMedia 1; Emit "inactive" VUndefined;
              Once "wav-delivered" (L_wav_resolve 6); Post MsgExportWav].
Proof.
  destruct (getWavURL_sequence (after browser [Call_start])) as (w1 & H1 & H2 & _).
  - apply reachable_after. vm_compute. reflexivity.
  - exists w1. split; [exact H1 | exact H2].
Defined.

(** C3, as stated, fails: [start()] and then [getWavURL()] before the
    permission is granted leave the recorder recording while the export is
    still pending. *)
Lemma export_not_inactive :
  is_pending (heap exporting_recorder !! 6) = true /\
  state exporting_recorder = recording /\
  ~ inactive_while_export_pending.
Proof.
  split; [vm_compute; reflexivity|]. split; [vm_compute; reflexivity|].
  intros H.
  assert (Hr : reachable (after browser [Call_start])).
  { apply reachable_after. vm_compute. reflexivity. }
  specialize (H (after browser [Call_start])
                (after browser [Call_start; Call_getWavURL]) 6 Hr).
  specialize (H ltac:(vm_compute; reflexivity)
                [Gum_fulfil 1 7; Microtask; Microtask; Microtask; Microtask]
                exporting_recorder
                ltac:(vm_compute; reflexivity) ltac:(vm_compute; reflexivity)).
  vm_compute in H. discriminate.
Qed.



(** A name that the table does not have, not even by inheritance, is
    [unknown]. *)
Lemma errorToCode_unknown (n : string) :
  get_prop errorMessageToCodeMap n = VUndefined ->
  _errorToCode (ErrorObj (Some n)) = VString "unknown".
Proof.
  intros H. unfold _errorToCode. cbn [error_name]. rewrite H.
  cbn. now rewrite andb_false_r.
Qed.

(** The truthiness of [supported()] is the presence of the three
    features. *)
Lemma supported_truthy (p : Platform) :
  to_boolean (supported p) =
    negb (is_undefined (window_AudioContext p)) &&
    to_boolean (navigator_mediaDevices p) &&
    to_boolean (get_prop (navigator_mediaDevices p) "getUserMedia").
Proof.
  unfold supported. cbn [to_boolean].
  destruct (negb (is_undefined (window_AudioContext p))); cbn; [|reflexivity].
  destruct (to_boolean (navigator_mediaDevices p)) eqn:E; cbn; [reflexivity | exact E].
Qed.

(** C4.  [_errorToCode] on a name that [errorMessageToCodeMap] inherits
    from [Object.prototype] returns the inherited function, which is not a
    string and not [unknown]; on the two listed names it returns
    [permission-denied], and on a missing, an empty or an unlisted ordinary
    name [unknown]. *)
Theorem errorToCode_inherited_name :
  _errorToCode (ErrorObj (Some "constructor")) = VFunction "Object" /\
  is_string (_errorToCode (ErrorObj (Some "constructor"))) = false /\
  _errorToCode (ErrorObj (Some "toString")) = VFunction "toString" /\
  _errorToCode (ErrorObj (Some "NotAllowedError")) = VString "permission-denied" /\
  _errorToCode (ErrorObj (Some "PermissionDeniedError")) = VString "permission-denied" /\
  _errorToCode (ErrorObj (Some "SomethingElseError")) = VString "unknown" /\
  _errorToCode (ErrorObj (Some "NotAllowed")) = VString "unknown" /\
  _errorToCode (ErrorObj (Some "")) = VString "unknown" /\
  _errorToCode (ErrorObj None) = VString "unknown".
Proof. repeat split. Qed.

(** C8.  [supported()] on a browser that has every feature returns the
    [getUserMedia] function and not a boolean, and [undefined] on one
    without [navigator.mediaDevices]; only its truthiness is the
    capability. *)
Theorem supported_not_boolean :
  supported browser = VFunction "getUserMedia" /\
  is_boolean (supported browser) = false /\
  supported old_browser = VUndefined /\
  is_boolean (supported old_browser) = false /\
  to_boolean (supported browser) = true /\
  to_boolean (supported old_browser) = false.
Proof. repeat split. Qed.

(** * Further properties of the recorder *)

(** ** What the promise operations leave alone *)

Section HostOps.

Context {X : Type} (f : World -> X).
Hypothesis Hf : host_blind f.

Lemma host_alloc : keeps f alloc.
Proof. intros w. apply Hf. Qed.

Lemma host_settle p o : keeps f (settle p o).
Proof.
  destruct Hf as (Hh & Hj & _). intros w. unfold settle.
  destruct (heap w !! p) as [[rs|]|]; simpl; auto. now rewrite Hj, Hh.
Qed.

Lemma host_subscribe p r : keeps f (subscribe p r).
Proof.
  destruct Hf as (Hh & Hj & _). intros w. unfold subscribe.
  destruct (heap w !! p) as [[rs|]|]; simpl; auto.
Qed.

Lemma host_promise_then p k : keeps f (promise_then p k).
Proof.
  unfold promise_then.
  apply keeps_bind; [apply host_alloc | intros d].
  apply keeps_bind; [apply host_subscribe | intros ?; apply keeps_ret].
Qed.

Lemma host_promise_catch p k : keeps f (promise_catch p k).
Proof.
  unfold promise_catch.
  apply keeps_bind; [apply host_alloc | intros d].
  apply keeps_bind; [apply host_subscribe | intros ?; apply keeps_ret].
Qed.

Lemma host_createObjectURL d : keeps f (createObjectURL d).
Proof.
  unfold createObjectURL. destruct d; try apply keeps_throw.
  intros w. cbv [bind gets modify ret]. cbn. apply Hf.
Qed.

Lemma host_invoke k d : keeps f (invoke k d).
Proof.
  destruct k. unfold invoke, resolve.
  apply keeps_bind; [apply host_createObjectURL | intros ?; apply host_settle].
Qed.

Lemma host_fire due d : keeps f (fire due d).
Proof.
  induction due as [|k due IH]; [intros w; reflexivity|].
  change (fire (k :: due) d) with (invoke k d ;; fire due d).
  apply keeps_bind; [apply host_invoke | auto].
Qed.

End HostOps.

Lemma log_blind : host_blind log.
Proof. repeat split. Qed.

Lemma listeners_blind : host_blind listeners.
Proof. repeat split. Qed.

(** ** The log after each method *)

Lemma log_trigger name d w : log (fst (trigger name d w)) = log w ++ [Emit name d].
Proof.
  unfold trigger. cbv [bind effect gets modify]. cbn [listeners set_log].
  now rewrite (host_fire log log_blind).
Qed.

Lemma log__setState s w :
  log (fst (_setState s w)) = log w ++ [Emit (state_name s) VUndefined].
Proof.
  unfold _setState. cbv [bind modify gets]. cbn [state set_state].
  now rewrite log_trigger.
Qed.

Lemma getUserMedia_present w :
  has_gum (platform w) = true ->
  getUserMedia w =
    (set_log (log w ++ [GetUserMedia (length (heap w))])
       (set_heap (heap w ++ [Pending []]) w),
     Normal (length (heap w))).
Proof.
  unfold has_gum, getUserMedia. cbv [bind gets]. cbn [platform].
  destruct (navigator_mediaDevices (platform w)); try discriminate;
    destruct (get_prop _ "getUserMedia"); try discriminate; reflexivity.
Qed.

Lemma getUserMedia_absent w :
  has_gum (platform w) = false -> getUserMedia w = (w, Throw TypeError).
Proof.
  unfold has_gum, getUserMedia. cbv [bind gets]. cbn [platform].
  destruct (navigator_mediaDevices (platform w)); try reflexivity;
    destruct (get_prop _ "getUserMedia"); try discriminate; reflexivity.
Qed.

Lemma after_bind {A B X} (f : World -> X) (m : M A) (k : A -> M B) w :
  (forall a, keeps f (k a)) -> f (fst (bind m k w)) = f (fst (m w)).
Proof.
  intros Hk. unfold bind. destruct (m w) as [w1 [a|e]]; [apply Hk | reflexivity].
Qed.

Lemma after_try_catch {A X} (f : World -> X) (m : M A) (h : JSError -> M A) w :
  (forall e, keeps f (h e)) -> f (fst (try_catch m h w)) = f (fst (m w)).
Proof.
  intros Hh. unfold try_catch. destruct (m w) as [w1 [a|e]]; [reflexivity | apply Hh].
Qed.

Lemma bind_gets {A B} (g : World -> A) (k : A -> M B) w :
  bind (gets g) k w = k (g w) w.
Proof. reflexivity. Qed.

Lemma log_getUserMedia w :
  log (fst (getUserMedia w)) =
    log w ++ (if has_gum (platform w) then [GetUserMedia (length (heap w))] else []).
Proof.
  destruct (has_gum (platform w)) eqn:Hg.
  - now rewrite (getUserMedia_present w Hg).
  - rewrite (getUserMedia_absent w Hg). cbn. now rewrite app_nil_r.
Qed.

Lemma log_grabMic w : log (fst (grabMic w)) = log w ++ requested w.
Proof.
  unfold requested. destruct (userMedia w) as [p|] eqn:Hum.
  - rewrite (grabMic_memo w p Hum). cbn. now rewrite app_nil_r.
  - unfold grabMic. rewrite bind_gets, Hum.
    rewrite after_bind
      by (intros p; apply keeps_bind; [apply keeps_modify; reflexivity | intros ?; apply keeps_ret]).
    unfold new_Promise.
    rewrite (bind_normal alloc _ w _ _ eq_refl).
    rewrite after_bind by (intros ?; apply keeps_ret).
    rewrite after_try_catch by (intros e; apply (host_settle log log_blind)).
    rewrite after_bind.
    + rewrite log_getUserMedia. cbn [platform heap log set_heap].
      rewrite length_app. cbn. now rewrite Nat.add_1_r.
    + intros g. apply keeps_bind; [apply (host_promise_then log log_blind) | intros g1].
      apply keeps_bind; [apply (host_promise_catch log log_blind) | intros ?; apply keeps_ret].
Qed.

Lemma log_start w : log (fst (start w)) = log w ++ requested w.
Proof.
  unfold start. rewrite after_bind; [apply log_grabMic|].
  intros p. apply keeps_bind; [apply (host_promise_then log log_blind) | intros s1].
  apply keeps_bind; [apply (host_promise_catch log log_blind) | intros ?; apply keeps_ret].
Qed.

Lemma log_reset w :
  wav_only (listeners w) ->
  log (fst (reset w)) = log w ++ [Emit "inactive" VUndefined; Post MsgClear].
Proof.
  intros Hw. unfold reset.
  rewrite (bind_normal _ _ _ _ _ (_setState_plain w inactive Hw)).
  cbn. now rewrite <- app_assoc.
Qed.

Lemma log_onaudioprocess c0 cs w :
  log (fst (onaudioprocess c0 cs w)) =
    log w ++ match state w with
             | recording => [Post (MsgRecord [c0])]
             | inactive => []
             end.
Proof.
  cbv [onaudioprocess bind gets postMessage effect modify ret].
  destruct (state w); cbn; [now rewrite app_nil_r | reflexivity].
Qed.

Lemma bind_modify {B} (g : World -> World) (k : unit -> M B) w :
  bind (modify g) k w = k tt (g w).
Proof. reflexivity. Qed.

Lemma log_call_fulfilled k v w :
  log (fst (call_fulfilled k v w)) =
    log w ++ job_emits w ({| on_fulfilled := Some k; on_rejected := None;
                             derived := 0 |}, Fulfil v).
Proof.
  destruct k as [p|]; cbn [call_fulfilled job_emits on_fulfilled].
  - rewrite bind_modify, bind_gets. cbn [audioContext set_stream].
    destruct (audioContext w) as [ac|].
    + rewrite bind_modify. unfold postMessage, effect. rewrite bind_modify.
      unfold resolve. rewrite (host_settle log log_blind). reflexivity.
    + cbn. now rewrite app_nil_r.
  - apply log__setState.
Qed.

Lemma log_call_rejected k e w :
  log (fst (call_rejected k e w)) =
    log w ++ job_emits w ({| on_fulfilled := None; on_rejected := Some k;
                             derived := 0 |}, Reject e).
Proof.
  destruct k as [p|]; cbn [call_rejected job_emits on_rejected].
  - unfold reject. rewrite (host_settle log log_blind). now rewrite app_nil_r.
  - apply log_trigger.
Qed.

Lemma log_run_job j w : log (fst (run_job j w)) = log w ++ job_emits w j.
Proof.
  destruct j as [r [v|e]]; unfold run_job.
  - cbn [job_emits]. destruct (on_fulfilled r) as [k|].
    + rewrite after_try_catch by (intros e; apply (host_settle log log_blind)).
      rewrite after_bind by (intros ?; apply (host_settle log log_blind)).
      apply log_call_fulfilled.
    + unfold resolve. rewrite (host_settle log log_blind). now rewrite app_nil_r.
  - cbn [job_emits]. destruct (on_rejected r) as [k|].
    + rewrite after_try_catch by (intros e'; apply (host_settle log log_blind)).
      rewrite after_bind by (intros ?; apply (host_settle log log_blind)).
      rewrite log_call_rejected. destruct k; reflexivity.
    + unfold reject. rewrite (host_settle log log_blind). now rewrite app_nil_r.
Qed.

(** Every event adds to the log exactly what [emitted] says. *)
Lemma log_step w ev w' :
  wav_only (listeners w) -> step w ev = Some w' ->
  log w' = log w ++ emitted w ev.
Proof.
  intros Hw Hs. destruct ev; cbn [step emitted] in *.
  - injection Hs as <-. apply log_start.
  - injection Hs as <-. apply log__setState.
  - injection Hs as <-. now apply log_reset.
  - injection Hs as <-. rewrite (getWavURL_plain w Hw). reflexivity.
  - injection Hs as <-. apply log_grabMic.
  - destruct (_ && _); [|discriminate]. injection Hs as <-.
    unfold resolve. rewrite (host_settle log log_blind). now rewrite app_nil_r.
  - destruct (_ && _); [|discriminate]. injection Hs as <-.
    unfold reject. rewrite (host_settle log log_blind). now rewrite app_nil_r.
  - destruct (audioContext w); [|discriminate]. destruct (idle w); [|discriminate].
    injection Hs as <-. apply log_onaudioprocess.
  - destruct (idle w); [|discriminate]. injection Hs as <-. apply log_trigger.
  - destruct (jobs w) as [|j rest]; [discriminate|]. injection Hs as <-.
    rewrite log_run_job. reflexivity.
Qed.

(** ** What the methods leave of the recorder's own fields *)

Section RecorderOps.

Context {X : Type} (f : World -> X).
Hypothesis Hf : recorder_blind f.

Lemma rb_host : host_blind f.
Proof. apply Hf. Qed.

Lemma rb_effect e : keeps f (effect e).
Proof. intros w. apply Hf. Qed.

Lemma rb_trigger name d : keeps f (trigger name d).
Proof.
  unfold trigger. apply keeps_bind; [apply rb_effect | intros ?].
  apply keeps_bind; [apply keeps_gets | intros ls].
  apply keeps_bind; [apply keeps_modify; apply Hf | intros ?].
  apply (host_fire f rb_host).
Qed.

Lemma rb__setState s : keeps f (_setState s).
Proof.
  unfold _setState. apply keeps_bind; [apply keeps_modify; apply Hf | intros ?].
  apply keeps_bind; [apply keeps_gets | intros s']. apply rb_trigger.
Qed.

Lemma rb_reset : keeps f reset.
Proof.
  unfold reset. apply keeps_bind; [apply rb__setState | intros ?; apply rb_effect].
Qed.

Lemma rb_getWavURL : keeps f getWavURL.
Proof.
  unfold getWavURL. apply keeps_bind; [apply rb__setState | intros ?].
  apply keeps_bind; [| intros q; apply keeps_bind; [apply rb_effect | intros ?; apply keeps_ret]].
  unfold new_Promise. apply keeps_bind; [apply (host_alloc f rb_host) | intros q].
  apply keeps_bind; [| intros ?; apply keeps_ret].
  apply keeps_try_catch; [| intros e; apply (host_settle f rb_host)].
  unfold once. apply keeps_bind; [apply rb_effect | intros ?].
  apply keeps_modify. intros w. apply Hf.
Qed.

Lemma rb_getUserMedia : keeps f getUserMedia.
Proof.
  unfold getUserMedia. apply keeps_bind; [apply keeps_gets | intros p].
  assert (K : keeps f (g <- alloc;; effect (GetUserMedia g);; ret g)).
  { apply keeps_bind; [apply (host_alloc f rb_host) | intros g].
    apply keeps_bind; [apply rb_effect | intros ?; apply keeps_ret]. }
  destruct (navigator_mediaDevices p); try apply keeps_throw;
    destruct (get_prop _ _); try apply keeps_throw; exact K.
Qed.

Lemma rb_grabMic : keeps f grabMic.
Proof.
  unfold grabMic. apply keeps_bind; [apply keeps_gets | intros [p|]]; [apply keeps_ret|].
  apply keeps_bind; [| intros p].
  - unfold new_Promise. apply keeps_bind; [apply (host_alloc f rb_host) | intros p].
    apply keeps_bind; [| intros ?; apply keeps_ret].
    apply keeps_try_catch; [| intros e; apply (host_settle f rb_host)].
    apply keeps_bind; [apply rb_getUserMedia | intros g].
    apply keeps_bind; [apply (host_promise_then f rb_host) | intros g1].
    apply keeps_bind; [apply (host_promise_catch f rb_host) | intros ?; apply keeps_ret].
  - apply keeps_bind; [apply keeps_modify; apply Hf | intros ?; apply keeps_ret].
Qed.

Lemma rb_start : keeps f start.
Proof.
  unfold start. apply keeps_bind; [apply rb_grabMic | intros p].
  apply keeps_bind; [apply (host_promise_then f rb_host) | intros s1].
  apply keeps_bind; [apply (host_promise_catch f rb_host) | intros ?; apply keeps_ret].
Qed.

Lemma rb_onaudioprocess c0 cs : keeps f (onaudioprocess c0 cs).
Proof.
  unfold onaudioprocess. apply keeps_bind; [apply keeps_gets | intros [|]];
    [apply keeps_ret | apply rb_effect].
Qed.

Lemma rb_call_rejected k e : keeps f (call_rejected k e).
Proof. destruct k; [apply (host_settle f rb_host) | apply rb_trigger]. Qed.

Lemma rb_call_fulfilled k v w :
  f (fst (call_fulfilled k v w)) =
    f (match k, audioContext w with
       | K_gum_then _, Some _ => set_wired true w
       | _, _ => w
       end).
Proof.
  destruct k as [p|]; cbn [call_fulfilled]; [|apply rb__setState].
  rewrite bind_modify, bind_gets. cbn [audioContext set_stream].
  destruct (audioContext w) as [ac|].
  - rewrite bind_modify. unfold postMessage, effect. rewrite bind_modify.
    unfold resolve. rewrite (host_settle f rb_host).
    destruct Hf as (_ & _ & Hl & _ & _ & Hs).
    rewrite Hl. apply (Hs v (set_wired true w)).
  - cbn. apply Hf.
Qed.

Lemma rb_run_job j w :
  f (fst (run_job j w)) =
    f (if existsb is_init (job_emits w j) then set_wired true w else w).
Proof.
  destruct j as [r [v|e]]; unfold run_job; cbn [job_emits].
  - destruct (on_fulfilled r) as [k|].
    + rewrite after_try_catch by (intros e; apply (host_settle f rb_host)).
      rewrite after_bind by (intros ?; apply (host_settle f rb_host)).
      rewrite rb_call_fulfilled.
      destruct k; [destruct (audioContext w)|]; reflexivity.
    + apply (host_settle f rb_host).
  - destruct (on_rejected r) as [k|].
    + rewrite after_try_catch by (intros e'; apply (host_settle f rb_host)).
      rewrite after_bind by (intros ?; apply (host_settle f rb_host)).
      rewrite rb_call_rejected. destruct k; reflexivity.
    + apply (host_settle f rb_host).
Qed.

Lemma existsb_requested w : existsb is_init (requested w) = false.
Proof.
  unfold requested. destruct (userMedia w); [reflexivity|].
  destruct (has_gum (platform w)); reflexivity.
Qed.

(** An event changes a field that only construction and the success
    handler of [grabMic] assign in one way: the handler wires the
    pipeline, when it sends [init]. *)
Lemma rb_step w ev w' : step w ev = Some w' -> f w' = f (wire w ev).
Proof.
  unfold wire. intros Hs. destruct ev; cbn [step emitted] in *.
  - injection Hs as <-. rewrite existsb_requested. apply rb_start.
  - injection Hs as <-. apply rb__setState.
  - injection Hs as <-. apply rb_reset.
  - injection Hs as <-. apply rb_getWavURL.
  - injection Hs as <-. rewrite existsb_requested. apply rb_grabMic.
  - destruct (_ && _); [|discriminate]. injection Hs as <-.
    apply (host_settle f rb_host).
  - destruct (_ && _); [|discriminate]. injection Hs as <-.
    apply (host_settle f rb_host).
  - destruct (audioContext w); [|discriminate]. destruct (idle w); [|discriminate].
    injection Hs as <-. rewrite rb_onaudioprocess. destruct (state w); reflexivity.
  - destruct (idle w); [|discriminate]. injection Hs as <-. apply rb_trigger.
  - destruct (jobs w) as [|j rest]; [discriminate|]. injection Hs as <-.
    rewrite rb_run_job.
    change (job_emits (set_jobs rest w) j) with (job_emits w j).
    destruct (existsb is_init (job_emits w j)); [|apply Hf].
    destruct Hf as ((_ & Hj & _) & _). apply (Hj rest (set_wired true w)).
Qed.

End RecorderOps.

(** ** Induction over the life of a recorder *)

Lemma run_snoc evs : forall w ev w',
  run w (evs ++ [ev]) = Some w' ->
  exists w1, run w evs = Some w1 /\ step w1 ev = Some w'.
Proof.
  induction evs as [|e evs IH]; simpl; intros w ev w' H.
  - exists w. split; [reflexivity|]. destruct (step w ev); [exact H | discriminate].
  - destruct (step w e) as [w1|]; [|discriminate]. now apply IH.
Qed.

Lemma reachable_step w ev w' : reachable w -> step w ev = Some w' -> reachable w'.
Proof.
  intros Hw Hs. apply (reachable_run w [ev] w' Hw). simpl. now rewrite Hs.
Qed.

Lemma reachable_rect (Q : World -> Prop) :
  (forall p w, constructor p = Some w -> Q w) ->
  (forall w ev w', reachable w -> Q w -> step w ev = Some w' -> Q w') ->
  forall w, reachable w -> Q w.
Proof.
  intros H0 HS w (p & w0 & evs & Hc & Hr). revert w Hr.
  induction evs as [|ev evs IH] using rev_ind; intros w Hr.
  - injection Hr as <-. eapply H0, Hc.
  - apply run_snoc in Hr as (w1 & Hr & Hs).
    apply (HS w1 ev w); [exists p, w0, evs; auto | apply IH, Hr | exact Hs].
Qed.

Lemma constructor_new p w :
  constructor p = Some w ->
  w = set_audioContext
        (if to_boolean (supported p)
         then Some {| sampleRate := hardware_sampleRate p |} else None)
        (blank p).
Proof.
  unfold constructor.
  cbv [init bind gets new_AudioContext ret throw modify]. cbn.
  destruct (to_boolean (supported p)); cbn.
  - destruct (window_AudioContext p); cbn; try discriminate.
    now intros [= <-].
  - now intros [= <-].
Qed.

(** ** The audio context and the capture pipeline *)

Lemma fixed_blind : recorder_blind (fun w => (platform w, audioContext w)).
Proof. repeat split. Qed.

Lemma wired_blind : recorder_blind wired.
Proof. repeat split. Qed.

Lemma audio_step w ev w' :
  step w ev = Some w' ->
  platform w' = platform w /\ audioContext w' = audioContext w.
Proof.
  intros Hs. pose proof (rb_step _ fixed_blind w ev w' Hs) as H.
  unfold wire in H. destruct (existsb _ _); injection H; auto.
Qed.

Lemma audio_run evs : forall w w',
  run w evs = Some w' ->
  platform w' = platform w /\ audioContext w' = audioContext w.
Proof.
  induction evs as [|ev evs IH]; simpl; intros w w'.
  - intros [= <-]. auto.
  - destruct (step w ev) as [w1|] eqn:Hs; [|discriminate]. intros Hr.
    destruct (audio_step _ _ _ Hs) as [<- <-]. now apply IH.
Qed.

Lemma wired_step w ev w' :
  step w ev = Some w' ->
  wired w' = existsb is_init (emitted w ev) || wired w.
Proof.
  intros Hs. rewrite (rb_step _ wired_blind w ev w' Hs). unfold wire.
  destruct (existsb _ _); reflexivity.
Qed.

Lemma init_requested w sr nc : ~ In (Post (MsgInit sr nc)) (requested w).
Proof.
  unfold requested. destruct (userMedia w); [intros []|].
  destruct (has_gum (platform w)); [intros [H|[]]; discriminate | intros []].
Qed.

(** The only event that sends [init] is the success handler of [grabMic],
    and it sends the sample rate of the audio context and one channel. *)
Lemma init_emitted w ev sr nc :
  In (Post (MsgInit sr nc)) (emitted w ev) ->
  nc = config_numChannels /\
  audioContext w = Some {| sampleRate := sr |} /\
  existsb is_init (emitted w ev) = true /\
  exists r v rest p, ev = Microtask /\ jobs w = (r, Fulfil v) :: rest /\
    on_fulfilled r = Some (K_gum_then p).
Proof.
  destruct ev; cbn [emitted];
    try (intros H; exfalso; revert H; apply init_requested);
    try (intros H; repeat (destruct H as [H|H]; try discriminate H); now destruct H).
  - destruct (state w); intros H;
      repeat (destruct H as [H|H]; try discriminate H); now destruct H.
  - destruct (jobs w) as [|[r [v|e]] rest]; [intros [] | |]; cbn [job_emits].
    + destruct (on_fulfilled r) as [[p|]|] eqn:Hr.
      * destruct (audioContext w) as [[sr']|]; [|intros []].
        intros [H|[]]. injection H as <- <-. cbn.
        repeat split. exists r, v, rest, p. auto.
      * intros [H|[]]; discriminate.
      * intros [].
    + destruct (on_rejected r) as [[|]|]; intros H;
        repeat (destruct H as [H|H]; try discriminate H); now destruct H.
Qed.

Lemma audio_ok_reachable w : reachable w -> audio_ok w.
Proof.
  apply reachable_rect.
  - intros p w0 Hc. rewrite (constructor_new _ _ Hc). unfold audio_ok. reflexivity.
  - intros w0 ev w' _ H Hs. unfold audio_ok in *.
    destruct (audio_step _ _ _ Hs) as [-> ->]. exact H.
Qed.

Lemma inits_ok_reachable w : reachable w -> inits_ok w.
Proof.
  apply reachable_rect.
  - intros p w0 Hc. rewrite (constructor_new _ _ Hc). intros sr nc [].
  - intros w0 ev w' Hw H Hs sr nc Hin.
    rewrite (log_step w0 ev w' (Good_wav_only _ (reachable_Good _ Hw)) Hs) in Hin.
    destruct (audio_step _ _ _ Hs) as [_ ->]. rewrite (wired_step _ _ _ Hs).
    apply in_app_or in Hin as [Hin|Hin].
    + destruct (H sr nc Hin) as (-> & -> & ->). rewrite orb_true_r. auto.
    + destruct (init_emitted _ _ _ _ Hin) as (-> & -> & -> & _). auto.
Qed.

(** ** How the state changes *)

Lemma state_run_job j w :
  state (fst (run_job j w)) =
    match j with
    | (r, Fulfil _) =>
        match on_fulfilled r with
        | Some K_start_then => recording
        | _ => state w
        end
    | _ => state w
    end.
Proof.
  destruct j as [r [v|e]]; unfold run_job.
  - destruct (on_fulfilled r) as [[p|]|].
    + rewrite after_try_catch by (intros e; apply keeps_state_settle).
      rewrite after_bind by (intros ?; apply keeps_state_settle).
      apply keeps_state_gum_then.
    + rewrite after_try_catch by (intros e; apply keeps_state_settle).
      rewrite after_bind by (intros ?; apply keeps_state_settle).
      apply state__setState.
    + apply keeps_state_settle.
  - destruct (on_rejected r) as [k|].
    + rewrite after_try_catch by (intros e'; apply keeps_state_settle).
      rewrite after_bind by (intros ?; apply keeps_state_settle).
      apply keeps_state_call_rejected.
    + apply keeps_state_settle.
Qed.

Lemma state_step w ev w' : step w ev = Some w' -> state w' = next_state w ev.
Proof.
  intros Hs. destruct ev; cbn [step next_state] in *.
  - injection Hs as <-. apply keeps_state_start.
  - injection Hs as <-. apply state__setState.
  - injection Hs as <-. apply state_reset.
  - injection Hs as <-. apply state_getWavURL.
  - injection Hs as <-. apply keeps_state_grabMic.
  - destruct (_ && _); [|discriminate]. injection Hs as <-. apply keeps_state_settle.
  - destruct (_ && _); [|discriminate]. injection Hs as <-. apply keeps_state_settle.
  - destruct (audioContext w); [|discriminate]. destruct (idle w); [|discriminate].
    injection Hs as <-. apply keeps_state_onaudioprocess.
  - destruct (idle w); [|discriminate]. injection Hs as <-. apply keeps_state_trigger.
  - destruct (jobs w) as [|j rest]; [discriminate|]. injection Hs as <-.
    rewrite state_run_job. destruct j as [r [v|e]]; reflexivity.
Qed.

(** A changed state is announced in what the event adds to the log. *)
Lemma state_change_emitted w ev :
  next_state w ev <> state w ->
  In (Emit (state_name (next_state w ev)) VUndefined) (emitted w ev).
Proof.
  destruct ev; cbn [next_state emitted]; try congruence;
    try (intros _; now left).
  destruct (jobs w) as [|[r [v|e]] rest]; try congruence.
  cbn [job_emits]. destruct (on_fulfilled r) as [[p|]|]; try congruence.
  intros _. now left.
Qed.

(** ** What is sent to the encoder *)

Lemma posted_requested w : posted (requested w) = [].
Proof.
  unfold requested. destruct (userMedia w); [reflexivity|].
  destruct (has_gum (platform w)); reflexivity.
Qed.

Lemma posted_job_emits w j :
  List.filter is_clear (posted (job_emits w j)) = [] /\
  List.filter is_export (posted (job_emits w j)) = [].
Proof.
  destruct j as [r [v|e]]; cbn [job_emits].
  - destruct (on_fulfilled r) as [[p|]|]; [destruct (audioContext w)| |]; auto.
  - destruct (on_rejected r) as [[|]|]; auto.
Qed.

Lemma number_app {X} (f : X -> bool) l1 l2 :
  number f (l1 ++ l2) = number f l1 + number f l2.
Proof. unfold number. now rewrite List.filter_app, length_app. Qed.

Lemma clear_emitted w ev :
  number is_clear (posted (emitted w ev)) = number is_call_reset [ev].
Proof.
  unfold number. destruct ev; cbn [emitted];
    rewrite ?posted_requested; try reflexivity.
  - destruct (state w); reflexivity.
  - destruct (jobs w) as [|j rest]; [reflexivity|].
    now rewrite (proj1 (posted_job_emits w j)).
Qed.

Lemma export_emitted w ev :
  number is_export (posted (emitted w ev)) = number is_call_getWavURL [ev].
Proof.
  unfold number. destruct ev; cbn [emitted];
    rewrite ?posted_requested; try reflexivity.
  - destruct (state w); reflexivity.
  - destruct (jobs w) as [|j rest]; [reflexivity|].
    now rewrite (proj2 (posted_job_emits w j)).
Qed.

Lemma commands_run evs : forall w w',
  Good w -> run w evs = Some w' ->
  number is_clear (posted (log w')) =
    number is_clear (posted (log w)) + number is_call_reset evs /\
  number is_export (posted (log w')) =
    number is_export (posted (log w)) + number is_call_getWavURL evs.
Proof.
  induction evs as [|ev evs IH]; simpl; intros w w' Hw.
  - intros [= <-]. unfold number at 3 6. simpl. lia.
  - destruct (step w ev) as [w1|] eqn:Hs; [|discriminate]. intros Hr.
    destruct (step_sound _ _ _ Hw Hs) as [Hw1 _].
    destruct (IH _ _ Hw1 Hr) as [-> ->].
    rewrite (log_step w ev w1 (Good_wav_only _ Hw) Hs), posted_app, !number_app.
    rewrite clear_emitted, export_emitted.
    change (ev :: evs) with ([ev] ++ evs). rewrite !number_app. lia.
Qed.

(** ** Frames *)

Lemma onaudioprocess_recording c0 cs w :
  state w = recording ->
  onaudioprocess c0 cs w = (set_log (log w ++ [Post (MsgRecord [c0])]) w, Normal tt).
Proof. intros H. unfold onaudioprocess. rewrite bind_gets, H. reflexivity. Qed.

Lemma onaudioprocess_inactive c0 cs w :
  state w = inactive -> onaudioprocess c0 cs w = (w, Normal tt).
Proof. intros H. unfold onaudioprocess. rewrite bind_gets, H. reflexivity. Qed.

Lemma set_log_twice l1 l2 w : set_log l2 (set_log l1 w) = set_log l2 w.
Proof. reflexivity. Qed.

Lemma set_log_same w : set_log (log w) w = w.
Proof. destruct w; reflexivity. Qed.

Lemma frames_recording fs : forall w ac,
  audioContext w = Some ac -> jobs w = [] -> state w = recording ->
  run w (frame_events fs) = Some (set_log (log w ++ record_messages fs) w).
Proof.
  induction fs as [|[c0 cs] fs IH]; intros w ac Ha Hj Hs.
  - cbn. now rewrite app_nil_r, set_log_same.
  - cbn [frame_events List.map run step fst snd]. unfold idle. rewrite Ha, Hj.
    rewrite (onaudioprocess_recording c0 cs w Hs). cbn [fst].
    rewrite (IH _ ac) by assumption. cbn [log set_log record_messages List.map fst].
    rewrite set_log_twice, <- app_assoc. reflexivity.
Qed.

Lemma frames_inactive fs : forall w ac,
  audioContext w = Some ac -> jobs w = [] -> state w = inactive ->
  run w (frame_events fs) = Some w.
Proof.
  induction fs as [|[c0 cs] fs IH]; intros w ac Ha Hj Hs; [reflexivity|].
  cbn [frame_events List.map run step fst snd]. unfold idle. rewrite Ha, Hj.
  rewrite (onaudioprocess_inactive c0 cs w Hs). cbn [fst]. now apply (IH w ac).
Qed.

Lemma recording_ready w :
  reachable w -> state w = recording ->
  to_boolean (supported (platform w)) = true /\
  wired w = true /\
  audioContext w = Some {| sampleRate := hardware_sampleRate (platform w) |} /\
  In (Post (MsgInit (hardware_sampleRate (platform w)) config_numChannels)) (log w).
Proof.
  intros Hr Hs. destruct (reachable_Good w Hr) as [_ HI].
  pose proof (inv_init _ _ _ _ _ _ HI (inv_state _ _ _ _ _ _ HI Hs)) as Hi.
  apply has_init_In in Hi as (sr & nc & Hin).
  destruct (inits_ok_reachable w Hr sr nc Hin) as (Hw & -> & Ha).
  pose proof (audio_ok_reachable w Hr) as Hk. unfold audio_ok in Hk.
  rewrite Ha in Hk. destruct (to_boolean (supported (platform w))); [|discriminate].
  injection Hk as ->. auto.
Qed.

(** ** Signals from the worker *)

Section SignalOps.

Context {X : Type} (f : World -> X).
Hypothesis Hf : signal_blind f.

Lemma sb_trigger name d : keeps f (trigger name d).
Proof.
  destruct Hf as (Hh & Hl & Hg).
  unfold trigger. apply keeps_bind; [intros w; apply Hg | intros ?].
  apply keeps_bind; [apply keeps_gets | intros ls].
  apply keeps_bind; [apply keeps_modify; apply Hl | intros ?].
  apply (host_fire f Hh).
Qed.

End SignalOps.

Lemma fields_blind : signal_blind recorder_fields.
Proof. repeat split. Qed.

Lemma wav_only_drop ls :
  wav_only ls ->
  List.filter (fun nl => negb (listens "wav-delivered" nl)) ls = [].
Proof.
  intros Hw. induction ls as [|[n k] ls IH]; [reflexivity|].
  simpl. unfold listens at 1. simpl. rewrite (Hw n k) by now left.
  simpl. apply IH. intros n' k' Hin. apply (Hw n' k'). now right.
Qed.

Lemma listeners_trigger_wav d w :
  wav_only (listeners w) ->
  listeners (fst (trigger "wav-delivered" d w)) = [].
Proof.
  intros Hw. unfold trigger. cbv [bind effect gets modify]. cbn [listeners set_log].
  rewrite (host_fire listeners listeners_blind). cbn. now apply wav_only_drop.
Qed.

(** ** The first call on a platform without [getUserMedia] *)

Lemma grabMic_absent w :
  userMedia w = None -> has_gum (platform w) = false ->
  grabMic w =
    (set_userMedia (Some (length (heap w)))
       (set_heap (heap w ++ [Settled (Reject TypeError)]) w),
     Normal (length (heap w))).
Proof.
  intros Hum Hg. unfold grabMic. rewrite bind_gets, Hum.
  cbv [new_Promise bind alloc try_catch].
  rewrite (getUserMedia_absent (set_heap (heap w ++ [Pending []]) w) Hg).
  cbv [reject].
  erewrite settle_pending by (cbn [heap set_heap]; rewrite lookup_at_length; reflexivity).
  cbn [heap set_heap jobs set_jobs List.map modify ret].
  rewrite insert_at_length, app_nil_r. cbn [insert list_insert].
  destruct w; reflexivity.
Qed.

Lemma start_after_grabMic w w1 p :
  grabMic w = (w1, Normal p) -> userMedia w1 = Some p -> start w = start w1.
Proof.
  intros Hg Hum. unfold start.
  rewrite (bind_normal _ _ _ _ _ Hg).
  now rewrite (bind_normal _ _ _ _ _ (grabMic_memo w1 p Hum)).
Qed.

Lemma wired_is_init w : reachable w -> wired w = has_init (log w).
Proof.
  revert w. apply (reachable_rect (fun w => wired w = has_init (log w))).
  - intros p w0 Hc. rewrite (constructor_new _ _ Hc). reflexivity.
  - intros w0 ev w' Hw H Hs.
    rewrite (log_step w0 ev w' (Good_wav_only _ (reachable_Good _ Hw)) Hs).
    rewrite (wired_step _ _ _ Hs), H. unfold has_init. rewrite existsb_app.
    apply orb_comm.
Qed.

(** ** Promises allocated behind a heap [h] *)

Lemma lookup_up (h l : list Cell) k : (h ++ l) !! (k + length h) = l !! k.
Proof. rewrite Nat.add_comm. apply lookup_at_end. Qed.

Lemma insert_up (h l : list Cell) k c :
  <[k + length h := c]> (h ++ l) = h ++ <[k := c]> l.
Proof. rewrite Nat.add_comm. apply insert_app_r. Qed.

Lemma alloc_up h t w :
  heap w = h ++ t ->
  alloc w = (set_heap (h ++ (t ++ [Pending []])) w, Normal (length t + length h)).
Proof.
  intros Hh. unfold alloc. rewrite Hh, length_app, <- app_assoc.
  now rewrite (Nat.add_comm (length h)).
Qed.

Lemma subscribe_up h t k rs r w :
  heap w = h ++ t -> t !! k = Some (Pending rs) ->
  subscribe (k + length h) r w =
    (set_heap (h ++ <[k := Pending (rs ++ [r])]> t) w, Normal tt).
Proof.
  intros Hh Hk. unfold subscribe. rewrite Hh, lookup_up, Hk, insert_up. reflexivity.
Qed.

Lemma settle_up h t k rs o w :
  heap w = h ++ t -> t !! k = Some (Pending rs) ->
  settle (k + length h) o w =
    (set_jobs (jobs w ++ List.map (fun r => (r, o)) rs)
       (set_heap (h ++ <[k := Settled o]> t) w), Normal tt).
Proof.
  intros Hh Hk. unfold settle. rewrite Hh, lookup_up, Hk, insert_up. reflexivity.
Qed.

Lemma promise_then_up h t k rs f w :
  heap w = h ++ t -> t !! k = Some (Pending rs) ->
  promise_then (k + length h) f w =
    (set_heap (h ++ <[k := Pending (rs ++ [{| on_fulfilled := Some f;
                                              on_rejected := None;
                                              derived := length t + length h |}])]>
                      (t ++ [Pending []])) w,
     Normal (length t + length h)).
Proof.
  intros Hh Hk. unfold promise_then.
  rewrite (bind_normal _ _ _ _ _ (alloc_up h t w Hh)).
  erewrite bind_normal; [reflexivity|].
  erewrite subscribe_up; [reflexivity | reflexivity |].
  rewrite lookup_app_l by (eapply lookup_lt_Some; eauto). exact Hk.
Qed.

Lemma promise_catch_up h t k rs g w :
  heap w = h ++ t -> t !! k = Some (Pending rs) ->
  promise_catch (k + length h) g w =
    (set_heap (h ++ <[k := Pending (rs ++ [{| on_fulfilled := None;
                                              on_rejected := Some g;
                                              derived := length t + length h |}])]>
                      (t ++ [Pending []])) w,
     Normal (length t + length h)).
Proof.
  intros Hh Hk. unfold promise_catch.
  rewrite (bind_normal _ _ _ _ _ (alloc_up h t w Hh)).
  erewrite bind_normal; [reflexivity|].
  erewrite subscribe_up; [reflexivity | reflexivity |].
  rewrite lookup_app_l by (eapply lookup_lt_Some; eauto). exact Hk.
Qed.

Lemma try_catch_normal {A} (m : M A) (h : JSError -> M A) w w1 a :
  m w = (w1, Normal a) -> try_catch m h w = (w1, Normal a).
Proof. intros H. unfold try_catch. now rewrite H. Qed.

Lemma try_catch_throw {A} (m : M A) (h : JSError -> M A) w w1 e :
  m w = (w1, Throw e) -> try_catch m h w = h e w1.
Proof. intros H. unfold try_catch. now rewrite H. Qed.

Lemma bind_throw {A B} (m : M A) (k : A -> M B) w w1 e :
  m w = (w1, Throw e) -> bind m k w = (w1, Throw e).
Proof. intros H. unfold bind. now rewrite H. Qed.

(** The first [grabMic()] where [getUserMedia] exists: four promises, one
    permission request. *)
Lemma grabMic_fresh w :
  userMedia w = None -> has_gum (platform w) = true ->
  grabMic w =
    (set_userMedia (Some (length (heap w)))
       (set_log (log w ++ [GetUserMedia (S (length (heap w)))])
          (set_heap (heap w ++ [Pending []; Pending [gum_then (length (heap w))];
                                Pending [gum_catch (length (heap w))]; Pending []])
             w)),
     Normal (length (heap w))).
Proof.
  intros Hum Hg. unfold grabMic. rewrite bind_gets, Hum.
  set (h := heap w).
  unfold new_Promise.
  erewrite bind_normal; [reflexivity|].
  rewrite (bind_normal _ _ _ _ _ (alloc_up h [] w (eq_sym (app_nil_r h)))).
  cbn [app length Nat.add].
  erewrite bind_normal; [reflexivity|].
  apply try_catch_normal.
  rewrite (bind_normal _ _ _ _ _
             (getUserMedia_present (set_heap (h ++ [Pending []]) w) Hg)).
  cbn [heap set_heap log set_log]. rewrite length_app. cbn [length].
  rewrite (Nat.add_comm (length h) 1).
  erewrite (bind_normal _ _ _ _ _
              (promise_then_up h [Pending []; Pending []] 1 [] _ _ _ _)).
  cbn [heap set_heap log set_log app length Nat.add insert list_insert].
  erewrite (bind_normal _ _ _ _ _
              (promise_catch_up h [Pending []; Pending [_]; Pending []] 2 [] _ _ _ _)).
  cbn [heap set_heap log set_log app length Nat.add insert list_insert].
  reflexivity.
  Unshelve.
  all: cbn [heap set_heap set_log]; try reflexivity.
  - now rewrite <- app_assoc.
Qed.

(** The first [start()] where [getUserMedia] exists. *)
Lemma start_fresh w :
  userMedia w = None -> has_gum (platform w) = true ->
  start w =
    (set_userMedia (Some (length (heap w)))
       (set_log (log w ++ [GetUserMedia (S (length (heap w)))])
          (set_heap (heap w ++ first_start_cells (length (heap w))) w)),
     Normal tt).
Proof.
  intros Hum Hg. unfold start.
  rewrite (bind_normal _ _ _ _ _ (grabMic_fresh w Hum Hg)).
  set (h := heap w).
  erewrite (bind_normal _ _ _ _ _
              (promise_then_up h [Pending []; Pending [_]; Pending [_]; Pending []]
                 0 [] _ _ _ _)).
  cbn [heap set_heap set_userMedia set_log app length Nat.add insert list_insert].
  erewrite (bind_normal _ _ _ _ _
              (promise_catch_up h [_; _; _; _; Pending []] 4 [] _ _ _ _)).
  cbn [heap set_heap set_userMedia set_log app length Nat.add insert list_insert].
  reflexivity.
  Unshelve.
  all: try (cbn [heap set_heap set_log set_userMedia]; reflexivity).
Qed.

Lemma gum_then_ready h t rs w ac v :
  heap w = h ++ t -> t !! 0 = Some (Pending rs) -> audioContext w = Some ac ->
  call_fulfilled (K_gum_then (length h)) v w =
    (set_jobs (jobs w ++ List.map (fun r => (r, Fulfil VUndefined)) rs)
       (set_heap (h ++ <[0 := Settled (Fulfil VUndefined)]> t)
          (set_log (log w ++ [Post (MsgInit (sampleRate ac) config_numChannels)])
             (set_wired true (set_stream v w)))),
     Normal tt).
Proof.
  intros Hh Ht Ha. cbn [call_fulfilled].
  rewrite bind_modify, bind_gets. cbn [audioContext set_stream]. rewrite Ha.
  rewrite bind_modify. unfold postMessage, effect. rewrite bind_modify.
  unfold resolve.
  erewrite (settle_up h t 0); [reflexivity | exact Hh | exact Ht].
Qed.

Lemma gum_then_unready p w v :
  audioContext w = None ->
  call_fulfilled (K_gum_then p) v w = (set_stream v w, Throw TypeError).
Proof.
  intros Ha. cbn [call_fulfilled].
  rewrite bind_modify, bind_gets. cbn [audioContext set_stream]. rewrite Ha.
  reflexivity.
Qed.

(** ** Running events one at a time *)

Lemma run_cons w ev w1 evs : step w ev = Some w1 -> run w (ev :: evs) = run w1 evs.
Proof. intros H. cbn [run]. now rewrite H. Qed.

Lemma step_microtask w j rest w1 :
  jobs w = j :: rest -> run_job j (set_jobs rest w) = (w1, Normal tt) ->
  step w Microtask = Some w1.
Proof. intros Hj Hr. cbn [step]. now rewrite Hj, Hr. Qed.

Lemma step_gum_fulfil w h t rs s :
  jobs w = [] -> heap w = h ++ t -> existsb (is_gum (S (length h))) (log w) = true ->
  t !! 1 = Some (Pending rs) ->
  step w (Gum_fulfil (S (length h)) s) =
    Some (set_jobs (List.map (fun r => (r, Fulfil (VStream s))) rs)
            (set_heap (h ++ <[1 := Settled (Fulfil (VStream s))]> t) w)).
Proof.
  intros Hj Hh Hl Ht. cbn [step]. unfold idle. rewrite Hj, Hl, Hh.
  rewrite lookup_at_S_length, Ht. cbn [is_pending andb]. unfold resolve.
  pose proof (settle_up h t 1 rs (Fulfil (VStream s)) w Hh Ht) as E.
  cbn [Nat.add] in E. rewrite E. cbn [fst]. now rewrite Hj.
Qed.

Lemma step_gum_reject w h t rs name :
  jobs w = [] -> heap w = h ++ t -> existsb (is_gum (S (length h))) (log w) = true ->
  t !! 1 = Some (Pending rs) ->
  step w (Gum_reject (S (length h)) name) =
    Some (set_jobs (List.map (fun r => (r, Reject (ErrorObj name))) rs)
            (set_heap (h ++ <[1 := Settled (Reject (ErrorObj name))]> t) w)).
Proof.
  intros Hj Hh Hl Ht. cbn [step]. unfold idle. rewrite Hj, Hl, Hh.
  rewrite lookup_at_S_length, Ht. cbn [is_pending andb]. unfold reject.
  pose proof (settle_up h t 1 rs (Reject (ErrorObj name)) w Hh Ht) as E.
  cbn [Nat.add] in E. rewrite E. cbn [fst]. now rewrite Hj.
Qed.

Lemma run_job_handled r v k w w1 w2 :
  on_fulfilled r = Some k ->
  call_fulfilled k v w = (w1, Normal tt) ->
  settle (derived r) (Fulfil VUndefined) w1 = (w2, Normal tt) ->
  run_job (r, Fulfil v) w = (w2, Normal tt).
Proof.
  intros Hk Hc Hs. unfold run_job. rewrite Hk.
  apply try_catch_normal. now rewrite (bind_normal _ _ _ _ _ Hc).
Qed.

Lemma run_job_thrown r v k w w1 e :
  on_fulfilled r = Some k ->
  call_fulfilled k v w = (w1, Throw e) ->
  run_job (r, Fulfil v) w = settle (derived r) (Reject e) w1.
Proof.
  intros Hk Hc. unfold run_job. rewrite Hk.
  erewrite try_catch_throw; [reflexivity|]. now apply bind_throw.
Qed.

Lemma run_job_passed r v w :
  on_fulfilled r = None ->
  run_job (r, Fulfil v) w = settle (derived r) (Fulfil v) w.
Proof. intros Hk. unfold run_job. now rewrite Hk. Qed.

Lemma run_job_caught r e k w w1 w2 :
  on_rejected r = Some k ->
  call_rejected k e w = (w1, Normal tt) ->
  settle (derived r) (Fulfil VUndefined) w1 = (w2, Normal tt) ->
  run_job (r, Reject e) w = (w2, Normal tt).
Proof.
  intros Hk Hc Hs. unfold run_job. rewrite Hk.
  apply try_catch_normal. now rewrite (bind_normal _ _ _ _ _ Hc).
Qed.

Lemma run_job_failed r e w :
  on_rejected r = None ->
  run_job (r, Reject e) w = settle (derived r) (Reject e) w.
Proof. intros Hk. unfold run_job. now rewrite Hk. Qed.

(** Bringing a world built by setters from a record back to a record. *)
Ltac tidy :=
  cbn [set_audioContext set_state set_userMedia set_stream set_wired set_heap
       set_jobs set_listeners set_object_urls set_log
       platform audioContext state userMedia stream wired heap jobs listeners
       object_urls log app List.map].

Lemma grant_run w h s ac :
  heap w = h ++ first_start_cells (length h) -> jobs w = [] ->
  existsb (is_gum (S (length h))) (log w) = true ->
  wav_only (listeners w) -> audioContext w = Some ac ->
  run w [Gum_fulfil (S (length h)) s; Microtask; Microtask; Microtask; Microtask] =
    Some (set_log (log w ++ [Post (MsgInit (sampleRate ac) config_numChannels);
                             Emit "recording" VUndefined])
            (set_state recording
               (set_wired true
                  (set_stream (VStream s)
                     (set_heap (h ++ [Settled (Fulfil VUndefined);
                                      Settled (Fulfil (VStream s));
                                      Settled (Fulfil VUndefined);
                                      Settled (Fulfil VUndefined);
                                      Settled (Fulfil VUndefined);
                                      Settled (Fulfil VUndefined)]) w))))).
Proof.
  intros Hh Hj Hl Hw Ha.
  destruct w as [pf au st um sm wi hp jb ls ou lg]. cbn in Hh, Hj, Hl, Hw, Ha. subst.
  etransitivity.
  { apply run_cons. eapply (step_gum_fulfil _ h); [reflexivity | reflexivity | exact Hl | reflexivity]. }
  tidy. etransitivity.
  { apply run_cons. eapply step_microtask; [reflexivity|].
    eapply run_job_handled; [reflexivity | |].
    - eapply (gum_then_ready h); reflexivity.
    - eapply (settle_up h _ 2); reflexivity. }
  tidy. etransitivity.
  { apply run_cons. eapply step_microtask; [reflexivity|].
    eapply run_job_handled; [reflexivity | |].
    - apply _setState_plain. exact Hw.
    - eapply (settle_up h _ 4); reflexivity. }
  tidy. etransitivity.
  { apply run_cons. eapply step_microtask; [reflexivity|].
    rewrite run_job_passed by reflexivity.
    eapply (settle_up h _ 3); reflexivity. }
  tidy. etransitivity.
  { apply run_cons. eapply step_microtask; [reflexivity|].
    rewrite run_job_passed by reflexivity.
    eapply (settle_up h _ 5); reflexivity. }
  tidy. cbn [run]. rewrite <- app_assoc. reflexivity.
Qed.

Lemma refusal_run w h name :
  heap w = h ++ first_start_cells (length h) -> jobs w = [] ->
  existsb (is_gum (S (length h))) (log w) = true ->
  wav_only (listeners w) ->
  run w [Gum_reject (S (length h)) name; Microtask; Microtask; Microtask; Microtask] =
    Some (set_log (log w ++ [Emit "blocked" VUndefined])
            (set_heap
               (h ++ [Settled (Reject (GrantFailure (_errorToCode (ErrorObj name))
                                         (ErrorObj name)));
                      Settled (Reject (ErrorObj name));
                      Settled (Reject (ErrorObj name));
                      Settled (Fulfil VUndefined);
                      Settled (Reject (GrantFailure (_errorToCode (ErrorObj name))
                                         (ErrorObj name)));
                      Settled (Fulfil VUndefined)]) w)).
Proof.
  intros Hh Hj Hl Hw.
  destruct w as [pf au st um sm wi hp jb ls ou lg]. cbn in Hh, Hj, Hl, Hw. subst.
  etransitivity.
  { apply run_cons. eapply (step_gum_reject _ h); [reflexivity | reflexivity | exact Hl | reflexivity]. }
  tidy. etransitivity.
  { apply run_cons. eapply step_microtask; [reflexivity|].
    rewrite run_job_failed by reflexivity.
    eapply (settle_up h _ 2); reflexivity. }
  tidy. etransitivity.
  { apply run_cons. eapply step_microtask; [reflexivity|].
    eapply run_job_caught; [reflexivity | |].
    - eapply (settle_up h _ 0); reflexivity.
    - eapply (settle_up h _ 3); reflexivity. }
  tidy. etransitivity.
  { apply run_cons. eapply step_microtask; [reflexivity|].
    rewrite run_job_failed by reflexivity.
    eapply (settle_up h _ 4); reflexivity. }
  tidy. etransitivity.
  { apply run_cons. eapply step_microtask; [reflexivity|].
    eapply run_job_caught; [reflexivity | |].
    - apply trigger_plain; [exact Hw | reflexivity].
    - eapply (settle_up h _ 5); reflexivity. }
  tidy. cbn [run]. reflexivity.
Qed.

Lemma unready_run w h s :
  heap w = h ++ first_start_cells (length h) -> jobs w = [] ->
  existsb (is_gum (S (length h))) (log w) = true ->
  wav_only (listeners w) -> audioContext w = None ->
  run w [Gum_fulfil (S (length h)) s; Microtask; Microtask; Microtask; Microtask] =
    Some (set_log (log w ++ [Emit "blocked" VUndefined])
            (set_stream (VStream s)
               (set_heap
                  (h ++ [Settled (Reject (GrantFailure (VString "unknown") TypeError));
                         Settled (Fulfil (VStream s));
                         Settled (Reject TypeError);
                         Settled (Fulfil VUndefined);
                         Settled (Reject (GrantFailure (VString "unknown") TypeError));
                         Settled (Fulfil VUndefined)]) w))).
Proof.
  intros Hh Hj Hl Hw Ha.
  destruct w as [pf au st um sm wi hp jb ls ou lg]. cbn in Hh, Hj, Hl, Hw, Ha. subst.
  etransitivity.
  { apply run_cons. eapply (step_gum_fulfil _ h); [reflexivity | reflexivity | exact Hl | reflexivity]. }
  tidy. etransitivity.
  { apply run_cons. eapply step_microtask; [reflexivity|].
    erewrite run_job_thrown; [| reflexivity | apply gum_then_unready; reflexivity].
    eapply (settle_up h _ 2); reflexivity. }
  tidy. etransitivity.
  { apply run_cons. eapply step_microtask; [reflexivity|].
    eapply run_job_caught; [reflexivity | |].
    - eapply (settle_up h _ 0); reflexivity.
    - eapply (settle_up h _ 3); reflexivity. }
  tidy. etransitivity.
  { apply run_cons. eapply step_microtask; [reflexivity|].
    rewrite run_job_failed by reflexivity.
    eapply (settle_up h _ 4); reflexivity. }
  tidy. etransitivity.
  { apply run_cons. eapply step_microtask; [reflexivity|].
    eapply run_job_caught; [reflexivity | |].
    - apply trigger_plain; [exact Hw | reflexivity].
    - eapply (settle_up h _ 5); reflexivity. }
  tidy. cbn [run]. reflexivity.
Qed.

Lemma first_start_step w :
  reachable w -> jobs w = [] -> userMedia w = None ->
  has_gum (platform w) = true ->
  exists wA,
    step w Call_start = Some wA /\
    heap wA = heap w ++ first_start_cells (length (heap w)) /\
    jobs wA = [] /\
    existsb (is_gum (S (length (heap w)))) (log wA) = true /\
    wav_only (listeners wA) /\
    wA = set_userMedia (Some (length (heap w)))
           (set_log (log w ++ [GetUserMedia (S (length (heap w)))])
              (set_heap (heap w ++ first_start_cells (length (heap w))) w)).
Proof.
  intros Hr Hj Hum Hg. eexists. split; [|split; [|split; [|split; [|split]]]].
  - cbn [step]. rewrite (start_fresh w Hum Hg). cbn [fst]. reflexivity.
  - reflexivity.
  - exact Hj.
  - unfold set_userMedia, set_log. cbn [log]. rewrite existsb_app.
    cbn [existsb is_gum]. now rewrite Nat.eqb_refl, orb_true_r.
  - apply (Good_wav_only w (reachable_Good w Hr)).
  - reflexivity.
Qed.

Lemma unmemoized_inactive w : reachable w -> userMedia w = None -> state w = inactive.
Proof.
  intros Hr Hum. destruct (reachable_Good w Hr) as [_ HI].
  destruct (state w) eqn:Hs; [reflexivity|].
  destruct (inv_state _ _ _ _ _ _ HI eq_refl) as (p & v & Hp & _). congruence.
Qed.

(** ** The encoder is initialised once *)

Lemma heap_tokens_app h1 h2 : heap_tokens (h1 ++ h2) = heap_tokens h1 + heap_tokens h2.
Proof. unfold heap_tokens. now rewrite List.map_app, list_sum_app. Qed.

Lemma heap_tokens_cons c h : heap_tokens (c :: h) = cell_tokens c + heap_tokens h.
Proof. reflexivity. Qed.

Lemma heap_tokens_insert h : forall p c c',
  h !! p = Some c ->
  heap_tokens (<[p := c']> h) + cell_tokens c = heap_tokens h + cell_tokens c'.
Proof.
  induction h as [|x h IH]; intros p c c' Hp; [discriminate|].
  destruct p as [|p].
  - injection Hp as ->.
    change (heap_tokens (c' :: h) + cell_tokens c =
            heap_tokens (c :: h) + cell_tokens c').
    rewrite 2!heap_tokens_cons. lia.
  - change (heap_tokens (x :: <[p := c']> h) + cell_tokens c =
            heap_tokens (x :: h) + cell_tokens c').
    rewrite 2!heap_tokens_cons. specialize (IH p c c' Hp). lia.
Qed.

Lemma job_tokens_app j1 j2 : job_tokens (j1 ++ j2) = job_tokens j1 + job_tokens j2.
Proof. apply number_app. Qed.

Lemma job_tokens_map rs o :
  job_tokens (List.map (fun r => (r, o)) rs) = number is_gum_then rs.
Proof.
  unfold job_tokens, number. induction rs as [|r rs IH]; [reflexivity|].
  cbn. destruct (is_gum_then r); cbn; now rewrite IH.
Qed.

Lemma spends_ret {A} (a : A) : spends (ret a) 0.
Proof. intros w. cbn. lia. Qed.

Lemma spends_throw {A} e : spends (@throw A e) 0.
Proof. intros w. cbn. lia. Qed.

Lemma spends_gets {A} (g : World -> A) : spends (gets g) 0.
Proof. intros w. cbn. lia. Qed.

Lemma spends_weaken {A} (m : M A) a b : spends m a -> a <= b -> spends m b.
Proof. intros H Hab w. specialize (H w). lia. Qed.

Lemma spends_bind {A B} (m : M A) (k : A -> M B) a b :
  spends m a -> (forall x, spends (k x) b) -> spends (bind m k) (a + b).
Proof.
  intros Hm Hk w. unfold bind. specialize (Hm w).
  destruct (m w) as [w1 [x|e]]; cbn [fst] in *; [|lia].
  specialize (Hk x w1). lia.
Qed.

Lemma spends_try_catch {A} (m : M A) (h : JSError -> M A) a b :
  spends m a -> (forall e, spends (h e) b) -> spends (try_catch m h) (a + b).
Proof.
  intros Hm Hh w. unfold try_catch. specialize (Hm w).
  destruct (m w) as [w1 [x|e]]; cbn [fst] in *; [lia|].
  specialize (Hh e w1). lia.
Qed.

Lemma spends_modify (g : World -> World) :
  (forall w, log (g w) = log w /\ heap (g w) = heap w /\ jobs (g w) = jobs w) ->
  spends (modify g) 0.
Proof.
  intros Hg w. destruct (Hg w) as (Hl & Hh & Hj). unfold modify, tokens. cbn [fst].
  rewrite Hl, Hh, Hj. lia.
Qed.

Lemma spends_alloc : spends alloc 0.
Proof.
  intros w. unfold alloc, tokens. cbn [fst log heap jobs set_heap].
  rewrite heap_tokens_app. unfold heap_tokens at 2. cbn. lia.
Qed.

Lemma spends_settle p o : spends (settle p o) 0.
Proof.
  intros w. unfold settle. destruct (heap w !! p) as [[rs|]|] eqn:Hp; cbn [fst]; try lia.
  unfold tokens. cbn [log heap jobs set_heap set_jobs].
  rewrite job_tokens_app, job_tokens_map.
  pose proof (heap_tokens_insert (heap w) p _ (Settled o) Hp) as H. cbn in H. lia.
Qed.

Lemma spends_subscribe p r :
  spends (subscribe p r) (if is_gum_then r then 1 else 0).
Proof.
  intros w. unfold subscribe. destruct (heap w !! p) as [[rs|o]|] eqn:Hp; cbn [fst]; try lia.
  - unfold tokens. cbn [log heap jobs set_heap].
    pose proof (heap_tokens_insert (heap w) p _ (Pending (rs ++ [r])) Hp) as H.
    cbn [cell_tokens] in H. rewrite number_app in H.
    unfold number at 3 in H. cbn in H. destruct (is_gum_then r); cbn in H; lia.
  - unfold tokens. cbn [log heap jobs set_jobs]. rewrite job_tokens_app.
    unfold job_tokens at 2, number. cbn. destruct (is_gum_then r); cbn; lia.
Qed.

Lemma spends_effect e : spends (effect e) (if is_init e then 1 else 0).
Proof.
  intros w. unfold effect, modify, tokens. cbn [fst log heap jobs set_log].
  rewrite number_app, gum_calls_app. unfold number at 2. cbn.
  destruct (is_init e), (is_request e); cbn; lia.
Qed.

Lemma spends_promise_then p k :
  spends (promise_then p k) (match k with K_gum_then _ => 1 | K_start_then => 0 end).
Proof.
  unfold promise_then. apply (spends_bind _ _ 0 _ spends_alloc). intros d.
  eapply spends_weaken.
  - apply spends_bind; [apply spends_subscribe | intros ?; apply spends_ret].
  - destruct k; cbn; lia.
Qed.

Lemma spends_promise_catch p k : spends (promise_catch p k) 0.
Proof.
  unfold promise_catch. apply (spends_bind _ _ 0 0 spends_alloc). intros d.
  apply (spends_bind _ _ 0 0); [apply (spends_subscribe p) | intros ?; apply spends_ret].
Qed.

Lemma spends_fire due d : spends (fire due d) 0.
Proof.
  induction due as [|[q] due IH]; [apply spends_ret|].
  change (fire (L_wav_resolve q :: due) d)
    with (invoke (L_wav_resolve q) d ;; fire due d).
  apply (spends_bind _ _ 0 0); [|intros ?; exact IH].
  unfold invoke. apply (spends_bind _ _ 0 0); [|intros ?; apply spends_settle].
  unfold createObjectURL. destruct d; try apply spends_throw.
  apply (spends_bind _ _ 0 0); [apply spends_gets | intros urls].
  apply (spends_bind _ _ 0 0); [apply spends_modify; auto | intros ?; apply spends_ret].
Qed.

Lemma spends_trigger name d : spends (trigger name d) 0.
Proof.
  unfold trigger. apply (spends_bind _ _ 0 0); [apply (spends_effect (Emit name d)) | intros ?].
  apply (spends_bind _ _ 0 0); [apply spends_gets | intros ls].
  apply (spends_bind _ _ 0 0); [apply spends_modify; auto | intros ?].
  apply spends_fire.
Qed.

Lemma spends__setState s : spends (_setState s) 0.
Proof.
  unfold _setState. apply (spends_bind _ _ 0 0); [apply spends_modify; auto | intros ?].
  apply (spends_bind _ _ 0 0); [apply spends_gets | intros s'; apply spends_trigger].
Qed.

Lemma spends_reset : spends reset 0.
Proof.
  unfold reset. apply (spends_bind _ _ 0 0); [apply spends__setState | intros ?].
  apply (spends_effect (Post MsgClear)).
Qed.

Lemma spends_getWavURL : spends getWavURL 0.
Proof.
  unfold getWavURL, stop. apply (spends_bind _ _ 0 0); [apply spends__setState | intros ?].
  apply (spends_bind _ _ 0 0).
  - unfold new_Promise. apply (spends_bind _ _ 0 0 spends_alloc). intros q.
    apply (spends_bind _ _ 0 0); [| intros ?; apply spends_ret].
    apply (spends_try_catch _ _ 0 0); [| intros e; apply spends_settle].
    unfold once. apply (spends_bind _ _ 0 0).
    + apply (spends_effect (Once "wav-delivered" (L_wav_resolve q))).
    + intros ?. apply spends_modify. auto.
  - intros q. apply (spends_bind _ _ 0 0); [| intros ?; apply spends_ret].
    apply (spends_effect (Post MsgExportWav)).
Qed.

Lemma spends_grabMic : spends grabMic 0.
Proof.
  intros w. destruct (userMedia w) as [p|] eqn:Hum.
  - rewrite (grabMic_memo w p Hum). cbn [fst]. lia.
  - destruct (has_gum (platform w)) eqn:Hg.
    + rewrite (grabMic_fresh w Hum Hg). unfold tokens.
      cbn [fst log heap jobs set_userMedia set_log set_heap].
      rewrite number_app, gum_calls_app, heap_tokens_app. cbn. lia.
    + rewrite (grabMic_absent w Hum Hg). unfold tokens.
      cbn [fst log heap jobs set_userMedia set_log set_heap].
      rewrite heap_tokens_app. cbn. lia.
Qed.

Lemma spends_start : spends start 0.
Proof.
  unfold start. apply (spends_bind _ _ 0 0 spends_grabMic). intros p.
  apply (spends_bind _ _ 0 0 (spends_promise_then p K_start_then)). intros s1.
  apply (spends_bind _ _ 0 0 (spends_promise_catch s1 K_start_catch)).
  intros ?. apply spends_ret.
Qed.

Lemma spends_onaudioprocess c0 cs : spends (onaudioprocess c0 cs) 0.
Proof.
  unfold onaudioprocess. apply (spends_bind _ _ 0 0); [apply spends_gets | intros [|]].
  - apply spends_ret.
  - apply (spends_effect (Post (MsgRecord [c0]))).
Qed.

Lemma spends_call_fulfilled k v :
  spends (call_fulfilled k v) (match k with K_gum_then _ => 1 | K_start_then => 0 end).
Proof.
  destruct k as [p|]; cbn [call_fulfilled]; [|apply spends__setState].
  apply (spends_bind _ _ 0 1); [apply spends_modify; auto | intros ?].
  apply (spends_bind _ _ 0 1); [apply spends_gets | intros [ac|]].
  - apply (spends_bind _ _ 0 1); [apply spends_modify; auto | intros ?].
    apply (spends_bind _ _ 1 0).
    + apply (spends_effect (Post (MsgInit (sampleRate ac) config_numChannels))).
    + intros ?. apply spends_settle.
  - eapply spends_weaken; [apply spends_throw | lia].
Qed.

Lemma spends_call_rejected k e : spends (call_rejected k e) 0.
Proof. destruct k; [apply spends_settle | apply spends_trigger]. Qed.

Lemma spends_run_job r o :
  spends (run_job (r, o)) (if is_gum_then r then 1 else 0).
Proof.
  unfold run_job, is_gum_then. destruct o as [v|e].
  - destruct (on_fulfilled r) as [k|].
    + eapply spends_weaken.
      * apply spends_try_catch; [| intros e; apply spends_settle].
        apply spends_bind; [apply spends_call_fulfilled | intros ?; apply spends_settle].
      * destruct k; cbn; lia.
    + apply spends_settle.
  - eapply spends_weaken.
    + destruct (on_rejected r) as [k|]; [|apply spends_settle].
      apply (spends_try_catch _ _ 0 0); [| intros e'; apply spends_settle].
      apply (spends_bind _ _ 0 0); [apply spends_call_rejected | intros ?; apply spends_settle].
    + lia.
Qed.

Lemma tokens_step w ev w' :
  step w ev = Some w' ->
  tokens w' + gum_calls (log w) <= tokens w + gum_calls (log w').
Proof.
  intros Hs. destruct ev as [| | | | |g s|g nm|c0 cs|cmd b|]; cbn [step] in Hs.
  - injection Hs as <-. pose proof (spends_start w). lia.
  - injection Hs as <-. pose proof (spends__setState inactive w). unfold stop. lia.
  - injection Hs as <-. pose proof (spends_reset w). lia.
  - injection Hs as <-. pose proof (spends_getWavURL w). lia.
  - injection Hs as <-. pose proof (spends_grabMic w). lia.
  - destruct (_ && _); [|discriminate]. injection Hs as <-.
    pose proof (spends_settle g (Fulfil (VStream s)) w). unfold resolve. lia.
  - destruct (_ && _); [|discriminate]. injection Hs as <-.
    pose proof (spends_settle g (Reject (ErrorObj nm)) w). unfold reject. lia.
  - destruct (audioContext w); [|discriminate]. destruct (idle w); [|discriminate].
    injection Hs as <-. pose proof (spends_onaudioprocess c0 cs w). lia.
  - destruct (idle w); [|discriminate]. injection Hs as <-.
    pose proof (spends_trigger cmd b w). unfold onmessage. lia.
  - destruct (jobs w) as [|[r o] rest] eqn:Hj; [discriminate|].
    pose proof (spends_run_job r o (set_jobs rest w)) as H.
    assert (E : w' = fst (run_job (r, o) (set_jobs rest w))) by congruence.
    rewrite <- E in H. clear E Hs.
    unfold tokens at 2 in H. cbn [log heap jobs set_jobs] in H.
    assert (E : job_tokens (jobs w) = (if is_gum_then r then 1 else 0) + job_tokens rest).
    { rewrite Hj. unfold job_tokens, number. cbn [List.filter fst].
      destruct (is_gum_then r); reflexivity. }
    unfold tokens at 2. lia.
Qed.

Lemma tokens_reachable w : reachable w -> tokens w <= gum_calls (log w).
Proof.
  revert w. apply (reachable_rect (fun w => tokens w <= gum_calls (log w))).
  - intros p w Hc. rewrite (constructor_new _ _ Hc). cbn. lia.
  - intros w ev w' _ H Hs. pose proof (tokens_step w ev w' Hs). lia.
Qed.

(** ** [grabMic()] on its own *)

Lemma grab_run w h s ac :
  heap w = h ++ grabMic_cells (length h) -> jobs w = [] ->
  existsb (is_gum (S (length h))) (log w) = true ->
  audioContext w = Some ac ->
  run w [Gum_fulfil (S (length h)) s; Microtask; Microtask] =
    Some (set_log (log w ++ [Post (MsgInit (sampleRate ac) config_numChannels)])
            (set_wired true
               (set_stream (VStream s)
                  (set_heap (h ++ [Settled (Fulfil VUndefined);
                                   Settled (Fulfil (VStream s));
                                   Settled (Fulfil VUndefined);
                                   Settled (Fulfil VUndefined)]) w)))).
Proof.
  intros Hh Hj Hl Ha.
  destruct w as [pf au st um sm wi hp jb ls ou lg]. cbn in Hh, Hj, Hl, Ha. subst.
  etransitivity.
  { apply run_cons. eapply (step_gum_fulfil _ h); [reflexivity | reflexivity | exact Hl | reflexivity]. }
  tidy. etransitivity.
  { apply run_cons. eapply step_microtask; [reflexivity|].
    eapply run_job_handled; [reflexivity | |].
    - eapply (gum_then_ready h); reflexivity.
    - eapply (settle_up h _ 2); reflexivity. }
  tidy. etransitivity.
  { apply run_cons. eapply step_microtask; [reflexivity|].
    rewrite run_job_passed by reflexivity.
    eapply (settle_up h _ 3); reflexivity. }
  tidy. cbn [run]. reflexivity.
Qed.

Lemma reset_plain w :
  wav_only (listeners w) ->
  reset w =
    (set_log (log w ++ [Emit "inactive" VUndefined; Post MsgClear])
       (set_state inactive w), Normal tt).
Proof.
  intros Hw. unfold reset.
  rewrite (bind_normal _ _ _ _ _ (_setState_plain w inactive Hw)).
  unfold postMessage, effect, modify. cbn [log set_log set_state state_name].
  now rewrite <- app_assoc.
Qed.


(** ** The platform of a recorder *)

Lemma reachable_platform w :
  reachable w -> exists w0, constructor (platform w) = Some w0.
Proof.
  intros (p & w0 & evs & Hc & Hr). exists w0.
  destruct (audio_run evs w0 w Hr) as [-> _].
  assert (Hp : platform w0 = p) by (rewrite (constructor_new p w0 Hc); reflexivity).
  rewrite Hp. exact Hc.
Qed.

Lemma init_unconstructible w :
  to_boolean (supported (platform w)) = true ->
  (forall n, window_AudioContext (platform w) <> VFunction n) ->
  init w = (w, Throw TypeError).
Proof.
  intros Hs Hn. unfold init. rewrite bind_gets, Hs. cbn [negb].
  unfold new_AudioContext. cbv [bind gets].
  destruct (window_AudioContext (platform w)) eqn:Hwa; try reflexivity.
  now destruct (Hn name).
Qed.

(** ** The microtask queue drains *)

Lemma heap_reactions_cons c h :
  heap_reactions (c :: h) = cell_reactions c + heap_reactions h.
Proof. reflexivity. Qed.

Lemma heap_reactions_insert h : forall p c c',
  h !! p = Some c ->
  heap_reactions (<[p := c']> h) + cell_reactions c =
  heap_reactions h + cell_reactions c'.
Proof.
  induction h as [|x h IH]; intros p c c' Hp; [discriminate|].
  destruct p as [|p].
  - injection Hp as ->.
    change (heap_reactions (c' :: h) + cell_reactions c =
            heap_reactions (c :: h) + cell_reactions c').
    rewrite 2!heap_reactions_cons. lia.
  - change (heap_reactions (x :: <[p := c']> h) + cell_reactions c =
            heap_reactions (x :: h) + cell_reactions c').
    rewrite 2!heap_reactions_cons. specialize (IH p c c' Hp). lia.
Qed.

Lemma backlog_settle p o : keeps backlog (settle p o).
Proof.
  intros w. unfold settle. destruct (heap w !! p) as [[rs|]|] eqn:Hp; try reflexivity.
  unfold backlog. cbn [fst heap jobs set_heap set_jobs].
  rewrite length_app, length_map.
  pose proof (heap_reactions_insert (heap w) p _ (Settled o) Hp) as H.
  cbn [cell_reactions] in H. lia.
Qed.

Lemma backlog_effect e : keeps backlog (effect e).
Proof. intros w. reflexivity. Qed.

Lemma backlog_fire due d : keeps backlog (fire due d).
Proof.
  induction due as [|[q] due IH]; [intros w; reflexivity|].
  change (fire (L_wav_resolve q :: due) d)
    with (invoke (L_wav_resolve q) d ;; fire due d).
  apply keeps_bind; [|intros ?; exact IH].
  unfold invoke. apply keeps_bind; [|intros ?; apply backlog_settle].
  unfold createObjectURL. destruct d; try apply keeps_throw.
  apply keeps_bind; [apply keeps_gets | intros urls].
  apply keeps_bind; [apply keeps_modify; reflexivity | intros ?; apply keeps_ret].
Qed.

Lemma backlog_trigger name d : keeps backlog (trigger name d).
Proof.
  unfold trigger. apply keeps_bind; [apply backlog_effect | intros ?].
  apply keeps_bind; [apply keeps_gets | intros ls].
  apply keeps_bind; [apply keeps_modify; reflexivity | intros ?].
  apply backlog_fire.
Qed.

Lemma backlog_run_job j : keeps backlog (run_job j).
Proof.
  destruct j as [r [v|e]]; unfold run_job.
  - destruct (on_fulfilled r) as [k|]; [|apply backlog_settle].
    apply keeps_try_catch; [|intros e; apply backlog_settle].
    apply keeps_bind; [|intros ?; apply backlog_settle].
    destruct k as [p|]; cbn [call_fulfilled].
    + apply keeps_bind; [apply keeps_modify; reflexivity | intros ?].
      apply keeps_bind; [apply keeps_gets | intros [ac|]]; [|apply keeps_throw].
      apply keeps_bind; [apply keeps_modify; reflexivity | intros ?].
      apply keeps_bind; [apply backlog_effect | intros ?; apply backlog_settle].
    + unfold _setState.
      apply keeps_bind; [apply keeps_modify; reflexivity | intros ?].
      apply keeps_bind; [apply keeps_gets | intros s; apply backlog_trigger].
  - destruct (on_rejected r) as [k|]; [|apply backlog_settle].
    apply keeps_try_catch; [|intros e'; apply backlog_settle].
    apply keeps_bind; [|intros ?; apply backlog_settle].
    destruct k; [apply backlog_settle | apply backlog_trigger].
Qed.

Lemma backlog_microtask w w' :
  step w Microtask = Some w' -> S (backlog w') = backlog w.
Proof.
  cbn [step]. destruct (jobs w) as [|j rest] eqn:Hj; [discriminate|].
  intros [= <-]. rewrite backlog_run_job. unfold backlog.
  cbn [heap jobs set_jobs]. rewrite Hj. cbn [length]. lia.
Qed.

Lemma drain k : forall w,
  backlog w <= k ->
  exists n w', n <= backlog w /\ run w (repeat Microtask n) = Some w' /\ jobs w' = [] /\
    backlog w' + n = backlog w.
Proof.
  induction k as [|k IH]; intros w Hk.
  - exists 0, w. cbn. repeat split; try lia.
    unfold backlog in Hk. destruct (jobs w); [reflexivity | cbn in Hk; lia].
  - destruct (jobs w) as [|j rest] eqn:Hj.
    + exists 0, w. cbn. repeat split; try lia. exact Hj.
    + assert (Hs : step w Microtask = Some (fst (run_job j (set_jobs rest w))))
        by (cbn [step]; now rewrite Hj).
      pose proof (backlog_microtask _ _ Hs) as Hb.
      destruct (IH (fst (run_job j (set_jobs rest w)))) as (n & w' & Hn & Hr & Hj' & He);
        [lia|].
      exists (S n), w'. cbn [repeat]. rewrite (run_cons _ _ _ _ Hs).
      repeat split; try lia; assumption.
Qed.

(** ** Nothing is thrown at the caller *)

Lemma run_job_normal j w : snd (run_job j w) = Normal tt.
Proof.
  destruct j as [r [v|e]]; unfold run_job.
  - destruct (on_fulfilled r) as [k|]; [|apply settle_normal].
    unfold try_catch.
    destruct ((call_fulfilled k v;; resolve (derived r) VUndefined) w) as [w1 [[]|e]] eqn:E;
      [reflexivity | apply settle_normal].
  - destruct (on_rejected r) as [k|]; [|apply settle_normal].
    unfold try_catch.
    destruct ((call_rejected k e;; resolve (derived r) VUndefined) w) as [w1 [[]|e']] eqn:E;
      [reflexivity | apply settle_normal].
Qed.

Lemma trigger_blob_normal name b w : snd (trigger name (VBlob b) w) = Normal tt.
Proof.
  unfold trigger. cbv [bind effect gets modify]. cbn [listeners set_log].
  match goal with |- context [fire ?d _ ?x] =>
    destruct (fire_blob_extends d b x) as (_ & _ & H)
  end.
  destruct (fire _ _ _) as [w1 [[]|e]]; [reflexivity | discriminate].
Qed.

Lemma start_normal w : Good w -> snd (start w) = Normal tt.
Proof.
  intros Hw.
  pose proof (start_J _ 0 _ _ (fun _ => False) w (J_of_Good w Hw)) as H.
  destruct (start w) as [w1 [[]|e]]; [reflexivity | destruct H].
Qed.

Lemma grabMic_normal w : Good w -> exists p, snd (grabMic w) = Normal p.
Proof.
  intros Hw.
  pose proof (grabMic_J _ 0 _ _ (fun _ => False) w (J_of_Good w Hw)) as H.
  destruct (grabMic w) as [w1 [p|e]]; [exists p; reflexivity | destruct H].
Qed.

(** * [start()] when the microphone cannot be had *)



(** * Properties of the recorder beyond the specification's statements *)

(** X1.  The audio context is made once, by [init()] in the constructor, and
    only on a supported platform: on every recorder it is the context with
    the hardware's sample rate when [supported()] is truthy and absent
    otherwise, and no sequence of events replaces it or the platform. *)
Theorem audio_context_fixed (w : World) :
  reachable w ->
  audio_ok w /\
  forall evs w', run w evs = Some w' ->
    platform w' = platform w /\ audioContext w' = audioContext w.
Proof.
  intros Hr. split; [apply audio_ok_reachable, Hr | intros evs w'; apply audio_run].
Qed.

Lemma audio_context_fixed_witness :
  audioContext granted_recorder = Some {| sampleRate := 48000 |}.
Proof.
  refine (proj1 (audio_context_fixed granted_recorder _)).
  apply reachable_after. vm_compute. reflexivity.
Defined.

(** X2.  A recorder that is recording has its capture pipeline in place: the
    platform is supported, the audio context exists, the source node is
    connected, and the encoder was sent [init] with the sample rate of the
    context and one channel. *)
Theorem recording_is_wired (w : World) :
  reachable w -> state w = recording ->
  to_boolean (supported (platform w)) = true /\
  wired w = true /\
  audioContext w = Some {| sampleRate := hardware_sampleRate (platform w) |} /\
  In (Post (MsgInit (hardware_sampleRate (platform w)) config_numChannels)) (log w).
Proof. apply recording_ready. Qed.

Lemma recording_is_wired_witness :
  In (Post (MsgInit 48000 1)) (log granted_recorder).
Proof.
  refine (proj2 (proj2 (proj2 (recording_is_wired granted_recorder _ _)))).
  - apply reachable_after. vm_compute. reflexivity.
  - vm_compute. reflexivity.
Defined.

(** X3.  The source node is connected exactly when the [init] message was sent,
    and every [init] message in the log carries the sample rate of the
    recorder's audio context and one channel. *)
Theorem wired_with_init (w : World) :
  reachable w ->
  wired w = has_init (log w) /\
  forall sr nc, In (Post (MsgInit sr nc)) (log w) ->
    nc = config_numChannels /\ audioContext w = Some {| sampleRate := sr |}.
Proof.
  intros Hr. split; [apply wired_is_init, Hr|].
  intros sr nc Hin. destruct (inits_ok_reachable w Hr sr nc Hin) as (_ & H1 & H2).
  auto.
Qed.

Lemma wired_with_init_witness :
  wired (after browser [Call_start; Call_stop]) = false.
Proof.
  refine (proj1 (wired_with_init (after browser [Call_start; Call_stop]) _)).
  apply reachable_after. vm_compute. reflexivity.
Defined.

(** X4.  On a platform where [supported()] is falsy the recorder never records:
    it stays [inactive], it has no audio context and no connected source,
    the only messages it ever sends to the encoder are [clear] and
    [export-wav], and no frame can arrive. *)
Theorem unsupported_never_records (w : World) :
  reachable w -> to_boolean (supported (platform w)) = false ->
  state w = inactive /\
  audioContext w = None /\
  wired w = false /\
  (forall m, In (Post m) (log w) -> m = MsgClear \/ m = MsgExportWav) /\
  (forall c0 cs, step w (AudioProcess c0 cs) = None).
Proof.
  intros Hr Hs.
  pose proof (audio_ok_reachable w Hr) as Ha. unfold audio_ok in Ha.
  rewrite Hs in Ha.
  assert (Hi : forall sr nc, ~ In (Post (MsgInit sr nc)) (log w)).
  { intros sr nc Hin. destruct (inits_ok_reachable w Hr sr nc Hin) as (_ & _ & H).
    congruence. }
  split; [|split; [exact Ha | split; [|split]]].
  - destruct (state w) eqn:Hst; [reflexivity|].
    destruct (recording_ready w Hr Hst) as (H & _). congruence.
  - rewrite (wired_is_init w Hr). destruct (has_init (log w)) eqn:Hh; [|reflexivity].
    apply has_init_In in Hh as (sr & nc & Hin). now destruct (Hi sr nc).
  - intros [sr nc|b| |] Hin; auto.
    + now destruct (Hi sr nc).
    + apply in_split in Hin as (l1 & l2 & Hl).
      destruct (reachable_Good w Hr) as [_ HI].
      destruct (init_first_split _ (inv_rec _ _ _ _ _ _ HI) l1 b l2 Hl)
        as (sr & nc & Hin).
      destruct (Hi sr nc). rewrite Hl. apply in_or_app. now left.
  - intros c0 cs. cbn [step]. now rewrite Ha.
Qed.

Lemma unsupported_never_records_witness :
  state (after mute_browser [Call_start; Gum_fulfil 1 7; Microtask; Microtask;
                             Microtask; Microtask]) = inactive.
Proof.
  refine (proj1 (unsupported_never_records _ _ _)).
  - apply reachable_after. vm_compute. reflexivity.
  - vm_compute. reflexivity.
Defined.

(** X5.  What one event does to the state and the log: the log grows by the
    effects of the event and loses nothing; [stop()], [reset()] and
    [getWavURL()] are the only events that end a recording, the
    continuation of [start()] on a fulfilled grant is the only one that
    begins one, and every change of the state is announced by the signal
    named after the new state. *)
Theorem state_change_signalled (w : World) (ev : Event) (w' : World) :
  reachable w -> step w ev = Some w' ->
  log w' = log w ++ emitted w ev /\
  state w' = next_state w ev /\
  (state w' <> state w ->
     In (Emit (state_name (state w')) VUndefined) (emitted w ev)) /\
  (state w = recording -> state w' = inactive ->
     ev = Call_stop \/ ev = Call_reset \/ ev = Call_getWavURL).
Proof.
  intros Hr Hs.
  pose proof (log_step w ev w' (Good_wav_only _ (reachable_Good _ Hr)) Hs) as Hl.
  pose proof (state_step w ev w' Hs) as Hn.
  split; [exact Hl | split; [exact Hn | split]].
  - rewrite Hn. apply state_change_emitted.
  - rewrite Hn. intros Hrec. destruct ev; cbn [next_state]; auto; try congruence.
    destruct (jobs w) as [|[r [v|e]] rest]; try congruence.
    destruct (on_fulfilled r) as [[p|]|]; congruence.
Qed.

Lemma state_change_signalled_witness :
  log (fst (stop granted_recorder)) =
    log granted_recorder ++ [Emit "inactive" VUndefined].
Proof.
  refine (proj1 (state_change_signalled granted_recorder Call_stop _ _ _)).
  - apply reachable_after. vm_compute. reflexivity.
  - reflexivity.
Defined.

(** X6.  Over any sequence of events the encoder is sent one [clear] for each
    call of [reset()] and one [export-wav] for each call of [getWavURL()],
    and no other event sends either. *)
Theorem encoder_commands_counted (w : World) (evs : list Event) (w' : World) :
  reachable w -> run w evs = Some w' ->
  number is_clear (posted (log w')) =
    number is_clear (posted (log w)) + number is_call_reset evs /\
  number is_export (posted (log w')) =
    number is_export (posted (log w)) + number is_call_getWavURL evs.
Proof.
  intros Hr. apply commands_run, reachable_Good, Hr.
Qed.

Lemma encoder_commands_counted_witness :
  number is_clear
    (posted (log (after browser [Call_start; Call_reset; Call_getWavURL; Call_reset])))
  = 0 + 2.
Proof.
  refine (proj1 (encoder_commands_counted (after browser [])
            [Call_start; Call_reset; Call_getWavURL; Call_reset] _ _ _)).
  - apply reachable_after. vm_compute. reflexivity.
  - vm_compute. reflexivity.
Defined.

(** X7.  Frames that arrive while the recorder is recording are forwarded to
    the encoder one [record] message each, in the order of arrival, with
    the first channel only, and change nothing else; frames that arrive
    while it is inactive are dropped. *)
Theorem frames_forwarded_in_order (w : World)
    (fs : list (Float32Array * list Float32Array)) :
  reachable w -> jobs w = [] -> audioContext w <> None ->
  run w (frame_events fs) =
    Some (match state w with
          | recording => set_log (log w ++ record_messages fs) w
          | inactive => w
          end).
Proof.
  intros Hr Hj Ha. destruct (audioContext w) as [ac|] eqn:Hac; [|congruence].
  destruct (state w) eqn:Hs.
  - now apply (frames_inactive fs w ac).
  - now apply (frames_recording fs w ac).
Qed.

Lemma frames_forwarded_in_order_witness :
  run granted_recorder
      [AudioProcess [1%Z; 2%Z] [[9%Z]]; AudioProcess [3%Z] []] =
    Some (set_log (log granted_recorder ++
                   [Post (MsgRecord [[1%Z; 2%Z]]); Post (MsgRecord [[3%Z]])])
            granted_recorder).
Proof.
  refine (frames_forwarded_in_order granted_recorder
            [([1%Z; 2%Z], [[9%Z]]); ([3%Z], [])] _ _ _).
  - apply reachable_after. vm_compute. reflexivity.
  - vm_compute. reflexivity.
  - vm_compute. discriminate.
Defined.

(** X8.  The first [start()] on a supported platform, followed by the user's
    consent, makes the recorder record: it asks for the microphone once,
    keeps the stream, connects the source, sends [init] with the sample
    rate of the hardware and one channel, fulfils the memoized grant and,
    after four microtasks, is recording, idle, with one "recording"
    signal emitted.  This holds for a new recorder and for one that was
    stopped, reset or asked for an export before. *)
Theorem first_start_granted (w : World) (s : nat) :
  reachable w -> jobs w = [] -> userMedia w = None ->
  has_gum (platform w) = true ->
  to_boolean (supported (platform w)) = true ->
  exists w',
    run w [Call_start; Gum_fulfil (S (length (heap w))) s;
           Microtask; Microtask; Microtask; Microtask] = Some w' /\
    state w' = recording /\ jobs w' = [] /\
    userMedia w' = Some (length (heap w)) /\
    heap w' !! length (heap w) = Some (Settled (Fulfil VUndefined)) /\
    stream w' = VStream s /\ wired w' = true /\
    log w' = log w ++
      [GetUserMedia (S (length (heap w)));
       Post (MsgInit (hardware_sampleRate (platform w)) config_numChannels);
       Emit "recording" VUndefined].
Proof.
  intros Hr Hj Hum Hg Hs.
  destruct (first_start_step w Hr Hj Hum Hg) as (wA & HA & Hh & HjA & Hl & Hw & HwA).
  pose proof (audio_ok_reachable w Hr) as Ha. unfold audio_ok in Ha. rewrite Hs in Ha.
  eexists. split.
  - rewrite (run_cons _ _ _ _ HA).
    apply (grant_run wA (heap w) s {| sampleRate := hardware_sampleRate (platform w) |}
             Hh HjA Hl Hw).
    rewrite HwA. exact Ha.
  - rewrite HwA. cbn [state set_state set_log jobs set_wired set_stream set_heap
                      set_userMedia userMedia heap stream wired log sampleRate].
    rewrite lookup_at_length, <- app_assoc. repeat split. exact Hj.
Qed.

Lemma first_start_granted_witness :
  exists w',
    run (after browser [Call_getWavURL; Call_reset])
        [Call_start; Gum_fulfil 2 7; Microtask; Microtask; Microtask; Microtask]
      = Some w' /\
    state w' = recording.
Proof.
  destruct (first_start_granted (after browser [Call_getWavURL; Call_reset]) 7)
    as (w' & H1 & H2 & _).
  - apply reachable_after. vm_compute. reflexivity.
  - vm_compute. reflexivity.
  - vm_compute. reflexivity.
  - vm_compute. reflexivity.
  - vm_compute. reflexivity.
  - exists w'. split; [exact H1 | exact H2].
Defined.

(** X9.  The first [start()] followed by the user's refusal, or any other
    failure of the permission request: the recorder stays inactive and
    unwired, the memoized grant is rejected with the error and its
    classified code, and after four microtasks one "blocked" signal has
    been emitted and nothing was sent to the encoder. *)
Theorem first_start_refused (w : World) (name : option string) :
  reachable w -> jobs w = [] -> userMedia w = None ->
  has_gum (platform w) = true ->
  exists w',
    run w [Call_start; Gum_reject (S (length (heap w))) name;
           Microtask; Microtask; Microtask; Microtask] = Some w' /\
    state w' = inactive /\ jobs w' = [] /\
    userMedia w' = Some (length (heap w)) /\
    heap w' !! length (heap w) =
      Some (Settled (Reject (GrantFailure (_errorToCode (ErrorObj name))
                               (ErrorObj name)))) /\
    stream w' = stream w /\ wired w' = wired w /\
    log w' = log w ++
      [GetUserMedia (S (length (heap w))); Emit "blocked" VUndefined].
Proof.
  intros Hr Hj Hum Hg.
  destruct (first_start_step w Hr Hj Hum Hg) as (wA & HA & Hh & HjA & Hl & Hw & HwA).
  eexists. split.
  - rewrite (run_cons _ _ _ _ HA).
    apply (refusal_run wA (heap w) name Hh HjA Hl Hw).
  - rewrite HwA. cbn [state set_state set_log jobs set_wired set_stream set_heap
                      set_userMedia userMedia heap stream wired log].
    rewrite lookup_at_length, <- app_assoc.
    repeat split; [apply (unmemoized_inactive w Hr Hum) | exact Hj].
Qed.

Lemma first_start_refused_witness :
  exists w',
    run (after browser [Call_stop])
        [Call_start; Gum_reject 1 (Some "PermissionDeniedError");
         Microtask; Microtask; Microtask; Microtask] = Some w' /\
    heap w' !! 0 =
      Some (Settled (Reject (GrantFailure (VString "permission-denied")
                               (ErrorObj (Some "PermissionDeniedError"))))).
Proof.
  destruct (first_start_refused (after browser [Call_stop])
              (Some "PermissionDeniedError"))
    as (w' & H1 & _ & _ & _ & H2 & _).
  - apply reachable_after. vm_compute. reflexivity.
  - vm_compute. reflexivity.
  - vm_compute. reflexivity.
  - vm_compute. reflexivity.
  - exists w'. split; [exact H1 | exact H2].
Defined.

(** X10.  On a platform that has [getUserMedia] but where [supported()] is
    falsy, the first [start()] still asks for the microphone, and the
    user's consent ends in "blocked": the success handler fails on the
    missing audio context, so the grant is rejected with a [TypeError]
    classified as [unknown], the stream is kept, nothing is sent to the
    encoder and the state stays inactive. *)
Theorem first_start_unsupported (w : World) (s : nat) :
  reachable w -> jobs w = [] -> userMedia w = None ->
  has_gum (platform w) = true ->
  to_boolean (supported (platform w)) = false ->
  exists w',
    run w [Call_start; Gum_fulfil (S (length (heap w))) s;
           Microtask; Microtask; Microtask; Microtask] = Some w' /\
    state w' = inactive /\ jobs w' = [] /\
    userMedia w' = Some (length (heap w)) /\
    heap w' !! length (heap w) =
      Some (Settled (Reject (GrantFailure (VString "unknown") TypeError))) /\
    stream w' = VStream s /\ wired w' = wired w /\
    log w' = log w ++
      [GetUserMedia (S (length (heap w))); Emit "blocked" VUndefined].
Proof.
  intros Hr Hj Hum Hg Hs.
  destruct (first_start_step w Hr Hj Hum Hg) as (wA & HA & Hh & HjA & Hl & Hw & HwA).
  pose proof (audio_ok_reachable w Hr) as Ha. unfold audio_ok in Ha. rewrite Hs in Ha.
  eexists. split.
  - rewrite (run_cons _ _ _ _ HA).
    apply (unready_run wA (heap w) s Hh HjA Hl Hw).
    rewrite HwA. exact Ha.
  - rewrite HwA. cbn [state set_state set_log jobs set_wired set_stream set_heap
                      set_userMedia userMedia heap stream wired log].
    rewrite lookup_at_length, <- app_assoc.
    repeat split; [apply (unmemoized_inactive w Hr Hum) | exact Hj].
Qed.

Lemma first_start_unsupported_witness :
  exists w',
    run (after mute_browser [])
        [Call_start; Gum_fulfil 1 7; Microtask; Microtask; Microtask; Microtask]
      = Some w' /\
    state w' = inactive.
Proof.
  destruct (first_start_unsupported (after mute_browser []) 7) as (w' & H1 & H2 & _).
  - apply reachable_after. vm_compute. reflexivity.
  - vm_compute. reflexivity.
  - vm_compute. reflexivity.
  - vm_compute. reflexivity.
  - vm_compute. reflexivity.
  - exists w'. split; [exact H1 | exact H2].
Defined.

(** X11.  Where [navigator.mediaDevices.getUserMedia] cannot be called, the
    first [start()] asks for nothing: the call fails inside [grabMic], the
    memoized grant is rejected at once with the raw [TypeError], without a
    code, and after two microtasks one "blocked" signal has been emitted;
    the state stays inactive. *)
Theorem start_without_getUserMedia (w : World) :
  reachable w -> jobs w = [] -> userMedia w = None ->
  has_gum (platform w) = false ->
  exists w',
    run w [Call_start; Microtask; Microtask] = Some w' /\
    state w' = inactive /\ jobs w' = [] /\
    userMedia w' = Some (length (heap w)) /\
    heap w' !! length (heap w) = Some (Settled (Reject TypeError)) /\
    log w' = log w ++ [Emit "blocked" VUndefined].
Proof.
  intros Hr Hj Hum Hg.
  pose proof (grabMic_absent w Hum Hg) as HG.
  set (w1 := set_userMedia (Some (length (heap w)))
               (set_heap (heap w ++ [Settled (Reject TypeError)]) w)) in HG.
  assert (H1 : run w [Call_start; Microtask; Microtask] =
               run w1 [Call_start; Microtask; Microtask]).
  { cbn [run step]. now rewrite (start_after_grabMic w w1 _ HG eq_refl). }
  eexists. split.
  - rewrite H1. apply (start_run_rejected w1 (length (heap w)) TypeError).
    + apply (Good_wav_only w (reachable_Good w Hr)).
    + reflexivity.
    + unfold w1. cbn [heap set_heap set_userMedia]. now rewrite lookup_at_length.
    + exact Hj.
  - unfold w1. cbn [state set_state set_log jobs set_heap set_userMedia userMedia
                    heap log].
    rewrite <- app_assoc, lookup_at_length.
    repeat split; [apply (unmemoized_inactive w Hr Hum) | exact Hj].
Qed.

Lemma start_without_getUserMedia_witness :
  exists w',
    run (after old_browser [Call_getWavURL]) [Call_start; Microtask; Microtask]
      = Some w' /\
    heap w' !! 1 = Some (Settled (Reject TypeError)).
Proof.
  destruct (start_without_getUserMedia (after old_browser [Call_getWavURL]))
    as (w' & H1 & _ & _ & _ & H2 & _).
  - apply reachable_after. vm_compute. reflexivity.
  - vm_compute. reflexivity.
  - vm_compute. reflexivity.
  - vm_compute. reflexivity.
  - exists w'. split; [exact H1 | exact H2].
Defined.

(** X12.  The encoder is initialised at most once in the life of a recorder, and
    only after the permission request: the [init] messages sent never
    outnumber the permission requests, of which there is at most one. *)
Theorem init_sent_once (w : World) :
  reachable w ->
  number is_init (log w) <= gum_calls (log w) /\
  number is_init (log w) <= 1.
Proof.
  intros Hr. pose proof (tokens_reachable w Hr) as Ht. unfold tokens in Ht.
  destruct (reachable_Good w Hr) as [_ HI].
  pose proof (proj1 (inv_once _ _ _ _ _ _ HI)). lia.
Qed.

Lemma init_sent_once_witness :
  number is_init
    (log (after browser [Call_start; Call_start; Call_grabMic; Gum_fulfil 1 7;
                         Microtask; Microtask; Microtask; Microtask; Microtask;
                         Microtask; Call_reset; Call_start; Microtask; Microtask]))
  <= 1.
Proof.
  refine (proj2 (init_sent_once _ _)).
  apply reachable_after. vm_compute. reflexivity.
Defined.

(** X13.  Pausing and resuming: on a recording, idle recorder [stop()], any
    frames that arrive meanwhile, and [start()] with its two microtasks
    leave the recorder recording again; the frames are dropped, nothing is
    sent to the encoder, no permission is asked for, and the observers see
    "inactive" and then "recording". *)
Theorem pause_resume (w : World) (fs : list (Float32Array * list Float32Array)) :
  reachable w -> state w = recording -> jobs w = [] ->
  run w (Call_stop :: frame_events fs ++ [Call_start; Microtask; Microtask]) =
    Some (set_log (log w ++ [Emit "inactive" VUndefined; Emit "recording" VUndefined])
            (set_heap (heap w ++ [Settled (Fulfil VUndefined);
                                  Settled (Fulfil VUndefined)]) w)).
Proof.
  intros Hr Hs Hj.
  pose proof (reachable_Good w Hr) as Hg.
  pose proof (Good_wav_only w Hg) as Hw.
  destruct (inv_state _ _ _ _ _ _ (proj2 Hg) Hs) as (p & v & Hp & Hv).
  destruct (recording_ready w Hr Hs) as (_ & _ & Ha & _).
  set (w1 := set_log (log w ++ [Emit "inactive" VUndefined]) (set_state inactive w)).
  assert (H1 : step w Call_stop = Some w1).
  { cbn [step]. unfold stop. now rewrite (_setState_plain w inactive Hw). }
  rewrite (run_cons _ _ _ _ H1).
  rewrite (run_app (frame_events fs) [Call_start; Microtask; Microtask] w1 w1 _
             (frames_inactive fs w1 _ Ha Hj eq_refl)
             (start_run_fulfilled w1 p v Hw Hp Hv Hj)).
  unfold w1. destruct w. cbn in *. subst. now rewrite <- app_assoc.
Qed.

Lemma pause_resume_witness :
  run granted_recorder
      [Call_stop; AudioProcess [5%Z] []; Call_start; Microtask; Microtask] =
    Some (set_log (log granted_recorder ++
                   [Emit "inactive" VUndefined; Emit "recording" VUndefined])
            (set_heap (heap granted_recorder ++
                       [Settled (Fulfil VUndefined); Settled (Fulfil VUndefined)])
               granted_recorder)).
Proof.
  refine (pause_resume granted_recorder [([5%Z], [])] _ _ _).
  - apply reachable_after. vm_compute. reflexivity.
  - vm_compute. reflexivity.
  - vm_compute. reflexivity.
Defined.

(** X14.  A message from the worker is passed on to the observers as a signal
    with the worker's command as its name and the blob as its data,
    whatever the command; it never changes the state, the grant or the
    capture pipeline, also when the command is the name of a state.  A
    command other than [wav-delivered] changes nothing but the log, and a
    [wav-delivered] message with a blob uses up every listener of an
    export. *)
Theorem worker_message_forwarded (w : World) (c : string) (b : JSVal) :
  reachable w -> jobs w = [] ->
  exists w',
    step w (WorkerMessage c b) = Some w' /\
    log w' = log w ++ [Emit c b] /\
    recorder_fields w' = recorder_fields w /\
    (c <> "wav-delivered" -> w' = set_log (log w ++ [Emit c b]) w) /\
    (c = "wav-delivered" -> forall x, b = VBlob x -> listeners w' = []).
Proof.
  intros Hr Hj. pose proof (Good_wav_only w (reachable_Good w Hr)) as Hw.
  eexists. split; [cbn [step]; unfold idle; rewrite Hj; reflexivity|].
  unfold onmessage. split; [apply log_trigger|].
  split; [apply (sb_trigger recorder_fields fields_blind)|]. split.
  - intros Hc. rewrite trigger_plain; [reflexivity | exact Hw |].
    now apply String.eqb_neq.
  - intros -> x _. now apply listeners_trigger_wav.
Qed.

Lemma worker_message_forwarded_witness :
  exists w',
    step granted_recorder (WorkerMessage "inactive" VUndefined) = Some w' /\
    log w' = log granted_recorder ++ [Emit "inactive" VUndefined] /\
    recorder_fields w' = recorder_fields granted_recorder.
Proof.
  destruct (worker_message_forwarded granted_recorder "inactive" VUndefined)
    as (w' & H1 & H2 & H3 & _).
  - apply reachable_after. vm_compute. reflexivity.
  - vm_compute. reflexivity.
  - exists w'. auto.
Defined.

(** X15.  Where [supported()] is truthy but [window.AudioContext] is not a
    function, as when it is [null], which is not [undefined], [init()]
    throws a [TypeError] at [new AudioContext()] before it has assigned
    anything; the constructor, which ends in [init()], throws with it, and
    no recorder exists on such a platform. *)
Theorem init_needs_AudioContext (p : Platform) :
  to_boolean (supported p) = true ->
  (forall n, window_AudioContext p <> VFunction n) ->
  init (blank p) = (blank p, Throw TypeError) /\
  constructor p = None /\
  forall w, reachable w -> platform w <> p.
Proof.
  intros Hs Hn.
  pose proof (init_unconstructible (blank p) Hs Hn) as Hi.
  assert (Hc : constructor p = None) by (unfold constructor; now rewrite Hi).
  split; [exact Hi|]. split; [exact Hc|].
  intros w Hr Hp. destruct (reachable_platform w Hr) as (w0 & H0).
  rewrite Hp in H0. congruence.
Qed.

Lemma init_needs_AudioContext_witness :
  to_boolean (supported null_audio_browser) = true /\
  constructor null_audio_browser = None.
Proof.
  split; [reflexivity|].
  refine (proj1 (proj2 (init_needs_AudioContext null_audio_browser _ _))).
  - reflexivity.
  - intros n. discriminate.
Defined.

(** X16.  [grabMic()] called on its own, followed by the user's consent,
    prepares the recorder without starting it: the microphone is asked for
    once, the source is connected and the encoder initialised, no signal is
    emitted and the state stays inactive; a [start()] after that needs no
    further permission and is recording after its two microtasks. *)
Theorem grabMic_prepares (w : World) (s : nat) :
  reachable w -> jobs w = [] -> userMedia w = None ->
  has_gum (platform w) = true ->
  to_boolean (supported (platform w)) = true ->
  exists w' w'',
    run w [Call_grabMic; Gum_fulfil (S (length (heap w))) s; Microtask; Microtask]
      = Some w' /\
    state w' = inactive /\ jobs w' = [] /\ wired w' = true /\
    stream w' = VStream s /\
    log w' = log w ++
      [GetUserMedia (S (length (heap w)));
       Post (MsgInit (hardware_sampleRate (platform w)) config_numChannels)] /\
    run w' [Call_start; Microtask; Microtask] = Some w'' /\
    state w'' = recording /\
    log w'' = log w' ++ [Emit "recording" VUndefined].
Proof.
  intros Hr Hj Hum Hg Hs.
  pose proof (audio_ok_reachable w Hr) as Ha. unfold audio_ok in Ha. rewrite Hs in Ha.
  pose proof (Good_wav_only w (reachable_Good w Hr)) as Hw.
  pose proof (unmemoized_inactive w Hr Hum) as Hi.
  set (wA := set_userMedia (Some (length (heap w)))
               (set_log (log w ++ [GetUserMedia (S (length (heap w)))])
                  (set_heap (heap w ++ grabMic_cells (length (heap w))) w))).
  assert (HA : step w Call_grabMic = Some wA).
  { cbn [step]. now rewrite (grabMic_fresh w Hum Hg). }
  assert (Hl : existsb (is_gum (S (length (heap w)))) (log wA) = true).
  { unfold wA, set_userMedia, set_log. cbn [log]. rewrite existsb_app.
    cbn [existsb is_gum]. now rewrite Nat.eqb_refl, orb_true_r. }
  pose proof (grab_run wA (heap w) s _ eq_refl Hj Hl Ha) as HB.
  set (w' := set_log _ _) in HB.
  assert (Hv : heap w' !! length (heap w) = Some (Settled (Fulfil VUndefined))).
  { unfold w'. cbn [heap set_log set_wired set_stream set_heap].
    now rewrite lookup_at_length. }
  exists w'. eexists.
  split; [rewrite (run_cons _ _ _ _ HA); exact HB|].
  split; [exact Hi|]. split; [exact Hj|]. split; [reflexivity|].
  split; [reflexivity|]. split.
  { unfold w', wA. cbn [log set_log set_userMedia set_wired set_stream set_heap sampleRate].
    now rewrite <- app_assoc. }
  split; [apply (start_run_fulfilled w' (length (heap w)) VUndefined Hw eq_refl Hv Hj)|].
  split; reflexivity.
Qed.

Lemma grabMic_prepares_witness :
  exists w' w'',
    run (after browser []) [Call_grabMic; Gum_fulfil 1 7; Microtask; Microtask]
      = Some w' /\
    state w' = inactive /\
    run w' [Call_start; Microtask; Microtask] = Some w'' /\
    state w'' = recording.
Proof.
  destruct (grabMic_prepares (after browser []) 7)
    as (w' & w'' & H1 & H2 & _ & _ & _ & _ & H3 & H4 & _).
  - apply reachable_after. vm_compute. reflexivity.
  - vm_compute. reflexivity.
  - vm_compute. reflexivity.
  - vm_compute. reflexivity.
  - vm_compute. reflexivity.
  - exists w', w''. auto.
Defined.

(** X17.  [stop()] does not cancel a [start()] whose permission request is
    still pending: when the user consents afterwards the recorder starts
    recording all the same, after the "inactive" signal of the stop. *)
Theorem stop_does_not_cancel_start (w : World) (s : nat) :
  reachable w -> jobs w = [] -> userMedia w = None ->
  has_gum (platform w) = true ->
  to_boolean (supported (platform w)) = true ->
  exists w',
    run w [Call_start; Call_stop; Gum_fulfil (S (length (heap w))) s;
           Microtask; Microtask; Microtask; Microtask] = Some w' /\
    state w' = recording /\ jobs w' = [] /\
    log w' = log w ++
      [GetUserMedia (S (length (heap w)));
       Emit "inactive" VUndefined;
       Post (MsgInit (hardware_sampleRate (platform w)) config_numChannels);
       Emit "recording" VUndefined].
Proof.
  intros Hr Hj Hum Hg Hs.
  destruct (first_start_step w Hr Hj Hum Hg) as (wA & HA & Hh & HjA & Hl & Hw & HwA).
  pose proof (audio_ok_reachable w Hr) as Ha. unfold audio_ok in Ha. rewrite Hs in Ha.
  set (wB := set_log (log wA ++ [Emit "inactive" VUndefined]) (set_state inactive wA)).
  assert (HB : step wA Call_stop = Some wB).
  { cbn [step]. unfold stop. now rewrite (_setState_plain wA inactive Hw). }
  assert (HlB : existsb (is_gum (S (length (heap w)))) (log wB) = true).
  { unfold wB. cbn [log set_log]. rewrite existsb_app, Hl. reflexivity. }
  eexists. split.
  - rewrite (run_cons _ _ _ _ HA), (run_cons _ _ _ _ HB).
    apply (grant_run wB (heap w) s {| sampleRate := hardware_sampleRate (platform w) |}
             Hh HjA HlB Hw).
    unfold wB. rewrite HwA. exact Ha.
  - unfold wB. rewrite HwA.
    cbn [state set_state set_log jobs set_wired set_stream set_heap
         set_userMedia log sampleRate].
    rewrite <- !app_assoc. repeat split. exact Hj.
Qed.

Lemma stop_does_not_cancel_start_witness :
  exists w',
    run (after browser [])
        [Call_start; Call_stop; Gum_fulfil 1 7;
         Microtask; Microtask; Microtask; Microtask] = Some w' /\
    state w' = recording.
Proof.
  destruct (stop_does_not_cancel_start (after browser []) 7) as (w' & H1 & H2 & _).
  - apply reachable_after. vm_compute. reflexivity.
  - vm_compute. reflexivity.
  - vm_compute. reflexivity.
  - vm_compute. reflexivity.
  - vm_compute. reflexivity.
  - exists w'. auto.
Defined.

(** X18.  [reset()] returns normally on every recorder; it sets the state to
    [inactive], emits "inactive" and then sends [clear] to the encoder, and
    changes nothing else: the grant, the stream and the capture pipeline
    stay, and frames that arrive afterwards are dropped. *)
Theorem reset_effect (w : World) (fs : list (Float32Array * list Float32Array)) :
  reachable w ->
  reset w =
    (set_log (log w ++ [Emit "inactive" VUndefined; Post MsgClear])
       (set_state inactive w), Normal tt) /\
  (jobs w = [] -> audioContext w <> None ->
   run w (Call_reset :: frame_events fs) =
     Some (set_log (log w ++ [Emit "inactive" VUndefined; Post MsgClear])
             (set_state inactive w))).
Proof.
  intros Hr. pose proof (reset_plain w (Good_wav_only w (reachable_Good w Hr))) as H.
  split; [exact H|]. intros Hj Ha.
  destruct (audioContext w) as [ac|] eqn:Hac; [|congruence].
  erewrite run_cons by (cbn [step]; rewrite H; reflexivity).
  now apply (frames_inactive fs _ ac).
Qed.

Lemma reset_effect_witness :
  run granted_recorder [Call_reset; AudioProcess [5%Z] []] =
    Some (set_log (log granted_recorder ++ [Emit "inactive" VUndefined; Post MsgClear])
            (set_state inactive granted_recorder)).
Proof.
  refine (proj2 (reset_effect granted_recorder [([5%Z], [])] _) _ _).
  - apply reachable_after. vm_compute. reflexivity.
  - vm_compute. reflexivity.
  - vm_compute. discriminate.
Defined.


(** X20.  The microtask queue always drains: in every world, running the queued
    jobs one after the other empties the queue after finitely many
    microtasks, at most as many as there are queued jobs and reactions
    registered with pending promises; each job uses up one of them and
    registers nothing new. *)
Theorem microtasks_drain (w : World) :
  exists n w',
    n <= backlog w /\
    run w (repeat Microtask n) = Some w' /\
    jobs w' = [] /\
    backlog w' + n = backlog w.
Proof. apply (drain (backlog w)). lia. Qed.

(** X21.  No method of the recorder throws at its caller, on any platform and
    in any state of the recorder: [start()], [grabMic()], [stop()],
    [reset()] and [getWavURL()] return normally, so do the frame handler,
    every promise job, and the worker's message handler for every command
    other than [wav-delivered] and for every message that carries a blob.
    A failure to get the microphone shows as the "blocked" signal only. *)
Theorem methods_return_normally (w : World) :
  reachable w ->
  snd (start w) = Normal tt /\
  (exists p, snd (grabMic w) = Normal p) /\
  snd (stop w) = Normal tt /\
  snd (reset w) = Normal tt /\
  snd (getWavURL w) = Normal (length (heap w)) /\
  (forall c0 cs, snd (onaudioprocess c0 cs w) = Normal tt) /\
  (forall j, snd (run_job j w) = Normal tt) /\
  (forall c b, c <> "wav-delivered" -> snd (onmessage c b w) = Normal tt) /\
  (forall c b, snd (onmessage c (VBlob b) w) = Normal tt).
Proof.
  intros Hr. pose proof (reachable_Good w Hr) as Hg.
  pose proof (Good_wav_only w Hg) as Hw.
  split; [apply start_normal, Hg|]. split; [apply grabMic_normal, Hg|].
  split; [unfold stop; now rewrite (_setState_plain w inactive Hw)|].
  split; [now rewrite (reset_plain w Hw)|].
  split; [now rewrite (getWavURL_plain w Hw)|].
  split; [|split; [|split]].
  - intros c0 cs. unfold onaudioprocess. rewrite bind_gets.
    destruct (state w); reflexivity.
  - intros j. apply run_job_normal.
  - intros c b Hc. unfold onmessage. rewrite trigger_plain; [reflexivity | exact Hw|].
    now apply String.eqb_neq.
  - intros c b. apply trigger_blob_normal.
Qed.

Lemma methods_return_normally_witness :
  snd (start (after old_browser [Call_getWavURL])) = Normal tt.
Proof.
  refine (proj1 (methods_return_normally (after old_browser [Call_getWavURL]) _)).
  apply reachable_after. vm_compute. reflexivity.
Defined.
